(** * Voxsmith 2.2: narration pipeline of [voxsmith_2_2.pyw]

  A shallow embedding of the slide selector, the notes resolver, the
  synthesis retry loop, the manifest writer and the worker of
  [generate_narration], with the properties of the design document
  stated over them. *)

From Stdlib Require Import ZArith QArith Ascii String List Lia Bool.
From stdpp Require Import base tactics option list gmap strings sorting
list_numbers pretty.

Local Open Scope Z_scope.

(** ** Python string primitives (ASCII text)

  Text is taken to be ASCII.  The blanks and the digits beyond ASCII that
  [str.strip], [\s] and [int()] accept as well are outside the model. *)

Module PyStr.

Local Open Scope char_scope.

(** [str.isspace] on the ASCII range: TAB, LF, VT, FF, CR, the four
    separators FS..US and the blank.  The same table drives [str.strip],
    the [\s] class of [re] and the blanks that [int()] ignores. *)
Definition is_space (c : ascii) : bool :=
  match c with
  | "009" | "010" | "011" | "012" | "013"
  | "028" | "029" | "030" | "031" | " " => true
  | _ => false
  end.

Fixpoint lstrip (s : string) : string :=
  match s with
  | String c r => if is_space c then lstrip r else s
  | EmptyString => EmptyString
  end.

(** [rstrip]: a blank is dropped when everything after it is dropped. *)
Fixpoint rstrip (s : string) : string :=
  match s with
  | String c r =>
      match rstrip r with
      | EmptyString => if is_space c then EmptyString else String c EmptyString
      | r' => String c r'
      end
  | EmptyString => EmptyString
  end.

Definition strip (s : string) : string := rstrip (lstrip s).

(** Truth value of a [str]: the empty string is falsy. *)
Definition truthy (s : string) : bool :=
  match s with EmptyString => false | _ => true end.

(** [sep in s] for a one-character [sep]. *)
Fixpoint contains (sep : ascii) (s : string) : bool :=
  match s with
  | String c r => if Ascii.eqb c sep then true else contains sep r
  | EmptyString => false
  end.

(** [s.split(sep, 1)] when [sep in s]: the text before the first [sep]
    and the text after it. *)
Fixpoint split_once (sep : ascii) (s : string) : string * string :=
  match s with
  | String c r =>
      if Ascii.eqb c sep then (EmptyString, r)
      else let '(a, b) := split_once sep r in (String c a, b)
  | EmptyString => (EmptyString, EmptyString)
  end.

(** [s.split(sep)]: every field, empty ones included. *)
Fixpoint split (sep : ascii) (s : string) : list string :=
  match s with
  | String c r =>
      if Ascii.eqb c sep then EmptyString :: split sep r
      else match split sep r with
           | f :: fs => String c f :: fs
           | [] => [String c EmptyString]
           end
  | EmptyString => [EmptyString]
  end.

(** The value of a decimal digit, by its code point: [0] is 48, [9] is 57. *)
Definition digit_val (c : ascii) : option Z :=
  let n := Z.of_nat (nat_of_ascii c) in
  if ((48 <=? n) && (n <=? 57))%Z then Some (n - 48)%Z else None.

(** Digits of a decimal literal; [after_digit] tells whether the previous
    character was a digit, the only place where one underscore may
    stand.  [acc] is the value read so far. *)
Fixpoint int_digits (after_digit : bool) (acc : Z) (s : string) : option Z :=
  match s with
  | EmptyString => if after_digit then Some acc else None
  | String c r =>
      match digit_val c with
      | Some d => int_digits true (10 * acc + d)%Z r
      | None =>
          if Ascii.eqb c "_" && after_digit then
            match r with
            | EmptyString => None
            | String c' _ =>
                match digit_val c' with
                | Some _ => int_digits false acc r
                | None => None
                end
            end
          else None
      end
  end.

(** [int(s)] in base ten: surrounding blanks, one optional sign, digits
    with single underscores between them.  [None] is [ValueError]. *)
Definition py_int (s : string) : option Z :=
  match strip s with
  | String "+" r => int_digits false 0%Z r
  | String "-" r => Z.opp <$> int_digits false 0%Z r
  | t => int_digits false 0%Z t
  end.

(** [f"{n:02d}"] for the slide ordinals. *)
Definition fmt02 (n : Z) : string :=
  if ((0 <=? n) && (n <? 10))%Z then String "0" (pretty n) else pretty n.

End PyStr.

(** ** RangeSelector: [select_slides] *)

Module RangeSelector.

Import PyStr.

(** The tokens of the loop header:
    [[p.strip() for p in spec.split(',') if p.strip()]]. *)
Definition tokens (spec : string) : list string :=
  strip <$> filter (λ p, truthy (strip p) = true) (split "," spec).

(** [int(a) if a else dflt], with [except Exception: dflt]. *)
Definition bound_or (dflt : Z) (a : string) : Z :=
  if truthy a then default dflt (py_int a) else dflt.

(** [range(st, en + 1)] as the set that [s.update] adds. *)
Definition range_set (st en : Z) : gset Z :=
  list_to_set (seqZ st (en + 1 - st)).

(** One iteration of the [for part in ...] loop on the set [s]. *)
Definition add_token (total : Z) (s : gset Z) (part : string) : gset Z :=
  if contains "-" part then
    let '(a, b) := split_once "-" part in
    let st := bound_or 1 a in
    let en := bound_or total b in
    let st := Z.max 1 st in
    let en := Z.min total en in
    if st <=? en then s ∪ range_set st en else s
  else
    match py_int part with
    | Some n => if (1 <=? n) && (n <=? total) then s ∪ {[ n ]} else s
    | None => s
    end.

(** [sorted(s)] of a set of integers. *)
Definition sorted (s : gset Z) : list Z := merge_sort Z.le (elements s).

Definition select_slides (total : Z) (spec : string) : list Z :=
  if negb (truthy (strip spec)) then seqZ 1 total
  else sorted (foldl (add_token total) ∅ (tokens spec)).

(** *** Vocabulary for the properties of the selector *)

(** A conversion by [int()] that raises: the token takes an [except]
    branch of [select_slides]. *)
Definition int_raises (a : string) : bool :=
  truthy a && bool_decide (py_int a = None).

Definition malformed (part : string) : bool :=
  if contains "-" part then
    let '(a, b) := split_once "-" part in int_raises a || int_raises b
  else bool_decide (py_int part = None).

(** The indices that one token stands for. *)
Definition covers (total : Z) (part : string) (n : Z) : Prop :=
  if contains "-" part then
    Z.max 1 (bound_or 1 (split_once "-" part).1) ≤ n
    ∧ n ≤ Z.min total (bound_or total (split_once "-" part).2)
  else py_int part = Some n ∧ 1 ≤ n ≤ total.

End RangeSelector.

(** ** NotesResolver: the read-slide marker and [extract_slide_text] *)

Module NotesResolver.

Import PyStr.
Local Open Scope string_scope.

(** *** The pattern [re.compile(r'###\s*read\s*slide', re.IGNORECASE)] *)

Definition lower (c : ascii) : ascii :=
  let n := nat_of_ascii c in
  if (Nat.leb 65 n && Nat.leb n 90)%bool then ascii_of_nat (n + 32) else c.

(** Number of leading blanks: the greedy [\s*]. *)
Fixpoint count_spaces (s : string) : nat :=
  match s with
  | String c r => if is_space c then S (count_spaces r) else O
  | EmptyString => O
  end.

(** The slices [s[n:]] and [s[:n]]. *)
Fixpoint str_drop (n : nat) (s : string) : string :=
  match n, s with
  | S k, String _ r => str_drop k r
  | _, _ => s
  end.

Fixpoint str_take (n : nat) (s : string) : string :=
  match n, s with
  | S k, String c r => String c (str_take k r)
  | _, _ => EmptyString
  end.

(** [lit] (given in lower case) read at the head of [s], letter case
    ignored. *)
Fixpoint starts_with_ci (lit s : string) : bool :=
  match lit, s with
  | EmptyString, _ => true
  | String a lit', String c r => Ascii.eqb a (lower c) && starts_with_ci lit' r
  | String _ _, EmptyString => false
  end.

(** Length of the match of the pattern at the head of [s], if any.  The
    blanks are taken greedily; no shorter run can match since [read] and
    [slide] do not begin with a blank. *)
Definition match_len (s : string) : option nat :=
  if starts_with_ci "###" s then
    let s1 := str_drop 3 s in
    let w1 := count_spaces s1 in
    let s2 := str_drop w1 s1 in
    if starts_with_ci "read" s2 then
      let s3 := str_drop 4 s2 in
      let w2 := count_spaces s3 in
      if starts_with_ci "slide" (str_drop w2 s3) then Some (3 + w1 + 4 + w2 + 5)%nat
      else None
    else None
  else None.

(** [pattern.search(s)] as a truth value. *)
Fixpoint re_search (s : string) : bool :=
  match s with
  | String _ r =>
      match match_len s with Some _ => true | None => re_search r end
  | EmptyString => false
  end.

(** [pattern.sub(repl, s)] for a callable [repl] that receives the matched
    text: matches are found left to right and do not overlap; [skip] counts
    the characters of the current match still to be passed over. *)
Fixpoint re_sub_go (skip : nat) (repl : string → string) (s : string) : string :=
  match s with
  | EmptyString => EmptyString
  | String c r =>
      match skip with
      | S k => re_sub_go k repl r
      | O =>
          match match_len s with
          | Some n => repl (str_take n s) ++ re_sub_go (n - 1) repl r
          | None => String c (re_sub_go 0 repl r)
          end
      end
  end.

Definition re_sub (repl : string → string) (s : string) : string :=
  re_sub_go 0 repl s.

(** A replacement given as a string is a template.  Without a backslash
    the template stands for itself; with one, [re] parses escapes and
    group references, which is left to [parse_template]: [None] is
    [re.error], otherwise the expansion as a function of the match. *)
Definition compile_repl (parse_template : string → option (string → string))
    (repl : string) : option (string → string) :=
  if contains "\"%char repl then parse_template repl else Some (λ _, repl).

(** *** Shapes as python-pptx shows them *)

Inductive ShapeType :=
  AUTO_SHAPE | FREEFORM | TEXT_BOX | PLACEHOLDER | PICTURE | GROUP | TABLE
| CHART | MEDIA.

Inductive PlaceholderType := PH_TITLE | PH_CENTER_TITLE | PH_SUBTITLE | PH_BODY | PH_OBJECT.

Record Shape := {
  shape_id : Z;
  is_placeholder : bool;
  (** [placeholder_format.type]; [None] when reading it raises *)
  placeholder_type : option PlaceholderType;
  (** [hasattr(shape, 'group_items')] *)
  has_group_items : bool;
  (** [shape_type]; [None] when the property raises *)
  shape_type : option ShapeType;
  has_text_frame : bool;
  text_frame_text : string;
  top : Z;
  left : Z
}.

Definition is_title (sh : Shape) : bool :=
  is_placeholder sh &&
  match placeholder_type sh with Some PH_TITLE => true | _ => false end.

(** First loop: the id of the first title placeholder. *)
Definition title_shape_id (shapes : list Shape) : option Z :=
  shape_id <$> find (λ sh, is_title sh) shapes.

Definition is_table (t : option ShapeType) : bool :=
  match t with Some TABLE => true | _ => false end.

(** Second loop: the [(top, left, text)] items in document order; [None]
    when [shape_type] raises on a shape that reaches that test. *)
Fixpoint collect_items (title : option Z) (shapes : list Shape)
    : option (list (Z * Z * string)) :=
  match shapes with
  | [] => Some []
  | sh :: rest =>
      if bool_decide (Some (shape_id sh) = title) then collect_items title rest
      else if has_group_items sh then collect_items title rest
      else match shape_type sh with
           | None => None
           | Some ty =>
               if is_table (Some ty) then collect_items title rest
               else
                 let text := strip (text_frame_text sh) in
                 if has_text_frame sh && truthy text then
                   cons (top sh, left sh, text) <$> collect_items title rest
                 else collect_items title rest
           end
  end.

(** Order of the sort key [(x[0], x[1])]. *)
Definition key_le (a b : Z * Z * string) : bool :=
  let '(ta, la, _) := a in
  let '(tb, lb, _) := b in
  ((ta <? tb) || ((ta =? tb) && (la <=? lb)))%Z.

(** [list.sort] is stable: an item goes in front of the first item that it
    does not exceed, items being inserted from the last to the first. *)
Fixpoint insert_item (x : Z * Z * string) (l : list (Z * Z * string)) :=
  match l with
  | [] => [x]
  | y :: l' => if key_le x y then x :: l else y :: insert_item x l'
  end.

Definition sort_items (l : list (Z * Z * string)) : list (Z * Z * string) :=
  foldr insert_item [] l.

(** [sep.join(parts)] *)
Fixpoint join (sep : string) (parts : list string) : string :=
  match parts with
  | [] => EmptyString
  | [x] => x
  | x :: rest => x ++ sep ++ join sep rest
  end.

Definition newline : string := String "010"%char EmptyString.

Definition item_text (x : Z * Z * string) : string := snd x.

Definition extract_slide_text (shapes : list Shape) : option string :=
  items ← collect_items (title_shape_id shapes) shapes;
  Some (join newline (item_text <$> sort_items items)).

(** *** The notes of one slide, lines 1062-1085 of the worker *)

Record PptxSlide := {
  (** text of the notes text frame; [None] when there is none *)
  notes_text : option string;
  shapes : list Shape
}.

Inductive Resolution :=
| NoMarker
| Substituted (chars : nat)
| NoSlideText
| ExtractError.

Definition resolve_notes (parse_template : string → option (string → string))
    (s : PptxSlide) : string * Resolution :=
  let text := default "" (notes_text s) in
  let note := strip text in
  if re_search note then
    match extract_slide_text (shapes s) with
    | Some slide_text =>
        if truthy slide_text then
          match compile_repl parse_template slide_text with
          | Some repl => (re_sub repl note, Substituted (String.length slide_text))
          | None => (strip (re_sub (λ _, "") note), ExtractError)
          end
        else (strip (re_sub (λ _, "") note), NoSlideText)
    | None => (strip (re_sub (λ _, "") note), ExtractError)
    end
  else (note, NoMarker).

(** *** Vocabulary for the properties of the resolver *)

(** A shape whose text [extract_slide_text] takes: not the title, no
    group, no table, with a text frame whose text is not blank. *)
Definition extractable (title : option Z) (sh : Shape) : bool :=
  negb (bool_decide (Some (shape_id sh) = title))
  && negb (has_group_items sh)
  && negb (is_table (shape_type sh))
  && has_text_frame sh && truthy (strip (text_frame_text sh)).

Definition item_of (sh : Shape) : Z * Z * string :=
  (top sh, left sh, strip (text_frame_text sh)).

(** A text that is one match of the marker pattern, no more. *)
Definition is_marker (m : string) : Prop := match_len m = Some (String.length m).

(** No match of the pattern begins at any of the first [n] positions. *)
Definition no_match_before (n : nat) (s : string) : Prop :=
  ∀ k, (k < n)%nat → match_len (str_drop k s) = None.

End NotesResolver.

(** ** The presentation as PowerPoint shows it through COM *)

Module Host.

Local Open Scope string_scope.
Local Open Scope Z_scope.

Inductive Category :=
  Entrance | Exit | Emphasis | MotionPath | TextEntrance | TextExit | MediaPlay.

Inductive Trigger := OnClick | AfterPrevious | WithPrevious.

(** One timeline entry; its ordering index is its position in the
    timeline. *)
Record Effect := {
  eff_target : Z;
  eff_category : Category;
  eff_trigger : Trigger
}.

Record ComShape := {
  com_id : Z;
  alt_text : string;
  hide_while_not_playing : bool
}.

Record Slide := {
  sl_shapes : list ComShape;
  sl_timeline : list Effect
}.

Definition set_timeline (tl : list Effect) (sl : Slide) : Slide :=
  {| sl_shapes := sl_shapes sl; sl_timeline := tl |}.

Definition set_shapes (shs : list ComShape) (sl : Slide) : Slide :=
  {| sl_shapes := shs; sl_timeline := sl_timeline sl |}.

(** The mark that the worker puts on the audio shapes it inserts
    ([audio_shape.AlternativeText = "VOX_VO"]). *)
Definition VOX_MARK : string := "VOX_VO".

Definition is_vox_audio (sh : ComShape) : bool :=
  bool_decide (alt_text sh = VOX_MARK).

(** [pp_pres.Slides(idx)], 1-based; [None] when the call raises. *)
Definition Slides (deck : list Slide) (idx : Z) : option Slide :=
  if 1 <=? idx then deck !! Z.to_nat (idx - 1) else None.

(** A call through the reference [pp_pres.Slides(idx)] that changes the
    slide: [f] applied to slide [idx] of the deck. *)
Definition on_deck (idx : Z) (f : Slide → Slide) (deck : list Slide) : list Slide :=
  alter f (Z.to_nat (idx - 1)) deck.

(** [seq.Item(1).Delete()] *)
Definition delete_first_effect (sl : Slide) : Slide :=
  set_timeline (tail (sl_timeline sl)) sl.

(** A shape id that the slide does not use yet. *)
Definition fresh_id (sl : Slide) : Z :=
  1 + foldr Z.max 0 (com_id <$> sl_shapes sl).

(** [slide.Shapes.AddMediaObject(path, False, True, 0, 0)]: a new media
    shape, no effect created. *)
Definition add_media_object (sl : Slide) : Slide :=
  let sh := {| com_id := fresh_id sl; alt_text := "";
               hide_while_not_playing := false |} in
  set_shapes (sl_shapes sl ++ [sh]) sl.

(** A property write through a shape reference: [f] applied to the shape
    with id [sid]. *)
Definition update_shape (sid : Z) (f : ComShape → ComShape) (sl : Slide) : Slide :=
  set_shapes ((λ x, if bool_decide (com_id x = sid) then f x else x)
                <$> sl_shapes sl) sl.

Definition set_alt_text (txt : string) (sh : ComShape) : ComShape :=
  {| com_id := com_id sh; alt_text := txt;
     hide_while_not_playing := hide_while_not_playing sh |}.

Definition hide_icon (sh : ComShape) : ComShape :=
  {| com_id := com_id sh; alt_text := alt_text sh;
     hide_while_not_playing := true |}.

End Host.

(** ** AnimationSnapshotEngine and the attach helpers

  [voxanimate] and [voxattach] are imported by the worker; their sources
  are not part of the files at hand. *)

Module VoxAnimate.

Import Host.
Local Open Scope string_scope.

Record Snapshot := {
  effects : list Effect;
  has_unsafe : bool
}.

Definition unsafe_category (c : Category) : bool :=
  match c with TextEntrance | TextExit => true | _ => false end.

(** Modelled from the spec: [voxanimate.cleanup_orphaned_audio_effects] is
    missing.  "removes any orphaned effects left over from a prior failed
    run (effects whose target shape no longer exists or was a previous
    narration-audio shape)". *)
Definition orphaned (sl : Slide) (ef : Effect) : bool :=
  match find (λ sh, bool_decide (com_id sh = eff_target ef)) (sl_shapes sl) with
  | Some sh => is_vox_audio sh
  | None => true
  end.

Definition cleanup_orphaned_audio_effects (sl : Slide) : Slide :=
  set_timeline (filter (λ ef, orphaned sl ef = false) (sl_timeline sl)) sl.

(** Modelled from the spec: [voxanimate.snapshot_slide_animations] is
    missing.  "walks the slide's animation timeline and records each
    effect's target, category, trigger, and order", "plus a flag indicating
    whether any effect is of a category known to be unsafe to restore
    automatically".  This is the recording alone: the removal of the
    orphaned effects, which the design gives to the same operation, is the
    call of [cleanup_orphaned_audio_effects] that the worker makes first,
    at line 1033. *)
Definition snapshot_slide_animations (sl : Slide) : Snapshot :=
  {| effects := sl_timeline sl;
     has_unsafe := existsb (λ ef, unsafe_category (eff_category ef)) (sl_timeline sl) |}.

(** Modelled from the spec: [snapshot(slide)] of section 4.4 as one
    operation, which "walks the slide's animation timeline and records each
    effect" and "also removes any orphaned effects left over from a prior
    failed run": the slide without its orphaned effects, and the record of
    the effects that stay.  Lines 1033-1036 of the worker make it in two
    calls. *)
Definition snapshot (sl : Slide) : Slide * Snapshot :=
  let sl := cleanup_orphaned_audio_effects sl in
  (sl, snapshot_slide_animations sl).

(** The effects of a slide that are not orphaned. *)
Definition kept_effects (sl : Slide) : list Effect :=
  filter (λ ef, orphaned sl ef = false) (sl_timeline sl).

(** Modelled from the spec: [voxanimate.should_skip_audio_attachment] is
    missing.  "returns true when the snapshot contains any animation
    category that cannot be safely replayed after new media insertion". *)
Definition should_skip_audio_attachment (snap : Snapshot) : bool * string :=
  (has_unsafe snap,
   if has_unsafe snap then "Slide has text animations" else "").

(** The effect that plays the narration: after previous, bound to the
    inserted audio shape. *)
Definition audio_effect (audio_shape : Z) : Effect :=
  {| eff_target := audio_shape; eff_category := MediaPlay;
     eff_trigger := AfterPrevious |}.

(** Modelled from the spec: [voxanimate.restore_slide_animations] is
    missing.  "clears the slide's entire live timeline, then replays every
    captured effect in its original order, and finally appends one new
    play audio after previous, hidden icon effect bound to the newly
    inserted audio shape."  [replay_ok = false] is a replay that fails: the
    call reports [False] and "current behavior logs and proceeds, leaving
    the clear in place".  The comment of the caller, line 1237, has the
    audio "at position 1"; the order here is that of the design, the audio
    last. *)
Definition restore_slide_animations (replay_ok : bool) (sl : Slide)
    (snap : Snapshot) (audio_shape : Z) : Slide * bool :=
  let cleared := set_timeline [] sl in
  if replay_ok then
    (set_timeline (effects snap ++ [audio_effect audio_shape])
       (update_shape audio_shape hide_icon cleared), true)
  else (cleared, false).

End VoxAnimate.

Module VoxAttach.

Import Host VoxAnimate.

(** Modelled from the spec: [voxattach._delete_existing_vox_audio] is
    missing; the worker calls it to "Remove existing VOX audio shapes".
    PowerPoint drops the effects of a deleted shape with it. *)
Definition _delete_existing_vox_audio (sl : Slide) : Slide :=
  let keep := filter (λ sh, is_vox_audio sh = false) (sl_shapes sl) in
  {| sl_shapes := keep;
     sl_timeline :=
       filter (λ ef, bool_decide (eff_target ef ∈ (com_id <$> keep)))
              (sl_timeline sl) |}.

(** Modelled from the spec: [voxattach._configure_play_settings(shape,
    hide=True)] is missing: the hidden icon of the "play audio after
    previous, hidden icon" effect. *)
Definition _configure_play_settings (sl : Slide) (audio_shape : Z) : Slide :=
  update_shape audio_shape hide_icon sl.

(** Modelled from the spec: [voxattach._append_media_play_after_previous]
    is missing: it appends the play-audio effect to the timeline. *)
Definition _append_media_play_after_previous (sl : Slide) (audio_shape : Z) : Slide :=
  set_timeline (sl_timeline sl ++ [audio_effect audio_shape]) sl.

End VoxAttach.

(** ** SynthesisClient: the retry loop around [sess.post] *)

Module SynthesisClient.

Local Open Scope string_scope.
Local Open Scope Z_scope.

Definition NET_MAX_ATTEMPTS : nat := 3.
Definition NET_BACKOFF_BASE : Q := 3 # 4.
Definition NET_TIMEOUT : Z := 120.

Record Response := {
  status_code : Z;
  content : string;
  (** the message that [pretty_api_error] finds in the body, if any *)
  message : string
}.

(** What one [sess.post(url, headers=h, json=payload, timeout=NET_TIMEOUT)]
    does: a response, or a [requests.RequestException]. *)
Inductive HttpOutcome :=
| Responded (r : Response)
| RequestException.

Inductive NetEvent :=
| Post (attempt : nat)
| Sleep (seconds : Q).

Inductive LoopExit :=
| Left (resp : option Response)    (* [break], or the loop test failed *)
| Reraised.                        (* [raise] in the handler *)

Record SynthResult := {
  attempts : nat;
  loop_exit : LoopExit;
  net_events : list NetEvent
}.

(** [NET_BACKOFF_BASE * (2 ** (attempts-1))]; the values are dyadic, so
    the rational is the float. *)
Definition backoff (attempts : nat) : Q :=
  (NET_BACKOFF_BASE * inject_Z (2 ^ (Z.of_nat attempts - 1)))%Q.

Definition after (evs : list NetEvent) (r : SynthResult) : SynthResult :=
  {| attempts := attempts r; loop_exit := loop_exit r;
     net_events := evs ++ net_events r |}.

(** [while attempts < NET_MAX_ATTEMPTS]: [remaining] is
    [NET_MAX_ATTEMPTS - attempts], so the test is [remaining > 0].
    [http k] is the outcome of the [k]-th post. *)
Fixpoint post_loop (http : nat → HttpOutcome) (remaining attempts : nat)
    (resp : option Response) : SynthResult :=
  match remaining with
  | O => {| attempts := attempts; loop_exit := Left resp; net_events := [] |}
  | S remaining' =>
      let attempts := S attempts in
      match http attempts with
      | Responded r =>
          if status_code r =? 200 then
            {| attempts := attempts; loop_exit := Left (Some r);
               net_events := [Post attempts] |}
          else if (500 <=? status_code r) && (status_code r <? 600)
                  && (attempts <? NET_MAX_ATTEMPTS)%nat then
            after [Post attempts; Sleep (backoff attempts)]
                  (post_loop http remaining' attempts (Some r))
          else
            {| attempts := attempts; loop_exit := Left (Some r);
               net_events := [Post attempts] |}
      | RequestException =>
          if (attempts <? NET_MAX_ATTEMPTS)%nat then
            after [Post attempts; Sleep (backoff attempts)]
                  (post_loop http remaining' attempts resp)
          else
            {| attempts := attempts; loop_exit := Reraised;
               net_events := [Post attempts] |}
      end
  end.

Definition synthesize (http : nat → HttpOutcome) : SynthResult :=
  post_loop http NET_MAX_ATTEMPTS 0 None.

(** *** Vocabulary for the retry policy *)

(** The outcomes after which the loop may post again. *)
Definition retryable (o : HttpOutcome) : bool :=
  match o with
  | Responded r => (500 <=? status_code r) && (status_code r <? 600)
  | RequestException => true
  end.

(** The events of [n] attempts, all but the last followed by its
    backoff. *)
Definition attempts_then_backoffs (n : nat) : list NetEvent :=
  flat_map (λ k, [Post k; Sleep (backoff k)]) (seq 1 (n - 1)) ++ [Post n].

End SynthesisClient.

(** ** ManifestRecorder: lines 1135-1155 of the worker *)

Module ManifestRecorder.

Local Open Scope string_scope.

Record ManifestEntry := {
  m_slide : Z;
  m_voice_id : string;
  m_text_sha256 : string;
  m_wav_md5 : string;
  m_wav_sha256 : string;
  m_bytes : nat;
  m_attempts : nat;
  m_http_status : Z
}.

(** A file by what [json.load] makes of it: text that is no JSON, a JSON
    array of entries (what [json.dump(manifest, mf, indent=2)] writes), or
    a JSON value that is no array. *)
Inductive FileData :=
| Text (s : string)
| JsonList (l : list ManifestEntry)
| JsonOther.

(** What the file system does to the two writes of one append. *)
Inductive ManifestIO :=
| IoOk
| WriteFails       (* writing the manifest raises *)
| ChecksumFails.   (* writing the checksum raises *)

Section Recorder.

(** [hashlib.sha256(b).hexdigest()] and the bytes that [json.dump]
    writes for a manifest. *)
Variable sha256_hex : string → string.
Variable json_bytes : list ManifestEntry → string.
(** bytes of a JSON value that is no array *)
Variable other_bytes : string.

Definition file_bytes (d : FileData) : string :=
  match d with
  | Text s => s
  | JsonList l => json_bytes l
  | JsonOther => other_bytes
  end.

(** [_sha256_file(p)]: the digest of the file's bytes, [""] when the
    file cannot be read. *)
Definition _sha256_file (files : gmap string FileData) (p : string) : string :=
  match files !! p with
  | Some d => sha256_hex (file_bytes d)
  | None => ""
  end.

(** The [try] block: read the manifest ([[]] when that fails), append,
    write it back, then write the checksum next to it.  Appending to a
    JSON value that is no list raises, as a failed write does, and the
    outer handler passes; a failed write of the checksum is passed
    over by the inner handler. *)
Definition record_entry (io : ManifestIO) (files : gmap string FileData)
    (manifest_path : string) (entry : ManifestEntry) : gmap string FileData :=
  let manifest :=
    match files !! manifest_path with
    | Some (JsonList l) => Some l
    | Some JsonOther => None
    | Some (Text _) | None => Some []
    end in
  match manifest, io with
  | None, _ | _, WriteFails => files
  | Some l, ChecksumFails =>
      <[manifest_path := JsonList (l ++ [entry])]> files
  | Some l, IoOk =>
      let files := <[manifest_path := JsonList (l ++ [entry])]> files in
      let _msha := _sha256_file files manifest_path in
      <[manifest_path +:+ ".sha256" := Text _msha]> files
  end.

End Recorder.

End ManifestRecorder.

(** ** RunController and AttachmentOrchestrator: [generate_narration] *)

Module Run.

Import PyStr RangeSelector NotesResolver Host VoxAnimate VoxAttach.
Import SynthesisClient ManifestRecorder.
Local Open Scope string_scope.
Local Open Scope Z_scope.

(** *** What the worker meets: arguments, machine, host, network *)

(** Where the backup of a slide raises, if it does. *)
Inductive BackupStage := AtSlides | AtCleanup | AtSnapshot.

Inductive RestoreOutcome := RestoreTrue | RestoreFalse | RestoreRaises.

(** Which COM calls of the attach sequence of a slide raise. *)
Record AttachFaults := {
  slides_raises : bool;
  delete_vox_raises : bool;
  timeline_raises : bool;
  (** [Some k]: after [k] deletions the next [Item(1).Delete()] raises *)
  delete_raises_after : option nat;
  add_media_raises : bool;
  add_media2_raises : bool;
  configure_raises : bool;
  restore_outcome : RestoreOutcome;
  basic_setup_raises : bool;
  save_raises : bool
}.

(** [subprocess.run]: the exit status, or no process at all. *)
Inductive FfmpegOutcome :=
| Exited (returncode : Z)
| SpawnError.

(** [normalize_audio], lines 313-323, runs the same conversion with
    [check=True]: a status other than 0 raises [CalledProcessError].
    [None] is an exception.  The worker does not call it. *)
Definition normalize_audio (out : FfmpegOutcome) : option unit :=
  match out with
  | Exited 0 => Some tt
  | Exited _ | SpawnError => None
  end.

(** [test_ffmpeg_available], lines 570-575, on the outcome of
    [ffmpeg -version]. *)
Definition test_ffmpeg_available (out : FfmpegOutcome) : bool :=
  match out with
  | Exited returncode => returncode =? 0
  | SpawnError => false
  end.

Record Env := {
  api_key : string;
  voice_id : string;
  input_file : string;
  output_dir : string;
  slide_range_spec : string;
  audio_only : bool;
  (** [Some k]: [cancel_event] is set from its [k]-th reading on, counted
      from zero; [None]: the user never cancels *)
  cancel_at : option nat;
  logs_dir : string;
  path_sep : string;
  (** [os.path.splitext(os.path.basename(input_file))[0]] *)
  deck_base : string;
  (** [time.strftime('%Y%m%d_%H%M%S')] *)
  session_ts : string;
  files0 : gmap string FileData;
  input_is_file : bool;
  ffmpeg_available : bool;
  (** [os.makedirs(output_dir, exist_ok=True)], line 936, raises *)
  makedirs_raises : bool;
  (** [Presentation(input_file)]: the slides, or the text of the
      exception *)
  pptx : list PptxSlide + string;
  (** the deck that the COM block of lines 961-1016 ends up with, or the
      text of the exception *)
  com_deck : list Slide + string;
  http : Z → nat → HttpOutcome;
  manifest_io : Z → ManifestIO;
  ffmpeg : Z → FfmpegOutcome;
  backup_fault : Z → option BackupStage;
  attach_faults : Z → AttachFaults;
  final_save_raises : bool;
  sha256_hex : string → string;
  md5_hex : string → string;
  json_bytes : list ManifestEntry → string;
  other_bytes : string;
  parse_template : string → option (string → string)
}.

(** *** What the worker leaves behind *)

(** The lines given to [log_line], by the statement that writes them. *)
Inductive LogMsg :=
| LMissingKey                    (* "X Missing API Key." *)
| LMissingVoice                  (* "X Missing Voice selection." *)
| LDeckNotFound                  (* "X PowerPoint not found: {input_file}" *)
| LFfmpegMissing                 (* "X ffmpeg not found." *)
| LDeck | LOutput | LLoading     (* "i Deck: ..", "i Output: ..", "i Loading slides..." *)
| LOpenFailed                    (* "X Failed to open PowerPoint: {e}" *)
| LLoaded (total : Z) (sel : list Z)   (* "OK Loaded {total} slide(s). Will process: .." *)
| LAudioOnlyMode                 (* "i Audio-only mode: skipping PowerPoint operations" *)
| LOpeningCom                    (* "i Opening PowerPoint for animation preservation..." *)
| LComReady                      (* "OK PowerPoint ready for animation preservation" *)
| LComFailed                     (* "X Failed to open PowerPoint via COM: {e}" *)
| LBackingUp                     (* "i Backing up animations for selected slides..." *)
| LBackedUp (idx : Z) (n : nat)  (* "  Slide {idx:02d}: {n} animations backed up" *)
| LNoAnimations (idx : Z)        (* "  Slide {idx:02d}: No animations" *)
| LBackupFailed (idx : Z)        (* "  Slide {idx:02d}: Backup failed - {e}" *)
| LBackupComplete                (* "OK Animation backup complete\n" *)
| LCancelled                     (* "i Run cancelled by user." *)
| LMarkerDetected                (* "   Detected '### Read Slide' marker - .." *)
| LExtracted (chars : nat)       (* "   Extracted {n} chars from slide" *)
| LNoTextFound                   (* "   Warning: No text found on slide to extract" *)
| LExtractError                  (* "   Error extracting slide text: {e}" *)
| LSkipNoNotes (idx : Z)         (* "- Skipping slide {idx:02d}: No notes found." *)
| LGenerating (idx : Z)          (* "> Generating slide {idx:02d}..." *)
| LTextHash (h : string)         (* "   text#={txt_hash}" *)
| LNetworkError (idx : Z)        (* " X Network error on slide {idx:02d}: {e}" *)
| LWavHash (h : string)          (* "   wav#={wav_md5}" *)
| LConverted (name : string)     (* " i Converted -> {name}" *)
| LAudioOnlySaved (name : string)   (* "i Audio-only mode: saved to {name}" *)
| LSkipAttach (idx : Z)          (* "i Skipping attachment to slide {idx:02d} due to .." *)
| LSkipReason (reason : string)  (* "i {skip_reason}" *)
| LAttachManually (name : string)   (* "i Audio saved to {name} - attach manually .." *)
| LInserting (idx : Z)           (* "> Inserting audio into slide {idx:02d}..." *)
| LClearing                      (* "  Clearing animation timeline before audio insertion..." *)
| LRestoring                     (* "  Restoring animations..." *)
| LRestored (n : nat)            (* "  OK Restored {n} animations" *)
| LAudioInserted                 (* "  OK Audio inserted (no animations to restore)" *)
| LRestoreIssues                 (* "  ! Animation restoration had issues" *)
| LSnapshotUnavailable           (* "  ! Snapshot unavailable, basic audio setup used" *)
| LSlideComplete (idx : Z)       (* "OK Slide {idx:02d} complete" *)
| LInsertionError (idx : Z)      (* "X Slide {idx:02d} insertion error: {e}" *)
| LApiError (idx : Z) (msg : string)   (* " X API error slide {idx:02d}: {msg}" *)
| LDoneAudio                     (* "* Done. Audio files saved to output folder." *)
| LDone                          (* "* Done. Check your output folder." *)
| LSessionLog                    (* "OK Session log saved" *)
| LFatal                         (* "X Fatal error: {e}" *)
| LDeckSaved                     (* "i Deck saved and left open for review" *)
| LSaveWarning.                  (* "! Warning: Failed to save: {e}" *)

(** The lines that report an error: those that begin with [X], a leading
    blank aside. *)
Definition is_error_line (m : LogMsg) : bool :=
  match m with
  | LMissingKey | LMissingVoice | LDeckNotFound | LFfmpegMissing
  | LOpenFailed | LComFailed | LNetworkError _ | LInsertionError _
  | LApiError _ _ | LFatal => true
  | _ => false
  end.

Inductive BoxKind := ShowError | ShowInfo.

(** The COM calls that change or read a slide, once they have returned. *)
Inductive ComOp :=
| OpCleanup
| OpSnapshot
| OpDeleteVox
| OpClear
| OpAddMedia
| OpConfigure
| OpRestore (success : bool)
| OpBasicSetup.

Inductive Event :=
| Log (m : LogMsg)
| MsgBox (kind : BoxKind) (title body : string)
| Net (idx : Z) (ev : NetEvent)
| Transcode (idx : Z) (out : FfmpegOutcome)
| Com (idx : Z) (op : ComOp)
(** [pp_pres.Save()] returned; [Some idx] after the attach sequence of a
    slide, [None] in the [finally] clause *)
| SaveDeck (after_slide : option Z).

Record St := {
  (** the presentation open in PowerPoint *)
  deck : list Slide;
  (** the document as last saved *)
  saved : list Slide;
  (** [pp_pres] is set *)
  pres_open : bool;
  files : gmap string FileData;
  (** [animation_snapshots] *)
  snaps : gmap Z (option Snapshot);
  processed : Z;
  (** readings of [cancel_event] so far *)
  polls : nat;
  (** newest first *)
  trace : list Event
}.

Definition with_deck (d : list Slide) (st : St) : St :=
  {| deck := d; saved := saved st; pres_open := pres_open st;
     files := files st; snaps := snaps st; processed := processed st;
     polls := polls st; trace := trace st |}.

Definition with_saved (d : list Slide) (st : St) : St :=
  {| deck := deck st; saved := d; pres_open := pres_open st;
     files := files st; snaps := snaps st; processed := processed st;
     polls := polls st; trace := trace st |}.

Definition with_pres (d : list Slide) (st : St) : St :=
  {| deck := d; saved := d; pres_open := true;
     files := files st; snaps := snaps st; processed := processed st;
     polls := polls st; trace := trace st |}.

Definition with_files (f : gmap string FileData) (st : St) : St :=
  {| deck := deck st; saved := saved st; pres_open := pres_open st;
     files := f; snaps := snaps st; processed := processed st;
     polls := polls st; trace := trace st |}.

Definition with_snaps (m : gmap Z (option Snapshot)) (st : St) : St :=
  {| deck := deck st; saved := saved st; pres_open := pres_open st;
     files := files st; snaps := m; processed := processed st;
     polls := polls st; trace := trace st |}.

Definition count_processed (st : St) : St :=
  {| deck := deck st; saved := saved st; pres_open := pres_open st;
     files := files st; snaps := snaps st; processed := processed st + 1;
     polls := polls st; trace := trace st |}.

Definition emit (ev : Event) (st : St) : St :=
  {| deck := deck st; saved := saved st; pres_open := pres_open st;
     files := files st; snaps := snaps st; processed := processed st;
     polls := polls st; trace := ev :: trace st |}.

Definition log (m : LogMsg) : St → St := emit (Log m).

(** Events in the order of their occurrence. *)
Definition history (st : St) : list Event := rev (trace st).

(** [cancel_event.is_set()] *)
Definition is_set (e : Env) (st : St) : bool * St :=
  (match cancel_at e with Some k => (k <=? polls st)%nat | None => false end,
   {| deck := deck st; saved := saved st; pres_open := pres_open st;
      files := files st; snaps := snaps st; processed := processed st;
      polls := S (polls st); trace := trace st |}).

Definition msgbox (kind : BoxKind) (title body : string) : St → St :=
  emit (MsgBox kind title body).

Definition initial (e : Env) : St :=
  {| deck := []; saved := []; pres_open := false; files := files0 e;
     snaps := ∅; processed := 0; polls := 0; trace := [] |}.

(** *** Batch snapshot, lines 1022-1048 *)

Definition backup_failed (idx : Z) (st : St) : St :=
  with_snaps (<[idx := None]> (snaps st)) (log (LBackupFailed idx) st).

(** The body of the [for idx in sel] loop after the cancellation test. *)
Definition backup_slide (e : Env) (idx : Z) (st : St) : St :=
  match backup_fault e idx, Slides (deck st) idx with
  | Some AtSlides, _ | _, None | Some AtCleanup, _ => backup_failed idx st
  | Some AtSnapshot, Some _ =>
      backup_failed idx
        (emit (Com idx OpCleanup)
           (with_deck (on_deck idx cleanup_orphaned_audio_effects (deck st)) st))
  | None, Some sl =>
      let st := emit (Com idx OpCleanup)
                  (with_deck (on_deck idx cleanup_orphaned_audio_effects (deck st)) st) in
      let snapshot := snapshot_slide_animations (cleanup_orphaned_audio_effects sl) in
      let st := emit (Com idx OpSnapshot) st in
      let st := with_snaps (<[idx := Some snapshot]> (snaps st)) st in
      match effects snapshot with
      | [] => log (LNoAnimations idx) st
      | _ => log (LBackedUp idx (length (effects snapshot))) st
      end
  end.

Fixpoint backup_loop (e : Env) (sel : list Z) (st : St) : St :=
  match sel with
  | [] => st
  | idx :: rest =>
      let '(cancelled, st) := is_set e st in
      if cancelled then st else backup_loop e rest (backup_slide e idx st)
  end.

(** *** Attach sequence, lines 1185-1260

    The [try] block as a computation that may raise: [None] is an
    exception on its way to [except Exception as e]. *)

Definition Attach (A : Type) : Type := St → St * option A.

#[local] Instance attach_ret : MRet Attach := λ A a st, (st, Some a).

#[local] Instance attach_bind : MBind Attach := λ A B k m st,
  match m st with
  | (st', Some a) => k a st'
  | (st', None) => (st', None)
  end.

Definition raise {A} : Attach A := λ st, (st, None).

Definition may_raise (raises : bool) : Attach unit :=
  if raises then raise else mret tt.

(** A step that cannot raise. *)
Definition act (f : St → St) : Attach unit := λ st, (f st, Some tt).

Definition say (m : LogMsg) : Attach unit := act (log m).

(** [pp_pres.Slides(idx)], and later the slide behind that reference. *)
Definition the_slide (idx : Z) : Attach Slide := λ st,
  (st, Slides (deck st) idx).

(** A COM call that changes the slide and returns. *)
Definition on_slide (idx : Z) (op : ComOp) (f : Slide → Slide) : Attach unit :=
  act (λ st, emit (Com idx op) (with_deck (on_deck idx f (deck st)) st)).

(** [while seq.Count > 0: try: seq.Item(1).Delete() except: break] *)
Fixpoint clear_timeline (raises_after : option nat) (tl : list Effect) : list Effect :=
  match tl with
  | [] => []
  | _ :: rest =>
      match raises_after with
      | Some O => tl
      | Some (S k) => clear_timeline (Some k) rest
      | None => clear_timeline None rest
      end
  end.

(** [animation_snapshots.get(idx)] *)
Definition get_snapshot (idx : Z) : Attach (option Snapshot) := λ st,
  (st, Some (mjoin (snaps st !! idx))).

Definition save_deck (after_slide : option Z) : Attach unit :=
  act (λ st, emit (SaveDeck after_slide) (with_saved (deck st) st)).

Definition attach_sequence (e : Env) (idx : Z) : Attach unit :=
  let f := attach_faults e idx in
  _ ← may_raise (slides_raises f);
  _ ← the_slide idx;
  _ ← may_raise (delete_vox_raises f);
  _ ← on_slide idx OpDeleteVox _delete_existing_vox_audio;
  _ ← say LClearing;
  _ ← (if timeline_raises f then mret tt
       else on_slide idx OpClear
              (λ sl, set_timeline
                       (clear_timeline (delete_raises_after f) (sl_timeline sl)) sl));
  _ ← may_raise (add_media_raises f && add_media2_raises f);
  sl ← the_slide idx;
  let audio_shape := fresh_id sl in
  _ ← on_slide idx OpAddMedia add_media_object;
  _ ← (if configure_raises f then mret tt
       else on_slide idx OpConfigure (update_shape audio_shape (set_alt_text VOX_MARK)));
  snapshot ← get_snapshot idx;
  _ ← match snapshot with
      | Some snap =>
          _ ← say LRestoring;
          match restore_outcome f with
          | RestoreRaises => raise
          | RestoreTrue =>
              _ ← on_slide idx (OpRestore true)
                    (λ sl, fst (restore_slide_animations true sl snap audio_shape));
              match effects snap with
              | [] => say LAudioInserted
              | _ => say (LRestored (length (effects snap)))
              end
          | RestoreFalse =>
              _ ← on_slide idx (OpRestore false)
                    (λ sl, fst (restore_slide_animations false sl snap audio_shape));
              say LRestoreIssues
          end
      | None =>
          _ ← may_raise (basic_setup_raises f);
          _ ← on_slide idx OpBasicSetup
                (λ sl, _append_media_play_after_previous
                         (_configure_play_settings sl audio_shape) audio_shape);
          say LSnapshotUnavailable
      end;
  _ ← may_raise (save_raises f);
  _ ← save_deck (Some idx);
  say (LSlideComplete idx).

Definition attach_audio (e : Env) (idx : Z) (st : St) : St :=
  match attach_sequence e idx (log (LInserting idx) st) with
  | (st, Some _) => st
  | (st, None) => log (LInsertionError idx) st
  end.

(** *** One slide of the main loop, lines 1061-1266 *)

Definition newline : string := String "010"%char EmptyString.

Definition session_manifest_path (e : Env) : string :=
  logs_dir e +:+ path_sep e +:+ deck_base e +:+ "_" +:+ session_ts e
    +:+ "_manifest.json".

Definition slide_name (idx : Z) : string := "slide" +:+ fmt02 idx +:+ ".wav".

(** [pretty_api_error], the search through the body summed up by
    [message]. *)
Definition pretty_api_error (resp : Response) : string :=
  if truthy (message resp)
  then "HTTP " +:+ pretty (status_code resp) +:+ ": " +:+ message resp
  else "HTTP " +:+ pretty (status_code resp).

Definition log_resolution (r : Resolution) (st : St) : St :=
  match r with
  | NoMarker => st
  | Substituted n => log (LExtracted n) (log LMarkerDetected st)
  | NoSlideText => log LNoTextFound (log LMarkerDetected st)
  | ExtractError => log LExtractError (log LMarkerDetected st)
  end.

Definition emits (evs : list Event) (st : St) : St :=
  foldl (λ st ev, emit ev st) st evs.

Definition manifest_entry (e : Env) (idx : Z) (txt_hash wav_md5 : string)
    (resp : Response) (attempts : nat) : ManifestEntry :=
  {| m_slide := idx; m_voice_id := voice_id e; m_text_sha256 := txt_hash;
     m_wav_md5 := wav_md5; m_wav_sha256 := sha256_hex e (content resp);
     m_bytes := String.length (content resp); m_attempts := attempts;
     m_http_status := status_code resp |}.

(** The second component tells whether an exception left the loop body,
    on its way to the handler of the worker.  A snapshot made by
    [snapshot_slide_animations] is a dictionary with keys, hence true in
    [if snapshot:]. *)
Definition process_slide (e : Env) (prs : list PptxSlide) (idx : Z) (st : St)
    : St * bool :=
  match prs !! Z.to_nat (idx - 1) with
  | None => (st, true)
  | Some s =>
      let '(note, res) := resolve_notes (parse_template e) s in
      let st := log_resolution res st in
      if negb (truthy note) then
        (count_processed (log (LSkipNoNotes idx) st), false)
      else
        let st := log (LGenerating idx) st in
        let txt_hash := str_take 8 (sha256_hex e note) in
        let st := log (LTextHash txt_hash) st in
        let r := synthesize (http e idx) in
        let st := emits (Net idx <$> net_events r) st in
        match loop_exit r with
        | Reraised => (count_processed (log (LNetworkError idx) st), false)
        | Left None => (st, true)
        | Left (Some resp) =>
            if status_code resp =? 200 then
              let name := slide_name idx in
              let wav_md5 := str_take 8 (md5_hex e (content resp)) in
              let st := log (LWavHash wav_md5) st in
              let st :=
                with_files
                  (record_entry (sha256_hex e) (json_bytes e) (other_bytes e)
                     (manifest_io e idx) (files st) (session_manifest_path e)
                     (manifest_entry e idx txt_hash wav_md5 resp (attempts r)))
                  st in
              match ffmpeg e idx with
              | SpawnError => (st, true)
              | Exited returncode =>
                  let st := emit (Transcode idx (Exited returncode)) st in
                  let st := log (LConverted name) st in
                  if audio_only e then
                    (count_processed (log (LAudioOnlySaved name) st), false)
                  else
                    let skip :=
                      match mjoin (snaps st !! idx) with
                      | Some snapshot =>
                          let '(should_skip, skip_reason) :=
                            should_skip_audio_attachment snapshot in
                          if should_skip then Some skip_reason else None
                      | None => None
                      end in
                    match skip with
                    | Some skip_reason =>
                        let st := log (LSkipAttach idx) st in
                        let st := log (LSkipReason skip_reason) st in
                        let st := log (LAttachManually name) st in
                        (count_processed st, false)
                    | None => (count_processed (attach_audio e idx st), false)
                    end
              end
            else
              (count_processed
                 (log (LApiError idx (pretty_api_error resp)) st), false)
        end
  end.

Fixpoint slide_loop (e : Env) (prs : list PptxSlide) (sel : list Z) (st : St)
    : St * bool :=
  match sel with
  | [] => (st, false)
  | idx :: rest =>
      let '(cancelled, st) := is_set e st in
      if cancelled then (log LCancelled st, false)
      else
        match process_slide e prs idx st with
        | (st, true) => (st, true)
        | (st, false) => slide_loop e prs rest st
        end
  end.

(** *** The worker, lines 915-1297 *)

(** Lines 1268-1280. *)
Definition report (e : Env) (st : St) : St :=
  let '(cancelled, st) := is_set e st in
  if negb cancelled then
    let st :=
      if audio_only e then
        msgbox ShowInfo "Complete"
          "Audio generation finished. Files saved to output folder."
          (log LDoneAudio st)
      else
        msgbox ShowInfo "Complete"
          "Narration finished. Check your output folder." (log LDone st) in
    log LSessionLog st
  else msgbox ShowInfo "Cancelled" "Generation was cancelled." st.

(** Lines 956-1048: nothing in audio-only mode, else the COM block and the
    batch snapshot.  [false]: the worker returns. *)
Definition prepare (e : Env) (sel : list Z) (st : St) : St * bool :=
  if audio_only e then (log LAudioOnlyMode st, true)
  else
    let st := log LOpeningCom st in
    match com_deck e with
    | inr err =>
        let st := log LComFailed st in
        (msgbox ShowError "Error"
           ("Failed to open PowerPoint for animation handling:"
              +:+ newline +:+ err) st, false)
    | inl d =>
        let st := log LComReady (with_pres d st) in
        let st := log LBackingUp st in
        let st := backup_loop e sel st in
        (log LBackupComplete st, true)
    end.

(** How the [try] block of the worker ends: a [return], its last
    statement, or an exception caught by [except Exception as e]. *)
Inductive Ending := Returned | Finished | Escaped.

Definition worker_body (e : Env) (st : St) : St * Ending :=
  if negb (truthy (strip (api_key e))) then
    (msgbox ShowError "Error" "Enter API Key." (log LMissingKey st), Returned)
  else if negb (truthy (strip (voice_id e))) then
    (msgbox ShowError "Error" "Choose a voice." (log LMissingVoice st), Returned)
  else if negb (input_is_file e) then
    (msgbox ShowError "Error"
       ("PowerPoint not found:" +:+ newline +:+ input_file e)
       (log LDeckNotFound st), Returned)
  else if negb (ffmpeg_available e) then
    (msgbox ShowError "ffmpeg not found"
       "Place ffmpeg\ffmpeg.exe next to the EXE or install ffmpeg."
       (log LFfmpegMissing st), Returned)
  else if makedirs_raises e then (st, Escaped)
  else
    let st := log LLoading (log LOutput (log LDeck st)) in
    match pptx e with
    | inr err =>
        (msgbox ShowError "Error"
           ("Failed to open PowerPoint:" +:+ newline +:+ err)
           (log LOpenFailed st), Returned)
    | inl prs =>
        let total := Z.of_nat (length prs) in
        let sel := select_slides total (slide_range_spec e) in
        let st := log (LLoaded total sel) st in
        match sel with
        | [] =>
            (msgbox ShowInfo "No slides selected"
               "Your slide range selected no slides." st, Returned)
        | _ =>
            match prepare e sel st with
            | (st, false) => (st, Returned)
            | (st, true) =>
                match slide_loop e prs sel st with
                | (st, true) => (st, Escaped)
                | (st, false) => (report e st, Finished)
                end
            end
        end
    end.

(** The [finally] clause: the deck is saved whenever it is open and the
    run is not audio-only. *)
Definition finally (e : Env) (st : St) : St :=
  if audio_only e then st
  else if pres_open st then
    if final_save_raises e then log LSaveWarning st
    else log LDeckSaved (emit (SaveDeck None) (with_saved (deck st) st))
  else st.

Definition worker (e : Env) : St :=
  let '(st, ending) := worker_body e (initial e) in
  let st := match ending with Escaped => log LFatal st | _ => st end in
  finally e st.

(** The dialogs shown to the user, in order: all that the caller of the
    run is told when it ends. *)
Definition box_of (ev : Event) : option (string * string) :=
  match ev with MsgBox _ title body => Some (title, body) | _ => None end.

Definition dialogs (st : St) : list (string * string) :=
  omap box_of (history st).

Definition dlg_cancelled : string * string :=
  ("Cancelled", "Generation was cancelled.").

Definition dlg_complete_audio : string * string :=
  ("Complete", "Audio generation finished. Files saved to output folder.").

Definition dlg_complete : string * string :=
  ("Complete", "Narration finished. Check your output folder.").

End Run.

(** ** Traces: the vocabulary of the properties of a run *)

Module Trace.

Import PyStr RangeSelector NotesResolver Host VoxAnimate VoxAttach.
Import SynthesisClient ManifestRecorder Run.
Local Open Scope string_scope.
Local Open Scope Z_scope.
Local Open Scope list_scope.

Definition is_log (ev : Event) : Prop :=
  match ev with Log _ => True | _ => False end.

(** The lines that the notes resolver logs. *)
Definition is_resolution_log (ev : Event) : Prop :=
  match ev with
  | Log (LMarkerDetected | LExtracted _ | LNoTextFound | LExtractError) => True
  | _ => False
  end.

Definition is_backup_op (ev : Event) : bool :=
  match ev with
  | Com _ (OpCleanup | OpSnapshot) => true
  | _ => false
  end.

Definition is_attach_op (ev : Event) : bool :=
  match ev with
  | Com _ (OpDeleteVox | OpClear | OpAddMedia | OpConfigure | OpRestore _
           | OpBasicSetup) => true
  | _ => false
  end.

(** The events that the loop body may leave for slide [idx]. *)
Definition slide_event (idx : Z) (ev : Event) : bool :=
  match ev with
  | Log _ => true
  | MsgBox _ _ _ => false
  | Net i _ | Transcode i _ => bool_decide (i = idx)
  | Com i _ => bool_decide (i = idx) && is_attach_op ev
  | SaveDeck (Some i) => bool_decide (i = idx)
  | SaveDeck None => false
  end.

(** The events that the attach sequence of slide [idx] may leave. *)
Definition attach_event (idx : Z) (ev : Event) : bool :=
  match ev with
  | Log (LGenerating _) => false
  | Log _ => true
  | Com i _ => bool_decide (i = idx) && is_attach_op ev
  | SaveDeck (Some i) => bool_decide (i = idx)
  | _ => false
  end.

(** The events of the loop body before the attach decision. *)
Definition pre_attach_event (idx : Z) (ev : Event) : bool :=
  match ev with
  | Log (LSkipAttach _) => false
  | Log _ => true
  | Net i _ | Transcode i _ => bool_decide (i = idx)
  | _ => false
  end.

Definition finishes_attach (idx : Z) (ev : Event) : bool :=
  match ev with
  | Com i (OpRestore _ | OpBasicSetup) => bool_decide (i = idx)
  | _ => false
  end.

(** On a trace, newest first: every save that follows the attach sequence
    of a slide comes after the restore, or the basic setup, of that
    slide. *)
Fixpoint saves_follow_attach (tr : list Event) : bool :=
  match tr with
  | [] => true
  | SaveDeck (Some idx) :: older =>
      existsb (finishes_attach idx) older && saves_follow_attach older
  | _ :: older => saves_follow_attach older
  end.

(** [grows p old new]: the trace [new] is [old] with events that
    satisfy [p] put in front. *)
Inductive grows (p : Event → bool) (old : list Event) : list Event → Prop :=
| grows_refl : grows p old old
| grows_cons ev new : p ev = true → grows p old new → grows p old (ev :: new).

(** [follows idx st st']: [st'] comes from [st] by steps of the loop body
    for slide [idx]. *)
Definition follows (idx : Z) (st st' : St) : Prop :=
  grows (slide_event idx) (trace st) (trace st')
  ∧ (saves_follow_attach (trace st) = true → saves_follow_attach (trace st') = true)
  ∧ snaps st' = snaps st ∧ polls st' = polls st ∧ pres_open st' = pres_open st.

Definition is_cancelled (e : Env) (st : St) : Prop :=
  ∃ k, cancel_at e = Some k ∧ (k ≤ polls st)%nat.

Definition is_logb (ev : Event) : bool :=
  match ev with Log _ => true | _ => false end.

(** Every COM call in the trace is on a slide with an entry in the
    table of snapshots. *)
Definition covered (m : gmap Z (option Snapshot)) (ev : Event) : bool :=
  match ev with
  | Com i _ => bool_decide (is_Some (m !! i))
  | _ => true
  end.

(** The events of the loop over the slides. *)
Definition loop_event (ev : Event) : bool :=
  negb (is_backup_op ev)
  && match ev with MsgBox _ _ _ | SaveDeck None => false | _ => true end.

(** The events of the phases before the loop over the slides. *)
Definition setup_event (ev : Event) : bool :=
  match ev with
  | Log (LGenerating _) => false
  | Log _ => true
  | Com _ (OpCleanup | OpSnapshot) => true
  | _ => false
  end.

(** The events of a run that returns before the loop. *)
Definition early_event (ev : Event) : bool :=
  match ev with
  | Log (LGenerating _) => false
  | Log _ | MsgBox _ _ _ => true
  | _ => false
  end.

(** The events after the loop: the report and the [finally] clause. *)
Definition closing_event (ev : Event) : bool :=
  match ev with
  | Log (LGenerating _) => false
  | Log _ | MsgBox _ _ _ | SaveDeck None => true
  | _ => false
  end.

Definition backed_up (d0 : list Slide) (m : gmap Z (option Snapshot)) : Prop :=
  ∀ idx snap, m !! idx = Some (Some snap) →
    ∃ sl, Slides d0 idx = Some sl
          ∧ snap = snapshot_slide_animations (cleanup_orphaned_audio_effects sl).

(** The COM calls on slide [idx] in a list of events, oldest first. *)
Definition com_ops (idx : Z) (h : list Event) : list ComOp :=
  omap (λ ev, match ev with
              | Com i op => if bool_decide (i = idx) then Some op else None
              | _ => None
              end) h.


Definition log_lines (h : list Event) : list LogMsg :=
  omap (λ ev, match ev with Log m => Some m | _ => None end) h.

Definition transcodes (h : list Event) : list (Z * FfmpegOutcome) :=
  omap (λ ev, match ev with Transcode i out => Some (i, out) | _ => None end) h.


(** The COM calls of the restore path of the attach sequence return. *)
Definition restore_returns (f : AttachFaults) : Prop :=
  slides_raises f = false ∧ delete_vox_raises f = false
  ∧ add_media_raises f && add_media2_raises f = false
  ∧ restore_outcome f = RestoreTrue ∧ save_raises f = false.




(** The last reading of the cancel flag found it set. *)
Definition found_set (e : Env) (st : St) : bool :=
  match cancel_at e with Some k => (k <? polls st)%nat | None => false end.

(** The cancel flag is not set at its [i]-th reading, counted from
    zero. *)
Definition unset_at (e : Env) (i : nat) : Prop :=
  ∀ k, cancel_at e = Some k → (i < k)%nat.

(** The arguments pass the checks of lines 927-934 and the output folder
    can be made. *)
Definition valid_inputs (e : Env) : Prop :=
  truthy (strip (api_key e)) = true ∧ truthy (strip (voice_id e)) = true
  ∧ input_is_file e = true ∧ ffmpeg_available e = true
  ∧ makedirs_raises e = false.

(** In [h], oldest first, the snapshot of slide [idx] is taken, right
    after the orphan cleanup of that slide. *)
Definition captured (idx : Z) (h : list Event) : Prop :=
  ∃ l1 l2, h = l1 ++ Com idx OpCleanup :: Com idx OpSnapshot :: l2.

(** What the table of snapshots and the trace, newest first, have to do
    with each other during the batch backup. *)
Definition backup_inv (st : St) : Prop :=
  (∀ idx snap, snaps st !! idx = Some (Some snap) → captured idx (rev (trace st)))
  ∧ (∀ idx, Com idx OpSnapshot ∈ trace st → ∃ snap, snaps st !! idx = Some (Some snap)).

(** The COM calls in a list of events, with their slides. *)
Definition com_calls (h : list Event) : list (Z * ComOp) :=
  omap (λ ev, match ev with Com i op => Some (i, op) | _ => None end) h.

(** The state when the worker enters the loop over the slides, if it
    does. *)
Definition loading (e : Env) : St := log LLoading (log LOutput (log LDeck (initial e))).

Inductive Reaches (e : Env) (prs : list PptxSlide) (sel : list Z) (st1 : St) : Prop :=
| reaches_loop :
    pptx e = inl prs →
    sel = select_slides (Z.of_nat (length prs)) (slide_range_spec e) →
    sel ≠ [] →
    prepare e sel (log (LLoaded (Z.of_nat (length prs)) sel) (loading e)) = (st1, true) →
    Reaches e prs sel st1.

(** The slides whose generation began, oldest first. *)
Definition gen_of (ev : Event) : option Z :=
  match ev with Log (LGenerating idx) => Some idx | _ => None end.

Definition generated (h : list Event) : list Z := omap gen_of h.

(** The synthesis of slide [idx] ends with status 200. *)
Definition synth_ok (e : Env) (idx : Z) : bool :=
  match loop_exit (synthesize (http e idx)) with
  | Left (Some resp) => status_code resp =? 200
  | _ => false
  end.

(** The entries of the manifest at [p]: none when the file is missing or
    is no JSON array. *)
Definition manifest_of (fs : gmap string FileData) (p : string) : list ManifestEntry :=
  match fs !! p with Some (JsonList l) => l | _ => [] end.

Definition good_entry (e : Env) (r : ManifestEntry) : Prop :=
  m_voice_id r = voice_id e ∧ m_http_status r = 200.

(** The manifest of the run holds the entries [recs], after those that the
    file held before; the checksum is that of its bytes; no other file has
    changed. *)
Definition manifest_inv (e : Env) (st : St) (recs : list ManifestEntry) : Prop :=
  m_slide <$> recs
  = filter (λ idx, synth_ok e idx = true) (generated (history st))
  ∧ files st !! session_manifest_path e
    = match recs with
      | [] => files0 e !! session_manifest_path e
      | _ => Some (JsonList (manifest_of (files0 e) (session_manifest_path e) ++ recs))
      end
  ∧ files st !! (session_manifest_path e +:+ ".sha256")
    = match recs with
      | [] => files0 e !! (session_manifest_path e +:+ ".sha256")
      | _ => Some (Text (sha256_hex e
                           (json_bytes e
                              (manifest_of (files0 e) (session_manifest_path e) ++ recs))))
      end
  ∧ (∀ q, q ≠ session_manifest_path e → q ≠ session_manifest_path e +:+ ".sha256" →
          files st !! q = files0 e !! q)
  ∧ Forall (good_entry e) recs.

End Trace.

(** ** Scenarios: concrete runs *)

Module Scenarios.

Import PyStr RangeSelector NotesResolver Host VoxAnimate VoxAttach.
Import SynthesisClient ManifestRecorder Run Trace.
Local Open Scope string_scope.
Local Open Scope Z_scope.
Local Open Scope list_scope.

Definition no_faults : AttachFaults :=
  {| slides_raises := false; delete_vox_raises := false; timeline_raises := false;
     delete_raises_after := None; add_media_raises := false;
     add_media2_raises := false; configure_raises := false;
     restore_outcome := RestoreTrue; basic_setup_raises := false;
     save_raises := false |}.


Definition eff1 : Effect :=
  {| eff_target := 1; eff_category := Entrance; eff_trigger := OnClick |}.

Definition shape1 : ComShape :=
  {| com_id := 1; alt_text := "Title"; hide_while_not_playing := false |}.

(** A slide with one shape and one entrance effect on it. *)
Definition slideA : Slide := {| sl_shapes := [shape1]; sl_timeline := [eff1] |}.

Definition ok200 : Response :=
  {| status_code := 200; content := "RIFF"; message := "" |}.

Definition bad400 : Response :=
  {| status_code := 400; content := ""; message := "bad" |}.

Definition hello : PptxSlide := {| notes_text := Some "Hello"; shapes := [] |}.

Definition no_notes : PptxSlide := {| notes_text := None; shapes := [] |}.

Definition shape_a : Shape :=
  {| shape_id := 2; is_placeholder := false; placeholder_type := None;
     has_group_items := false; shape_type := Some TEXT_BOX; has_text_frame := true;
     text_frame_text := "A"; top := 1; left := 1 |}.

Definition shape_b : Shape :=
  {| shape_id := 3; is_placeholder := false; placeholder_type := None;
     has_group_items := false; shape_type := Some TEXT_BOX; has_text_frame := true;
     text_frame_text := " B "; top := 5; left := 1 |}.

Definition slide_ab : PptxSlide :=
  {| notes_text := Some "Intro. ### Read Slide"; shapes := [shape_b; shape_a] |}.

(** A run over the deck [prs], open in PowerPoint as [d], with the given
    mode, answers of the service, exit of the transcoder and COM faults;
    the whole range is selected and nobody cancels.  The digests and the
    JSON bytes are stand-ins that keep their input visible. *)
Definition make_env (audio : bool) (prs : list PptxSlide) (d : list Slide)
    (answer : Response) (exit : FfmpegOutcome) (backup : option BackupStage)
    (faults : AttachFaults) : Env :=
  {| api_key := "key"; voice_id := "voice"; input_file := "deck.pptx";
     output_dir := "out"; slide_range_spec := ""; audio_only := audio;
     cancel_at := None; logs_dir := "logs"; path_sep := "/"; deck_base := "deck";
     session_ts := "20260101_120000"; files0 := ∅; input_is_file := true;
     ffmpeg_available := true; makedirs_raises := false;
     pptx := inl prs; com_deck := inl d;
     http := λ _ _, Responded answer; manifest_io := λ _, IoOk;
     ffmpeg := λ _, exit; backup_fault := λ _, backup;
     attach_faults := λ _, faults; final_save_raises := false;
     sha256_hex := λ s, "sha256:" +:+ s; md5_hex := λ s, "md5:" +:+ s;
     json_bytes := λ l, pretty (length l); other_bytes := "{}";
     parse_template := λ _, None |}.

Definition base_env : Env :=
  make_env false [hello] [slideA] ok200 (Exited 0) None no_faults.

Definition two_slides_env : Env :=
  make_env false [hello; no_notes] [slideA; slideA] ok200 (Exited 0) None no_faults.

Definition env_400 : Env :=
  make_env false [hello] [slideA] bad400 (Exited 0) None no_faults.


Definition env_transcode_fails : Env :=
  make_env true [hello] [slideA] ok200 (Exited 1) None no_faults.

Definition env_backup_fails : Env :=
  make_env false [hello] [slideA] ok200 (Exited 0) (Some AtSlides) no_faults.

Definition env_no_notes : Env :=
  make_env true [no_notes] [slideA] ok200 (Exited 0) None no_faults.





(** The audio shape of an earlier run. *)
Definition old_audio : ComShape :=
  {| com_id := 7; alt_text := VOX_MARK; hide_while_not_playing := true |}.

(** A slide with an entrance effect and the play-audio effect of the
    audio shape of an earlier run. *)
Definition slide_orphan : Slide :=
  {| sl_shapes := [shape1; old_audio]; sl_timeline := [eff1; audio_effect 7] |}.

Definition env_orphan : Env :=
  make_env false [hello] [slide_orphan] ok200 (Exited 0) None no_faults.

Definition env_orphan_first : Env :=
  make_env false [hello; no_notes] [slide_orphan; slideA] ok200 (Exited 0) None
    no_faults.

Definition bad500 : Response :=
  {| status_code := 500; content := ""; message := "down" |}.

(** The service answers 500 to the first post of a slide and 400 to the
    second. *)
Definition env_500_400 : Env :=
  let e := env_400 in
  {| api_key := api_key e; voice_id := voice_id e; input_file := input_file e;
     output_dir := output_dir e; slide_range_spec := slide_range_spec e;
     audio_only := audio_only e; cancel_at := cancel_at e; logs_dir := logs_dir e;
     path_sep := path_sep e; deck_base := deck_base e; session_ts := session_ts e;
     files0 := files0 e; input_is_file := input_is_file e;
     ffmpeg_available := ffmpeg_available e;
     makedirs_raises := makedirs_raises e; pptx := pptx e; com_deck := com_deck e;
     http := λ _ k, Responded (if (k =? 1)%nat then bad500 else bad400);
     manifest_io := manifest_io e; ffmpeg := ffmpeg e;
     backup_fault := backup_fault e; attach_faults := attach_faults e;
     final_save_raises := final_save_raises e; sha256_hex := sha256_hex e;
     md5_hex := md5_hex e; json_bytes := json_bytes e; other_bytes := other_bytes e;
     parse_template := parse_template e |}.

End Scenarios.

(** ** Further vocabulary for the runs *)

Module RunFacts.

Import PyStr RangeSelector NotesResolver Host VoxAnimate VoxAttach.
Import SynthesisClient ManifestRecorder Run Trace.
Local Open Scope string_scope.
Local Open Scope Z_scope.
Local Open Scope list_scope.

(** The events that act on the presentation: a COM call or a save. *)
Definition touches_deck (ev : Event) : bool :=
  match ev with Com _ _ | SaveDeck _ => true | _ => false end.

(** A state of a run that has not opened the presentation. *)
Definition idle (st : St) : Prop :=
  deck st = [] ∧ saved st = [] ∧ pres_open st = false ∧ snaps st = ∅
  ∧ Forall (λ ev, touches_deck ev = false) (trace st).

(** [st'] comes from [st] with [n] more slides counted, the slides [g]
    begun, and no reading of the cancel flag. *)
Definition counted (n : Z) (g : list Z) (st st' : St) : Prop :=
  processed st' = processed st + n ∧ polls st' = polls st
  ∧ generated (history st') = generated (history st) ++ g.

(** *** Variations of a scenario *)

(** [e] with another key, another cancellation, other answers of the
    service and another state of the manifest files. *)
Definition adjust (key : string) (cancel : option nat) (h : Z → nat → HttpOutcome)
    (io : Z → ManifestIO) (fs : gmap string FileData) (e : Env) : Env :=
  {| api_key := key; voice_id := voice_id e; input_file := input_file e;
     output_dir := output_dir e; slide_range_spec := slide_range_spec e;
     audio_only := audio_only e; cancel_at := cancel; logs_dir := logs_dir e;
     path_sep := path_sep e; deck_base := deck_base e; session_ts := session_ts e;
     files0 := fs; input_is_file := input_is_file e;
     ffmpeg_available := ffmpeg_available e;
     makedirs_raises := makedirs_raises e; pptx := pptx e; com_deck := com_deck e;
     http := h; manifest_io := io; ffmpeg := ffmpeg e;
     backup_fault := backup_fault e; attach_faults := attach_faults e;
     final_save_raises := final_save_raises e; sha256_hex := sha256_hex e;
     md5_hex := md5_hex e; json_bytes := json_bytes e; other_bytes := other_bytes e;
     parse_template := parse_template e |}.

Definition with_api_key (key : string) (e : Env) : Env :=
  adjust key (cancel_at e) (http e) (manifest_io e) (files0 e) e.

Definition cancel_after (k : nat) (e : Env) : Env :=
  adjust (api_key e) (Some k) (http e) (manifest_io e) (files0 e) e.

Definition with_http (h : Z → nat → HttpOutcome) (e : Env) : Env :=
  adjust (api_key e) (cancel_at e) h (manifest_io e) (files0 e) e.

Definition with_manifest_store (io : Z → ManifestIO) (fs : gmap string FileData)
    (e : Env) : Env :=
  adjust (api_key e) (cancel_at e) (http e) io fs e.

End RunFacts.

(** ** JSON values as [json.load] returns them *)

Module Json.

Import PyStr.
Local Open Scope string_scope.
Local Open Scope Z_scope.
Local Open Scope list_scope.

(** Numbers are the integers. *)
#[local] Unset Elimination Schemes.
Inductive Json :=
| JNull
| JBool (b : bool)
| JNum (z : Z)
| JStr (s : string)
| JArr (l : list Json)
| JObj (m : gmap string Json).
#[local] Set Elimination Schemes.

(** Truth value of a Python object. *)
Definition truthy_json (j : Json) : bool :=
  match j with
  | JNull => false
  | JBool b => b
  | JNum z => negb (z =? 0)
  | JStr s => truthy s
  | JArr l => match l with [] => false | _ => true end
  | JObj m => negb (bool_decide (size m = 0%nat))
  end.

(** [d.get(k)] on a dictionary: [None] is the JSON null. *)
Definition get (k : string) (m : gmap string Json) : Json := default JNull (m !! k).

(** [a or b] *)
Definition or_else (a b : Json) : Json := if truthy_json a then a else b.

End Json.

(** ** Settings, the key vault and the cache of voices, lines 327-500 *)

Module Store.

Import PyStr Json.
Local Open Scope string_scope.
Local Open Scope Z_scope.
Local Open Scope list_scope.

(** A file as the program reads it: JSON, or bytes on which [json.load]
    raises. *)
Inductive Content :=
| Parsed (j : Json)
| Garbage.

(** [open(p, "w")] followed by [json.dump]: done, [open] raises and the
    file is as it was, or [json.dump] raises after [open] has truncated
    the file. *)
Inductive WriteOutcome := WriteOk | OpenFails | DumpFails.

Record Os := {
  (** [os.getenv("ELEVENLABS_API_KEY", "")] *)
  env_api_key : string;
  (** the password that [keyring] holds for the application *)
  vault : option string;
  (** the [keyring] backend raises *)
  vault_fails : bool;
  fs : gmap string Content;
  (** [SETTINGS_FILE], its fallback in the temporary directory, and
      [get_voices_cache_path()] *)
  settings_file : string;
  fallback_file : string;
  voices_cache_path : string;
  (** creating the directory, opening and writing, by path *)
  write_outcome : string → WriteOutcome;
  (** [os.remove] raises, by path *)
  remove_fails : string → bool;
  (** [hashlib.sha256(s.encode('utf-8')).hexdigest()] *)
  sha256_hexdigest : string → string;
  (** [datetime.isoformat] and [datetime.fromisoformat] on naive local
      times, counted in microseconds; [None] is an exception *)
  isoformat : Z → string;
  fromisoformat : string → option Z
}.

Definition with_fs (f : gmap string Content) (os : Os) : Os :=
  {| env_api_key := env_api_key os; vault := vault os; vault_fails := vault_fails os;
     fs := f; settings_file := settings_file os; fallback_file := fallback_file os;
     voices_cache_path := voices_cache_path os; write_outcome := write_outcome os;
     remove_fails := remove_fails os; sha256_hexdigest := sha256_hexdigest os;
     isoformat := isoformat os; fromisoformat := fromisoformat os |}.

Definition with_vault (v : option string) (os : Os) : Os :=
  {| env_api_key := env_api_key os; vault := v; vault_fails := vault_fails os;
     fs := fs os; settings_file := settings_file os; fallback_file := fallback_file os;
     voices_cache_path := voices_cache_path os; write_outcome := write_outcome os;
     remove_fails := remove_fails os; sha256_hexdigest := sha256_hexdigest os;
     isoformat := isoformat os; fromisoformat := fromisoformat os |}.

(** [with open(p, "w") as f: json.dump(j, f, indent=2)]; [false] when it
    raised. *)
Definition write_json (p : string) (j : Json) (os : Os) : Os * bool :=
  match write_outcome os p with
  | WriteOk => (with_fs (<[p := Parsed j]> (fs os)) os, true)
  | OpenFails => (os, false)
  | DumpFails => (with_fs (<[p := Garbage]> (fs os)) os, false)
  end.

(** *** Settings *)

(** [load_settings()]: whatever JSON the file holds, [{}] when the file
    is missing or cannot be parsed. *)
Definition load_settings (os : Os) : Json :=
  match fs os !! settings_file os with
  | Some (Parsed j) => j
  | Some Garbage | None => JObj ∅
  end.

(** [save_settings] with its keyword arguments: [None] is the
    [AttributeError] of
    [data.update] on a value that is no dictionary. *)
Definition save_settings (kwargs : gmap string Json) (os : Os) : option (Os * bool) :=
  match load_settings os with
  | JObj data =>
      let data := JObj (kwargs ∪ data) in
      match write_json (settings_file os) data os with
      | (os, true) => Some (os, true)
      | (os, false) =>
          match write_json (fallback_file os) data os with
          | (os, true) => Some (os, true)
          | (os, false) => Some (os, false)
          end
      end
  | _ => None
  end.

(** *** The API key *)

Definition get_api_key (os : Os) : string :=
  let env := strip (env_api_key os) in
  if truthy env then env
  else if vault_fails os then ""
  else strip (default "" (vault os)).

Definition set_api_key (k : string) (os : Os) : Os :=
  if vault_fails os then os else with_vault (Some (strip k)) os.

(** [keyring.delete_password] raises when there is no password; that is
    ignored like a failure of the backend. *)
Definition delete_api_key (os : Os) : Os :=
  if vault_fails os then os else with_vault None os.

(** *** The cache of voices *)

Definition WEEK : Z := 604800 * 1000000.

(** [cache.get('api_key_hash') != key_hash]: a value that is no string
    differs from the digest. *)
Definition is_str (s : string) (j : Json) : bool :=
  match j with JStr s' => String.eqb s s' | _ => false end.

(** [load_voice_cache()] at the time [now], in microseconds.  On a value
    that is no dictionary either the test of the fields fails or
    [cache.get] raises. *)
Definition load_voice_cache (now : Z) (os : Os) : option (gmap string Json) :=
  let path := voices_cache_path os in
  if negb (truthy path) then None
  else
    match fs os !! path with
    | Some (Parsed (JObj cache)) =>
        if forallb (λ k, bool_decide (is_Some (cache !! k)))
             ["api_key_hash"; "last_updated"; "voices"]
        then
          let current_key := get_api_key os in
          if negb (truthy current_key) then None
          else if negb (is_str (sha256_hexdigest os current_key) (get "api_key_hash" cache))
          then None
          else
            match get "last_updated" cache with
            | JStr text =>
                match fromisoformat os text with
                | Some updated => if WEEK <? now - updated then None else Some cache
                | None => None
                end
            | _ => None
            end
        else None
    | _ => None
    end.

(** [save_voice_cache(voices)] at the time [now]. *)
Definition save_voice_cache (now : Z) (voices : Json) (os : Os) : Os :=
  let current_key := get_api_key os in
  if negb (truthy current_key) then os
  else
    let cache : gmap string Json :=
      {[ "version" := JStr "1.0";
         "api_key_hash" := JStr (sha256_hexdigest os current_key);
         "last_updated" := JStr (isoformat os now);
         "voices" := voices ]} in
    let path := voices_cache_path os in
    if negb (truthy path) then os
    else (write_json path (JObj cache) os).1.

Definition delete_voice_cache (os : Os) : Os :=
  let path := voices_cache_path os in
  if truthy path && bool_decide (is_Some (fs os !! path)) then
    if remove_fails os path then os else with_fs (delete path (fs os)) os
  else os.

(** *** [voices_changed] *)

(** A dictionary with both fields gives one entry of [cached_dict]. *)
Definition entry_of (v : Json) : option (Json * Json) :=
  match v with
  | JObj m =>
      match m !! "voice_id", m !! "name" with
      | Some vid, Some nm => Some (vid, nm)
      | _, _ => None
      end
  | _ => None
  end.

(** What the comprehension iterates over: the elements of a list; the
    keys of a dictionary and the characters of a string are no
    dictionaries and give no entry; a number is not iterable. *)
Definition iterate (cached_voices : Json) : option (list Json) :=
  match cached_voices with
  | JArr l => Some l
  | JObj _ | JStr _ => Some []
  | JNull | JBool _ | JNum _ => None
  end.

(** A key of a Python dictionary, up to [==]: [None], an integer ([True]
    and [False] are the keys [1] and [0]), or a string. *)
Definition Key : Type := option (Z + string).

(** [hash(j)]: a list and a dictionary cannot be hashed, [None] is the
    [TypeError]. *)
Definition hash_key (j : Json) : option Key :=
  match j with
  | JNull => Some None
  | JBool b => Some (Some (inl (if b then 1 else 0)))
  | JNum z => Some (Some (inl z))
  | JStr s => Some (Some (inr s))
  | JArr _ | JObj _ => None
  end.

Definition keyed {A} (kv : Json * A) : option (Key * A) :=
  k ← hash_key kv.1; Some (k, kv.2).

(** A dictionary built by a comprehension over [l]: later entries
    replace earlier ones. *)
Definition dict_of {K A} `{Countable K} (l : list (K * A)) : gmap K A :=
  list_to_map (reverse l).

(** [fresh_voices] is the list of [(name, voice_id)] that [fetch_voices]
    returns: the names are strings, a voice id is any value of the answer
    that is true.  A voice id that cannot be hashed raises in one of the
    two comprehensions, and the handler answers [True]. *)
Definition voices_changed (cached_voices : Json) (fresh_voices : list (string * Json))
    : bool :=
  if negb (truthy_json cached_voices) then true
  else
    match iterate cached_voices with
    | None => true
    | Some l =>
        match mapM keyed (omap entry_of l),
              mapM keyed ((λ x, (x.2, x.1)) <$> fresh_voices) with
        | Some cached, Some fresh =>
            let cached_dict := dict_of cached in
            let fresh_dict := dict_of fresh in
            if negb (bool_decide (dom cached_dict = dom fresh_dict)) then true
            else
              negb (forallb (λ kv, match fresh_dict !! kv.1 with
                                   | Some nm => is_str nm kv.2
                                   | None => false
                                   end)
                      (map_to_list cached_dict))
        | _, _ => true
        end
    end.

(** The list that [on_refresh_voices] and [background_voice_refresh] hand
    to [save_voice_cache]:
    [[{"name": nm, "voice_id": vid} for nm, vid in items]]. *)
Definition voice_cache_data (items : list (string * Json)) : Json :=
  JArr ((λ x, JObj {[ "name" := JStr x.1; "voice_id" := x.2 ]}) <$> items).

End Store.

(** ** [pretty_api_error] and [fetch_voices], lines 585-638 *)

Module Voices.

Import PyStr Json SynthesisClient.
Local Open Scope string_scope.
Local Open Scope Z_scope.
Local Open Scope list_scope.

(** A response as the two functions read it: [resp.json()] ([None] when
    it raises) and [resp.text]. *)
Record Reply := {
  code : Z;
  json : option Json;
  text : string
}.

Section Rendering.

(** [str(x)] of a value that is no string. *)
Variable repr : Json → string.

Definition str_of (j : Json) : string :=
  match j with JStr s => s | _ => repr j end.

(** The search of [pretty_api_error] through the body; [JNull] stands for
    [None]. *)
Definition find_message (data : option Json) : Json :=
  match data with
  | Some (JObj data) =>
      let d := get "detail" data in
      let msg :=
        match d with
        | JObj d => or_else (get "message" d) (get "error" d)
        | JArr (d0 :: _) =>
            match d0 with
            | JObj d0 => get "message" d0
            | _ => JStr (str_of d0)
            end
        | JStr _ => d
        | _ => JNull
        end in
      if negb (truthy_json msg) then or_else (get "message" data) (get "error" data)
      else msg
  | _ => JNull
  end.

Definition pretty_api_error (resp : Reply) : string :=
  let msg := find_message (json resp) in
  if truthy_json msg then "HTTP " +:+ pretty (code resp) +:+ ": " +:+ str_of msg
  else
    let msg := strip (text resp) in
    if truthy msg then "HTTP " +:+ pretty (code resp) +:+ ": " +:+ msg
    else "HTTP " +:+ pretty (code resp).

End Rendering.

(** *** [fetch_voices] *)

(** [str.lower] on ASCII text, and the order of [str]: by code points. *)
Fixpoint lower_str (s : string) : string :=
  match s with
  | String c r => String (NotesResolver.lower c) (lower_str r)
  | EmptyString => EmptyString
  end.

Fixpoint str_leb (s t : string) : bool :=
  match s, t with
  | EmptyString, _ => true
  | String _ _, EmptyString => false
  | String a s', String b t' =>
      (nat_of_ascii a <? nat_of_ascii b)%nat
      || ((nat_of_ascii a =? nat_of_ascii b)%nat && str_leb s' t')
  end.

(** [out.sort(key=lambda x: x[0].lower())]: the sort is stable, an entry
    goes before the entries after it whose key is not smaller. *)
Definition name_key (x : string * Json) : string := lower_str x.1.

Fixpoint insert_voice (x : string * Json) (l : list (string * Json))
    : list (string * Json) :=
  match l with
  | [] => [x]
  | y :: l' =>
      if str_leb (name_key x) (name_key y) then x :: l else y :: insert_voice x l'
  end.

Definition sort_voices (l : list (string * Json)) : list (string * Json) :=
  foldr insert_voice [] l.

(** One turn of [for v in ...]: [None] is the [AttributeError] of [v.get]
    on a value that is no dictionary, or of [.strip()] on a name that is
    no string; [Some None] is a voice without id, left out. *)
Definition voice_of (v : Json) : option (option (string * Json)) :=
  match v with
  | JObj v =>
      match or_else (get "name" v) (JStr "") with
      | JStr name =>
          let nm := strip name in
          let nm := if truthy nm then nm else "(unnamed voice)" in
          let vid := or_else (get "voice_id" v) (JStr "") in
          Some (if truthy_json vid then Some (nm, vid) else None)
      | _ => None
      end
  | _ => None
  end.

(** What [for v in data.get("voices", [])] goes through: [None] when the
    value cannot be iterated; the keys of a dictionary and the characters
    of a string are strings. *)
Definition voices_of (data : gmap string Json) : option (list Json) :=
  match default (JArr []) (data !! "voices") with
  | JArr l => Some l
  | JObj m => Some (JStr <$> (map_to_list m).*1)
  | JStr s => Some ((λ c, JStr (String c EmptyString)) <$> list_ascii_of_string s)
  | JNull | JBool _ | JNum _ => None
  end.

(** The body of a 200 answer: [None] is an exception that is no
    [RequestException]. *)
Definition parse_voices (data : Json) : option (list (string * Json)) :=
  match data with
  | JObj data =>
      l ← voices_of data;
      out ← mapM voice_of l;
      Some (sort_voices (omap id out))
  | _ => None
  end.

Inductive GetOutcome :=
| Got (resp : Reply)
| GetRaises (e : string).      (* a [requests.RequestException] *)

Inductive FetchResult :=
| Fetched (out : list (string * Json))
| ValueError (msg : string)
| RuntimeError (msg : string)
| OtherException                (* [AttributeError] or [TypeError] of the parse *)
| FellThrough.                  (* the [while] test failed: [None] is returned *)

Inductive FetchEvent :=
| Get (attempt : nat)
| Nap (seconds : Q).

Record Service := {
  (** the outcome of the [k]-th [sess.get] *)
  requests : nat → GetOutcome;
  (** [resp.json()] raises [requests.exceptions.JSONDecodeError], a
      [RequestException] since requests 2.27; before that a [ValueError] *)
  decode_error_is_request_exception : bool;
  decode_error : string;
  str : Json → string
}.

(** The handler [except requests.RequestException as e] at attempt
    [attempts]. *)
Definition on_request_exception (e : string) (attempts : nat)
    (again : FetchResult * list FetchEvent) : FetchResult * list FetchEvent :=
  if (attempts <? NET_MAX_ATTEMPTS)%nat then
    (again.1, Nap (backoff attempts) :: again.2)
  else (RuntimeError ("Network error: " +:+ e), []).

Fixpoint fetch_loop (sv : Service) (remaining attempts : nat)
    : FetchResult * list FetchEvent :=
  match remaining with
  | O => (FellThrough, [])
  | S remaining' =>
      let attempts := S attempts in
      let again := fetch_loop sv remaining' attempts in
      let '(r, evs) :=
        match requests sv attempts with
        | Got resp =>
            if code resp =? 200 then
              match json resp with
              | Some data =>
                  match parse_voices data with
                  | Some out => (Fetched out, [])
                  | None => (OtherException, [])
                  end
              | None =>
                  if decode_error_is_request_exception sv then
                    on_request_exception (decode_error sv) attempts again
                  else (OtherException, [])
              end
            else if (500 <=? code resp) && (code resp <? 600)
                    && (attempts <? NET_MAX_ATTEMPTS)%nat then
              (again.1, Nap (backoff attempts) :: again.2)
            else (RuntimeError (pretty_api_error (str sv) resp), [])
        | GetRaises e => on_request_exception e attempts again
        end in
      (r, Get attempts :: evs)
  end.

Definition fetch_voices (sv : Service) (api_key : string)
    : FetchResult * list FetchEvent :=
  if negb (truthy (strip api_key)) then (ValueError "Missing API key", [])
  else fetch_loop sv NET_MAX_ATTEMPTS 0.

(** *** Vocabulary for the properties of [fetch_voices] *)

Definition by_name (a b : string * Json) : Prop :=
  str_leb (name_key a) (name_key b) = true.

(** The outcomes of a [sess.get] after which [fetch_voices] may try
    again. *)
Definition retriable (sv : Service) (o : GetOutcome) : bool :=
  match o with
  | Got resp =>
      if code resp =? 200 then
        bool_decide (json resp = None) && decode_error_is_request_exception sv
      else (500 <=? code resp) && (code resp <? 600)
  | GetRaises _ => true
  end.

Definition gets_then_naps (n : nat) : list FetchEvent :=
  flat_map (λ k, [Get k; Nap (backoff k)]) (seq 1 (n - 1)) ++ [Get n].

End Voices.

(** ** Examples for the store and the voices *)

Module Examples.

Import PyStr Json Store Voices.
Local Open Scope string_scope.
Local Open Scope Z_scope.
Local Open Scope list_scope.

(** A machine with a key in the vault, no file yet, and writes that
    succeed; the digest and the timestamps are stand-ins that keep their
    input visible. *)
Definition os0 : Os :=
  {| env_api_key := ""; vault := Some " key "; vault_fails := false; fs := ∅;
     settings_file := "settings.json"; fallback_file := "tmp/settings.json";
     voices_cache_path := "voices_cache.json";
     write_outcome := λ _, WriteOk; remove_fails := λ _, false;
     sha256_hexdigest := λ s, "sha256:" +:+ s;
     isoformat := pretty; fromisoformat := py_int |}.

(** The same machine with a settings directory that cannot be written. *)
Definition os_readonly : Os :=
  {| env_api_key := ""; vault := Some " key "; vault_fails := false;
     fs := {[ "settings.json" := Parsed (JObj {[ "voice_id" := JStr "v1" ]}) ]};
     settings_file := "settings.json"; fallback_file := "tmp/settings.json";
     voices_cache_path := "voices_cache.json";
     write_outcome := λ p, if String.eqb p "settings.json" then OpenFails else WriteOk;
     remove_fails := λ _, false;
     sha256_hexdigest := λ s, "sha256:" +:+ s;
     isoformat := pretty; fromisoformat := py_int |}.

Definition rachel : Json :=
  JObj {[ "name" := JStr " Rachel "; "voice_id" := JStr "21m00" ]}.

Definition adam : Json :=
  JObj {[ "name" := JStr "adam"; "voice_id" := JStr "pNInz" ]}.

Definition voices_reply : Reply :=
  {| code := 200;
     json := Some (JObj {[ "voices" := JArr [rachel; adam] ]});
     text := "" |}.

Definition quota_reply : Reply :=
  {| code := 401;
     json := Some (JObj {[ "detail" := JObj {[ "message" := JStr "quota exceeded" ]} ]});
     text := "{}" |}.

(** A service that answers every request with the two voices. *)
Definition service0 : Service :=
  {| requests := λ _, Got voices_reply;
     decode_error_is_request_exception := true;
     decode_error := "Expecting value";
     str := λ _, "?" |}.

End Examples.

(** ** Redaction and the log widget, lines 23-31, 132-139 and 526-555 *)

Module Redaction.

Import PyStr NotesResolver.
Local Open Scope string_scope.
Local Open Scope list_scope.

(** *** The regular expressions of the file

    Their pieces are literals, runs of one class of characters, and one
    choice between literals; [re] matches them by backtracking, a run as
    long as it can be first. *)

Definition in_range (lo hi : nat) (c : ascii) : bool :=
  (lo <=? nat_of_ascii c)%nat && (nat_of_ascii c <=? hi)%nat.

Definition is_alpha (c : ascii) : bool := in_range 65 90 c || in_range 97 122 c.
Definition is_digit (c : ascii) : bool := in_range 48 57 c.
Definition is_alnum (c : ascii) : bool := is_alpha c || is_digit c.

(** [[A-Za-z0-9_\-]] *)
Definition token (c : ascii) : bool := is_alnum c || contains c "_-".
(** [[_A-Za-z0-9\.\-]] *)
Definition bearer (c : ascii) : bool := is_alnum c || contains c "_.-".
(** [[^&\s]] *)
Definition value (c : ascii) : bool := negb (Ascii.eqb c "&") && negb (is_space c).
(** [[A-Fa-f0-9]] *)
Definition hex (c : ascii) : bool :=
  is_digit c || in_range 65 70 c || in_range 97 102 c.
(** [[A-Za-z0-9._%+-]] and [[A-Za-z0-9.-]] *)
Definition local_part (c : ascii) : bool := is_alnum c || contains c "._%+-".
Definition domain (c : ascii) : bool := is_alnum c || contains c ".-".
(** [[^\s]] *)
Definition not_space (c : ascii) : bool := negb (is_space c).

Inductive Item :=
| Lit (ignore_case : bool) (s : string)
| Many (cls : ascii → bool) (min : nat)           (* [cls{min,}] *)
| Count (cls : ascii → bool) (n : nat)            (* [cls{n}] *)
| OneOf (ignore_case : bool) (alts : list string). (* [(?:a|b|..)] *)

Fixpoint starts_with (ignore_case : bool) (lit s : string) : bool :=
  match lit, s with
  | EmptyString, _ => true
  | String a lit', String c r =>
      (if ignore_case then Ascii.eqb (lower a) (lower c) else Ascii.eqb a c)
      && starts_with ignore_case lit' r
  | String _ _, EmptyString => false
  end.

(** The number of characters of [cls] at the head of [s]. *)
Fixpoint leading (cls : ascii → bool) (s : string) : nat :=
  match s with
  | String c r => if cls c then S (leading cls r) else O
  | EmptyString => O
  end.

(** [run items k s]: the items matched at the head of [s], with [k] for
    what follows them; the first way that [k] accepts wins. *)
Fixpoint run {A} (items : list Item) (k : string → option A) (s : string) : option A :=
  match items with
  | [] => k s
  | Lit ci l :: rest =>
      if starts_with ci l s then run rest k (str_drop (String.length l) s) else None
  | Many cls min :: rest =>
      (fix try (j : nat) : option A :=
         if (j <? min)%nat then None
         else
           match run rest k (str_drop j s) with
           | Some r => Some r
           | None => match j with O => None | S j' => try j' end
           end) (leading cls s)
  | Count cls n :: rest =>
      if (n <=? leading cls s)%nat then run rest k (str_drop n s) else None
  | OneOf ci alts :: rest =>
      (fix choose (alts : list string) : option A :=
         match alts with
         | [] => None
         | a :: alts' =>
             match (if starts_with ci a s
                    then run rest k (str_drop (String.length a) s) else None) with
             | Some r => Some r
             | None => choose alts'
             end
         end) alts
  end.

(** A pattern is its first group and what follows it; the match at the
    head of [s] is given by the lengths of the first group and of the
    whole match. *)
Definition Pattern : Type := list Item * list Item.

Definition match_at (p : Pattern) (s : string) : option (nat * nat) :=
  run p.1
    (λ s1, run p.2
             (λ s2, Some (String.length s - String.length s1,
                          String.length s - String.length s2)%nat) s1) s.

(** A choice between patterns at the top: the first that matches. *)
Fixpoint match_any (alts : list Pattern) (s : string) : option (nat * nat) :=
  match alts with
  | [] => None
  | p :: alts' =>
      match match_at p s with
      | Some m => Some m
      | None => match_any alts' s
      end
  end.

(** [re.sub(pattern, repl, s)], scanning from the left: [repl] gets the
    match and its first group.  An empty match is replaced too, and the
    scan moves on by one character. *)
Fixpoint sub_go (alts : list Pattern) (repl : string → string → string)
    (skip : nat) (s : string) : string :=
  match s with
  | EmptyString =>
      match skip, match_any alts EmptyString with
      | O, Some _ => repl EmptyString EmptyString
      | _, _ => EmptyString
      end
  | String c r =>
      match skip with
      | S n => sub_go alts repl n r
      | O =>
          match match_any alts s with
          | Some (k, S t) =>
              repl (str_take (S t) s) (str_take k s) +:+ sub_go alts repl t r
          | Some (k, O) =>
              repl EmptyString EmptyString +:+ String c (sub_go alts repl 0 r)
          | None => String c (sub_go alts repl 0 r)
          end
      end
  end.

Definition sub (alts : list Pattern) (repl : string → string → string) (s : string)
    : string :=
  sub_go alts repl 0 s.

(** *** [REDACTION_PATTERNS] and [_redact] *)

(** The replacements [r"\1[REDACTED]"] and ["[REDACTED]"]: the first
    group, empty in the patterns without group, and the mark. *)
Definition redacted (whole group1 : string) : string := group1 +:+ "[REDACTED]".

(** The first pattern, of the header of the key, and the fifth, of a long
    token. *)
Definition key_header : Pattern :=
  ([Lit true "xi-api-key:"; Many is_space 0], [Many token 10]).

Definition long_token : Pattern := ([], [Many token 32]).

Definition REDACTION_PATTERNS : list Pattern :=
  [ key_header;
    ([Lit true "Authorization:"; Many is_space 0; Lit true "Bearer"; Many is_space 1],
     [Many bearer 10]);
    ([Count (λ c, contains c "?&") 1;
      OneOf true ["xi-api-key"; "api_key"; "apikey"; "token"]; Lit true "="],
     [Many value 6]);
    ([], [Count hex 8; Lit false "-"; Count hex 4; Lit false "-"; Count hex 4;
          Lit false "-"; Count hex 4; Lit false "-"; Count hex 12]);
    long_token;
    ([], [Many local_part 1; Lit false "@"; Many domain 1; Lit false ".";
          Many is_alpha 2]) ].

Definition _redact (s : string) : string :=
  foldl (λ out p, sub [p] redacted out) s REDACTION_PATTERNS.

(** *** [log_line] *)

Definition allowed_prefixes : list string :=
  ["X"; "*"; ">"; "OK"; "i"; "API error"; "Network error"].

(** [r'([A-Za-z]:\\[^\s]+|/[^\s]+)'] *)
Definition PATH_PATTERN : list Pattern :=
  [ ([], [Count is_alpha 1; Lit false ":\"; Many not_space 1]);
    ([], [Lit false "/"; Many not_space 1]) ].

(** The widget is the list of its lines; [verbose] is what
    [w._verbose_var] gives, [basename] is [os.path.basename]. *)
Definition log_line (verbose : bool) (basename : string → string) (msg : string)
    (w : list string) : list string :=
  if verbose then w ++ [_redact msg +:+ String "010" EmptyString]
  else if negb (existsb (λ p, starts_with false p msg) allowed_prefixes) then w
  else
    let msg := sub PATH_PATTERN (λ whole _, basename whole) msg in
    w ++ [_redact msg +:+ String "010" EmptyString].

(** *** Vocabulary for the properties of the redaction *)

(** [s] holds [n] characters of [cls] in a row. *)
Fixpoint has_run (cls : ascii → bool) (n : nat) (s : string) : bool :=
  (n <=? leading cls s)%nat
  || match s with String _ r => has_run cls n r | EmptyString => false end.

(** A line without thirty-two token characters in a row. *)
Definition no_long_token (l : string) : Prop := has_run token 32 l = false.

End Redaction.

(** ** What the worker gives to [log_line], lines 928-1293 *)

Module Display.

Import Run Redaction.
Local Open Scope string_scope.
Local Open Scope list_scope.

(** The text of each line of the worker up to the first value that is put
    into it; the line is this text and what follows. *)
Definition opening (m : LogMsg) : string :=
  match m with
  | LMissingKey => "X Missing API Key."
  | LMissingVoice => "X Missing Voice selection."
  | LDeckNotFound => "X PowerPoint not found: "
  | LFfmpegMissing => "X ffmpeg not found."
  | LDeck => "i Deck: "
  | LOutput => "i Output: "
  | LLoading => "i Loading slides..."
  | LOpenFailed => "X Failed to open PowerPoint: "
  | LLoaded _ _ => "OK Loaded "
  | LAudioOnlyMode => "i Audio-only mode: skipping PowerPoint operations"
  | LOpeningCom => "i Opening PowerPoint for animation preservation..."
  | LComReady => "OK PowerPoint ready for animation preservation"
  | LComFailed => "X Failed to open PowerPoint via COM: "
  | LBackingUp => "i Backing up animations for selected slides..."
  | LBackedUp _ _ | LNoAnimations _ | LBackupFailed _ => "  Slide "
  | LBackupComplete => "OK Animation backup complete" +:+ String "010" EmptyString
  | LCancelled => "i Run cancelled by user."
  | LMarkerDetected => "   Detected '### Read Slide' marker - extracting slide text..."
  | LExtracted _ => "   Extracted "
  | LNoTextFound => "   Warning: No text found on slide to extract"
  | LExtractError => "   Error extracting slide text: "
  | LSkipNoNotes _ => "- Skipping slide "
  | LGenerating _ => "> Generating slide "
  | LTextHash _ => "   text#="
  | LNetworkError _ => " X Network error on slide "
  | LWavHash _ => "   wav#="
  | LConverted _ => " i Converted -> "
  | LAudioOnlySaved _ => "i Audio-only mode: saved to "
  | LSkipAttach _ => "i Skipping attachment to slide "
  | LSkipReason _ => "i "
  | LAttachManually _ => "i Audio saved to "
  | LInserting _ => "> Inserting audio into slide "
  | LClearing => "  Clearing animation timeline before audio insertion..."
  | LRestoring => "  Restoring animations..."
  | LRestored _ => "  OK Restored "
  | LAudioInserted => "  OK Audio inserted (no animations to restore)"
  | LRestoreIssues => "  ! Animation restoration had issues"
  | LSnapshotUnavailable => "  ! Snapshot unavailable, basic audio setup used"
  | LSlideComplete _ => "OK Slide "
  | LInsertionError _ => "X Slide "
  | LApiError _ _ => " X API error slide "
  | LDoneAudio => "* Done. Audio files saved to output folder."
  | LDone => "* Done. Check your output folder."
  | LSessionLog => "OK Session log saved"
  | LFatal => "X Fatal error: "
  | LDeckSaved => "i Deck saved and left open for review"
  | LSaveWarning => "! Warning: Failed to save: "
  end.

(** The widget after the messages [msgs], given one after the other. *)
Definition shown (verbose : bool) (basename : string → string) (msgs : list string)
    : list string :=
  foldl (λ w msg, log_line verbose basename msg w) [] msgs.

End Display.

(** ** Logging out, lines 1467-1490 *)

Module Account.

Import PyStr Json Store.
Local Open Scope string_scope.

(** [if os.path.exists(p): os.remove(p)], exceptions ignored. *)
Definition remove_if_exists (p : string) (os : Os) : Os :=
  if bool_decide (is_Some (fs os !! p)) then
    if remove_fails os p then os else with_fs (delete p (fs os)) os
  else os.

(** What [do_logout] does to the key, the cache and the settings: the key
    and the cache of voices are deleted, then the settings file and its
    fallback. *)
Definition do_logout (os : Os) : Os :=
  let os := delete_api_key os in
  let os := delete_voice_cache os in
  let os := remove_if_exists (settings_file os) os in
  remove_if_exists (fallback_file os) os.

End Account.

(** ** [PreviewPlayer], lines 667-765 *)

Module Preview.

Import PyStr Json Voices Redaction.
Local Open Scope string_scope.
Local Open Scope list_scope.

Inductive Button := Normal | Disabled.

(** The player and what it acts on: its two buttons ([stop_btn] may be
    [None]), [self._temp_path], the files of the temporary directory, and
    what the worker has given to [log_line], to [messagebox.showerror], to
    [sess.post] (address and text) and to [_play_wav_sync]. *)
Record Player := {
  preview_btn : Button;
  stop_btn : option Button;
  _temp_path : option string;
  files : gset string;
  log : list string;
  boxes : list (string * string);
  posts : list (string * string);
  played : list string
}.

Inductive PostOutcome :=
| PostRaises (e : string)
| Answered (resp : Reply) (content_type : option string).

(** What surrounds one preview; a text in an option is [str(e)] of the
    exception that the call raises. *)
Record Host := {
  get_preview_text : string;
  post : PostOutcome;
  (** the name that [NamedTemporaryFile(delete=False, suffix=ext)] gives *)
  src_name : string → string;
  src_fails : option string;
  (** [src.write(resp.content)] raises *)
  write_fails : option string;
  dst_name : string;
  dst_fails : option string;
  (** [subprocess.run] raises: there is no [ffmpeg] *)
  ffmpeg_fails : option string;
  (** [os.remove] raises, by path *)
  remove_fails : string → bool;
  repr : Json → string
}.

Definition set_preview_btn (b : Button) (st : Player) : Player :=
  {| preview_btn := b; stop_btn := stop_btn st; _temp_path := _temp_path st;
     files := files st; log := log st; boxes := boxes st; posts := posts st;
     played := played st |}.

(** [if self.stop_btn: self.stop_btn.configure(state=..)] *)
Definition set_stop_btn (b : Button) (st : Player) : Player :=
  {| preview_btn := preview_btn st; stop_btn := (λ _, b) <$> stop_btn st;
     _temp_path := _temp_path st; files := files st; log := log st; boxes := boxes st;
     posts := posts st; played := played st |}.

Definition set_temp_path (p : option string) (st : Player) : Player :=
  {| preview_btn := preview_btn st; stop_btn := stop_btn st; _temp_path := p;
     files := files st; log := log st; boxes := boxes st; posts := posts st;
     played := played st |}.

Definition set_files (f : gset string) (st : Player) : Player :=
  {| preview_btn := preview_btn st; stop_btn := stop_btn st; _temp_path := _temp_path st;
     files := f; log := log st; boxes := boxes st; posts := posts st;
     played := played st |}.

Definition say (msg : string) (st : Player) : Player :=
  {| preview_btn := preview_btn st; stop_btn := stop_btn st; _temp_path := _temp_path st;
     files := files st; log := log st ++ [msg]; boxes := boxes st; posts := posts st;
     played := played st |}.

Definition showerror (title body : string) (st : Player) : Player :=
  {| preview_btn := preview_btn st; stop_btn := stop_btn st; _temp_path := _temp_path st;
     files := files st; log := log st; boxes := boxes st ++ [(title, body)];
     posts := posts st; played := played st |}.

Definition posted (url text : string) (st : Player) : Player :=
  {| preview_btn := preview_btn st; stop_btn := stop_btn st; _temp_path := _temp_path st;
     files := files st; log := log st; boxes := boxes st;
     posts := posts st ++ [(url, text)]; played := played st |}.

(** [_play_wav_sync] catches what its players raise. *)
Definition _play_wav_sync (p : string) (st : Player) : Player :=
  {| preview_btn := preview_btn st; stop_btn := stop_btn st; _temp_path := _temp_path st;
     files := files st; log := log st; boxes := boxes st; posts := posts st;
     played := played st ++ [p] |}.

(** [try: os.remove(p) / except Exception: pass] *)
Definition remove (h : Host) (p : string) (st : Player) : Player :=
  if remove_fails h p then st else set_files (files st ∖ {[ p ]}) st.

(** [sub in s] *)
Fixpoint contains_str (sub s : string) : bool :=
  starts_with false sub s
  || match s with String _ r => contains_str sub r | EmptyString => false end.

(** [_cleanup_temp], the lock being free. *)
Definition _cleanup_temp (h : Host) (st : Player) : Player :=
  let st :=
    match _temp_path st with
    | Some p => if truthy p && bool_decide (p ∈ files st) then remove h p st else st
    | None => st
    end in
  set_temp_path None st.

(** The [try] block of the worker: the player it leaves, and the text of
    the exception that ended it, if one did. *)
Definition attempt (h : Host) (api_key voice_id : string) (st : Player)
    : Player * option string :=
  let t := strip (get_preview_text h) in
  let t := if truthy t then t else "This is a quick voice preview." in
  if negb (truthy (strip api_key)) then
    (showerror "Preview" "Enter API Key." (say "X Missing API Key for preview." st), None)
  else if negb (truthy (strip voice_id)) then
    (showerror "Preview" "Choose a voice."
       (say "X Missing Voice selection for preview." st), None)
  else
    let url := "https://api.elevenlabs.io/v1/text-to-speech/" +:+ voice_id in
    let st := say "i Requesting preview..." st in
    let st := posted url t st in
    match post h with
    | PostRaises e => (st, Some e)
    | Answered resp content_type =>
        if negb (code resp =? 200)%Z then
          let msg := pretty_api_error (repr h) resp in
          (showerror "Preview Error" msg (say ("X Preview failed: " +:+ msg) st), None)
        else
          let ct := lower_str (default "" content_type) in
          let ext := if contains_str "mpeg" ct || contains_str "mp3" ct
                     then ".mp3" else ".wav" in
          match src_fails h with
          | Some e => (st, Some e)
          | None =>
              let src_path := src_name h ext in
              let st := set_files ({[ src_path ]} ∪ files st) st in
              match write_fails h with
              | Some e => (st, Some e)
              | None =>
                  match dst_fails h with
                  | Some e => (st, Some e)
                  | None =>
                      let dst_path := dst_name h in
                      let st := set_files ({[ dst_path ]} ∪ files st) st in
                      match ffmpeg_fails h with
                      | Some e => (st, Some e)
                      | None =>
                          let st := remove h src_path st in
                          let st := set_temp_path (Some dst_path) st in
                          let st := say "> Playing preview..." st in
                          let st := _play_wav_sync dst_path st in
                          (say "OK Preview finished." st, None)
                      end
                  end
              end
          end
    end.

Definition worker (h : Host) (api_key voice_id : string) (st : Player) : Player :=
  let st := set_preview_btn Disabled st in
  let st := set_stop_btn Normal st in
  let (st, raised) := attempt h api_key voice_id st in
  let st := match raised with
            | Some e => say ("X Preview error: " +:+ e) st
            | None => st
            end in
  let st := _cleanup_temp h st in
  let st := set_preview_btn Normal st in
  set_stop_btn Disabled st.

(** The suffix that the source file of a preview gets. *)
Definition suffix_of (content_type : option string) : string :=
  let ct := lower_str (default "" content_type) in
  if contains_str "mpeg" ct || contains_str "mp3" ct then ".mp3" else ".wav".

End Preview.

(** ** [on_refresh_voices], lines 1771-1802 *)

Module Refresh.

Import PyStr Json Store Voices.
Local Open Scope string_scope.
Local Open Scope list_scope.

Inductive Dialog := Warning | Error.

(** What the callback acts on beside the files: the dictionary
    [voices_map] in the order of its keys, the values and the text of
    [voices_combo], [voice_id_var], and the dialogs shown. *)
Record Ui := {
  voices_map : list (string * Json);
  values : list string;
  combo : string;
  voice_id_var : Json;
  dialogs : list (Dialog * string * string)
}.

Definition show (kind : Dialog) (title body : string) (ui : Ui) : Ui :=
  {| voices_map := voices_map ui; values := values ui; combo := combo ui;
     voice_id_var := voice_id_var ui;
     dialogs := dialogs ui ++ [(kind, title, body)] |}.

Definition with_voices (d : list (string * Json)) (names : list string) (ui : Ui) : Ui :=
  {| voices_map := d; values := names; combo := combo ui;
     voice_id_var := voice_id_var ui; dialogs := dialogs ui |}.

(** [voices_combo.set(nm); voice_id_var.set(vid)] *)
Definition choose (nm : string) (vid : Json) (ui : Ui) : Ui :=
  {| voices_map := voices_map ui; values := values ui; combo := nm;
     voice_id_var := vid; dialogs := dialogs ui |}.

(** [d[k] = v]: a key that is there keeps its place. *)
Fixpoint assign (k : string) (v : Json) (d : list (string * Json))
    : list (string * Json) :=
  match d with
  | [] => [(k, v)]
  | kv :: d' => if String.eqb k kv.1 then (k, v) :: d' else kv :: assign k v d'
  end.

(** [d[k]], [None] when the key is missing. *)
Definition item (k : string) (d : list (string * Json)) : option Json :=
  snd <$> find (λ kv, String.eqb k kv.1) d.

Definition cache_entry (x : string * Json) : Json :=
  JObj {[ "name" := JStr x.1; "voice_id" := x.2 ]}.

Section Selection.

(** [a == b] on the values of a voice id. *)
Variable py_eq : Json → Json → bool.
(** [str(e)] of an exception of the parse. *)
Variable other_error : string.

(** The search for the saved voice: by name, else by id.  [None] is an
    exception: the [AttributeError] of [saved.get] on a value that is no
    dictionary, the [TypeError] of [in] on a name that cannot be hashed. *)
Definition saved_voice (d : list (string * Json)) (saved : Json)
    : option (option string) :=
  match saved with
  | JObj saved =>
      let sv_vid := default (JStr "") (saved !! "voice_id") in
      let sv_nm := default (JStr "") (saved !! "voice_name") in
      let by_id :=
        if truthy_json sv_vid then fst <$> find (λ kv, py_eq kv.2 sv_vid) d
        else None in
      if truthy_json sv_nm then
        match sv_nm with
        | JStr s => Some (if bool_decide (is_Some (item s d)) then Some s else by_id)
        | JArr _ | JObj _ => None
        | JNull | JBool _ | JNum _ => Some by_id
        end
      else Some by_id
  | _ => None
  end.

(** [if sel: .. elif names: ..]; [None] is a [KeyError]. *)
Definition select (sel : option string) (names : list string) (ui : Ui) : option Ui :=
  match sel with
  | Some s =>
      if truthy s then vid ← item s (voices_map ui); Some (choose s vid ui)
      else
        match names with
        | n :: _ => vid ← item n (voices_map ui); Some (choose n vid ui)
        | [] => Some ui
        end
  | None =>
      match names with
      | n :: _ => vid ← item n (voices_map ui); Some (choose n vid ui)
      | [] => Some ui
      end
  end.

(** The callback at the time [now]: the files and the interface that it
    leaves, and whether it ended by an exception. *)
Definition on_refresh_voices (now : Z) (sv : Service) (os : Os) (ui : Ui)
    : Os * Ui * bool :=
  let k := strip (get_api_key os) in
  if negb (truthy k) then
    (os, show Warning "API Key" "Enter your ElevenLabs API Key first." ui, false)
  else
    match (fetch_voices sv k).1 with
    | ValueError msg | RuntimeError msg => (os, show Error "Voices" msg ui, false)
    | OtherException => (os, show Error "Voices" other_error ui, false)
    | FellThrough => (os, with_voices [] (values ui) ui, true)
    | Fetched items =>
        let d := foldl (λ d x, assign x.1 x.2 d) [] items in
        let names := items.*1 in
        let os := save_voice_cache now (JArr (cache_entry <$> items)) os in
        let ui := with_voices d names ui in
        match saved_voice d (load_settings os) with
        | None => (os, ui, true)
        | Some sel =>
            match select sel names ui with
            | Some ui => (os, ui, false)
            | None => (os, ui, true)
            end
        end
    end.

End Selection.

(** The last voice of the name [nm] in [items]. *)
Definition last_of (nm : string) (items : list (string * Json)) : option Json :=
  snd <$> find (λ x, String.eqb nm x.1) (reverse items).

End Refresh.

(** ** More examples *)

Module Samples.

Import PyStr Json Store Voices Examples Preview Refresh.
Local Open Scope string_scope.
Local Open Scope Z_scope.
Local Open Scope list_scope.

(** A player at rest, with a stop button. *)
Definition player0 : Player :=
  {| preview_btn := Normal; stop_btn := Some Disabled; _temp_path := None;
     files := ∅; log := []; boxes := []; posts := []; played := [] |}.

Definition audio_reply : Reply := {| code := 200; json := None; text := "" |}.

(** A machine without [ffmpeg]: the request is answered, the conversion
    cannot start. *)
Definition host_no_ffmpeg : Host :=
  {| get_preview_text := "  ";
     post := Answered audio_reply (Some "audio/MPEG");
     src_name := λ ext, "tmp/a" +:+ ext;
     src_fails := None; write_fails := None;
     dst_name := "tmp/b.wav"; dst_fails := None;
     ffmpeg_fails := Some "[WinError 2] The system cannot find the file specified";
     Preview.remove_fails := λ _, false;
     repr := λ _, "?" |}.

(** An interface that shows no voice yet. *)
Definition ui0 : Ui :=
  {| voices_map := []; values := []; combo := ""; voice_id_var := JStr "";
     dialogs := [] |}.

(** [==] on ids that are strings. *)
Definition str_eq (a b : Json) : bool :=
  match a, b with
  | JStr x, JStr y => String.eqb x y
  | _, _ => false
  end.

End Samples.

(** * Properties *)

Import PyStr RangeSelector NotesResolver Host VoxAnimate VoxAttach.
Import SynthesisClient ManifestRecorder Run Trace Scenarios.
Local Open Scope string_scope.
Local Open Scope Z_scope.
Local Open Scope list_scope.

(** ** RangeSelector *)

Lemma elem_of_range_set st en n : n ∈ range_set st en ↔ st ≤ n ≤ en.
Proof.
  unfold range_set. rewrite elem_of_list_to_set, elem_of_seqZ. lia.
Qed.

Lemma elem_of_add_token total s part n :
  n ∈ add_token total s part ↔ n ∈ s ∨ covers total part n.
Proof.
  unfold add_token, covers.
  destruct (contains "-" part).
  - destruct (split_once "-" part) as [a b]; simpl.
    case_match.
    + rewrite elem_of_union, elem_of_range_set. tauto.
    + apply Z.leb_gt in H. split; [tauto|]. intros [?|[? ?]]; [done|lia].
  - destruct (py_int part) as [m|].
    + case_match.
      * apply andb_true_iff in H as [?%Z.leb_le ?%Z.leb_le].
        rewrite elem_of_union, elem_of_singleton.
        split; [intros [?| ->]; eauto|intros [?|[[= ->] _]]; eauto].
      * split; [tauto|]. intros [?|[[= ->] ?]]; [done|].
        apply andb_false_iff in H as [?%Z.leb_gt|?%Z.leb_gt]; lia.
    + split; [tauto|]. intros [?|[? _]]; done.
Qed.

Lemma elem_of_foldl_add_token total parts s n :
  n ∈ foldl (add_token total) s parts
  ↔ n ∈ s ∨ ∃ part, part ∈ parts ∧ covers total part n.
Proof.
  revert s. induction parts as [|p parts IH]; intros s; simpl.
  - split; [tauto|]. intros [?|(? & ?%elem_of_nil & _)]; done.
  - rewrite IH, elem_of_add_token. split.
    + intros [[?|?]|(q & ? & ?)]; eauto.
      * right. exists p. split; [left|done].
      * right. exists q. split; [by right|done].
    + intros [?|(q & [-> |?]%elem_of_cons & ?)]; eauto.
Qed.

Lemma elem_of_sorted (s : gset Z) n : n ∈ sorted s ↔ n ∈ s.
Proof. unfold sorted. rewrite merge_sort_Permutation. apply elem_of_elements. Qed.

Lemma NoDup_sorted (s : gset Z) : NoDup (sorted s).
Proof. unfold sorted. rewrite merge_sort_Permutation. apply NoDup_elements. Qed.

Lemma NoDup_select_slides total spec : NoDup (select_slides total spec).
Proof.
  unfold select_slides. case_match; [apply NoDup_seqZ|apply NoDup_sorted].
Qed.

(** ** NotesResolver *)

Lemma key_le_total a b : key_le a b = false → key_le b a = true.
Proof.
  destruct a as [[ta la] xa], b as [[tb lb] xb]. unfold key_le.
  intros H. apply orb_false_iff in H as [H1 H2]. apply Z.ltb_ge in H1.
  apply andb_false_iff in H2.
  destruct (Z.eq_dec ta tb) as [->|Hne].
  - destruct H2 as [H2|H2]; [apply Z.eqb_neq in H2; done|].
    apply Z.leb_gt in H2. rewrite Z.eqb_refl. cbn.
    apply orb_true_iff. right. apply Z.leb_le. lia.
  - apply orb_true_iff. left. apply Z.ltb_lt. lia.
Qed.

Lemma insert_item_perm x l : insert_item x l ≡ₚ x :: l.
Proof.
  induction l as [|y l IH]; cbn; [done|].
  destruct (key_le x y); [done|]. rewrite IH. apply perm_swap.
Qed.

Lemma sort_items_perm l : sort_items l ≡ₚ l.
Proof.
  unfold sort_items. induction l as [|x l IH]; cbn; [done|].
  by rewrite insert_item_perm, IH.
Qed.

Lemma insert_item_sorted x l :
  Sorted (λ a b, key_le a b = true) l →
  Sorted (λ a b, key_le a b = true) (insert_item x l).
Proof.
  induction 1 as [|y l Hs IH Hhd]; cbn; [by repeat constructor|].
  destruct (key_le x y) eqn:E.
  - constructor; [by constructor|by constructor].
  - constructor; [done|].
    destruct l as [|z l]; cbn in *.
    + constructor. by apply key_le_total.
    + destruct (key_le x z); constructor; [by apply key_le_total|].
      by inversion Hhd.
Qed.

Lemma sort_items_sorted l : Sorted (λ a b, key_le a b = true) (sort_items l).
Proof.
  unfold sort_items. induction l as [|x l IH]; cbn; [constructor|].
  by apply insert_item_sorted.
Qed.

Lemma collect_items_spec title shs items :
  collect_items title shs = Some items →
  items = item_of <$> filter (λ sh, extractable title sh = true) shs.
Proof.
  revert items. induction shs as [|sh shs IH]; intros items; cbn [collect_items].
  { by intros [= <-]. }
  destruct (bool_decide (Some (shape_id sh) = title)) eqn:E1.
  { rewrite filter_cons_False by (unfold extractable; rewrite E1; done). apply IH. }
  destruct (has_group_items sh) eqn:E2.
  { rewrite filter_cons_False by (unfold extractable; rewrite E1, E2; done). apply IH. }
  destruct (shape_type sh) as [ty|] eqn:Ety; [|done].
  destruct (is_table (Some ty)) eqn:E3.
  { rewrite filter_cons_False by (unfold extractable; rewrite E1, E2, Ety, E3; done).
    apply IH. }
  destruct (has_text_frame sh) eqn:E4; cbn [andb].
  - destruct (truthy (strip (text_frame_text sh))) eqn:E5.
    + rewrite filter_cons_True by (unfold extractable; rewrite E1, E2, Ety, E3, E4, E5; done).
      destruct (collect_items title shs) as [its|]; [|done].
      intros [= <-]. rewrite fmap_cons. f_equal. by apply IH.
    + rewrite filter_cons_False
        by (unfold extractable; rewrite E1, E2, Ety, E3, E4, E5; done).
      apply IH.
  - rewrite filter_cons_False by (unfold extractable; rewrite E1, E2, Ety, E3, E4; done).
    apply IH.
Qed.

(** *** The pattern and the substitution *)

Lemma app_cons c (s t : string) : String c s +:+ t = String c (s +:+ t).
Proof. done. Qed.

Lemma app_empty (t : string) : "" +:+ t = t.
Proof. done. Qed.

Lemma starts_with_ci_app lit s t :
  starts_with_ci lit s = true → starts_with_ci lit (s +:+ t) = true.
Proof.
  revert s. induction lit as [|a lit IH]; intros [|c s]; rewrite ?app_cons;
    cbn [starts_with_ci]; try done.
  intros [-> ?]%andb_true_iff. cbn. by apply IH.
Qed.

Lemma starts_with_ci_length lit s :
  starts_with_ci lit s = true → (String.length lit ≤ String.length s)%nat.
Proof.
  revert s. induction lit as [|a lit IH]; intros [|c s]; cbn; try done; [lia|].
  intros [_ ?%IH]%andb_true_iff. lia.
Qed.

Lemma str_drop_app k s t :
  (k ≤ String.length s)%nat → str_drop k (s +:+ t) = str_drop k s +:+ t.
Proof.
  revert s. induction k as [|k IH]; intros [|c s]; rewrite ?app_cons;
    cbn [str_drop String.length]; try done; try lia.
  intros ?. apply IH. lia.
Qed.

Lemma count_spaces_le s : (count_spaces s ≤ String.length s)%nat.
Proof. induction s as [|c s IH]; cbn; [done|]. destruct (is_space c); lia. Qed.

Lemma count_spaces_app s t :
  str_drop (count_spaces s) s ≠ "" → count_spaces (s +:+ t) = count_spaces s.
Proof.
  induction s as [|c s IH]; rewrite ?app_cons; cbn [count_spaces str_drop]; [done|].
  destruct (is_space c); [|done]. cbn [str_drop]. intros H. f_equal. by apply IH.
Qed.

Lemma starts_with_ci_nonempty lit s :
  lit ≠ "" → starts_with_ci lit s = true → s ≠ "".
Proof. by destruct lit, s. Qed.

Lemma match_len_app s t n : match_len s = Some n → match_len (s +:+ t) = Some n.
Proof.
  unfold match_len.
  destruct (starts_with_ci "###" s) eqn:E1; [|done].
  rewrite (starts_with_ci_app _ _ t E1).
  pose proof (starts_with_ci_length _ _ E1) as L1.
  rewrite (str_drop_app 3 s t) by exact L1.
  set (s1 := str_drop 3 s) in *.
  destruct (starts_with_ci "read" (str_drop (count_spaces s1) s1)) eqn:E2; [|done].
  rewrite (count_spaces_app s1 t) by (by eapply starts_with_ci_nonempty; [|exact E2]).
  rewrite (str_drop_app _ s1 t) by apply count_spaces_le.
  set (s2 := str_drop (count_spaces s1) s1) in *.
  rewrite (starts_with_ci_app _ _ t E2).
  pose proof (starts_with_ci_length _ _ E2) as L2.
  rewrite (str_drop_app 4 s2 t) by exact L2.
  set (s3 := str_drop 4 s2) in *.
  destruct (starts_with_ci "slide" (str_drop (count_spaces s3) s3)) eqn:E3; [|done].
  rewrite (count_spaces_app s3 t) by (by eapply starts_with_ci_nonempty; [|exact E3]).
  rewrite (str_drop_app _ s3 t) by apply count_spaces_le.
  by rewrite (starts_with_ci_app _ _ t E3).
Qed.

Lemma str_take_app m t : str_take (String.length m) (m +:+ t) = m.
Proof.
  induction m as [|c m IH]; rewrite ?app_cons, ?app_empty; cbn [String.length str_take];
    [by destruct t|]. by rewrite IH.
Qed.

Lemma re_sub_go_skip repl r post :
  re_sub_go (String.length r) repl (r +:+ post) = re_sub_go 0 repl post.
Proof.
  induction r as [|c r IH]; rewrite ?app_cons, ?app_empty; cbn [String.length re_sub_go];
    [done|exact IH].
Qed.

Lemma re_sub_no_match repl s : re_search s = false → re_sub_go 0 repl s = s.
Proof.
  induction s as [|c s IH]; [done|]. cbn [re_search re_sub_go].
  destruct (match_len (String c s)); [done|]. intros H. by rewrite IH.
Qed.

(** One occurrence of the marker, with nothing that matches before or
    after it, is replaced where it stands. *)
Lemma re_sub_one_marker repl pre m post :
  is_marker m →
  no_match_before (String.length pre) (pre +:+ m +:+ post) →
  re_search post = false →
  re_sub repl (pre +:+ m +:+ post) = pre +:+ repl m +:+ post.
Proof.
  intros Hm Hpre Hpost. unfold re_sub.
  induction pre as [|c pre IH]; rewrite ?app_cons, ?app_empty.
  - clear Hpre. destruct m as [|c r]; [done|].
    rewrite app_cons. cbn [re_sub_go]. rewrite <- app_cons.
    rewrite (match_len_app _ post _ Hm), str_take_app.
    cbn [String.length].
    replace (S (String.length r) - 1)%nat with (String.length r) by lia.
    rewrite re_sub_go_skip.
    by rewrite re_sub_no_match.
  - cbn [re_sub_go].
    pose proof (Hpre 0%nat ltac:(cbn; lia)) as H0.
    rewrite app_cons in H0. cbn [str_drop] in H0.
    rewrite H0. f_equal. apply IH. intros k Hk.
    specialize (Hpre (S k) ltac:(cbn; lia)). by rewrite app_cons in Hpre.
Qed.

(** ** SynthesisClient *)

Lemma post_loop_ok (http : nat → HttpOutcome) :
let r := synthesize http in
(1 ≤ attempts r ≤ NET_MAX_ATTEMPTS)%nat
∧ net_events r = attempts_then_backoffs (attempts r)
∧ (∀ k, (1 ≤ k < attempts r)%nat → retryable (http k) = true).
Proof.
unfold synthesize, NET_MAX_ATTEMPTS. cbn [post_loop].
unfold NET_MAX_ATTEMPTS. cbn [Nat.ltb Nat.leb]. rewrite ?andb_true_r, ?andb_false_r.
repeat match goal with
       | |- context [match http ?k with _ => _ end] => destruct (http k) as [?r|] eqn:?
       | |- context [if ?b then _ else _] => destruct b eqn:?
       end;
  try match goal with H : _ && false = true |- _ => rewrite andb_false_r in H; discriminate end;
  cbn; (split; [lia|]); (split; [reflexivity|]);
  intros k Hk'; try lia;
  assert (k = 1 ∨ k = 2)%nat as [-> | ->] by lia;
  repeat match goal with H : http _ = _ |- _ => rewrite H end; cbn;
  rewrite ?andb_true_r in *; try done; lia.
Qed.

Lemma backoff_first : (backoff 1 == 0.75)%Q.
Proof. reflexivity. Qed.

Lemma backoff_doubles (k : nat) : (1 ≤ k)%nat → (backoff (S k) == 2 * backoff k)%Q.
Proof.
intros Hk. unfold backoff.
replace (Z.of_nat (S k) - 1) with (Z.succ (Z.of_nat k - 1)) by lia.
rewrite Z.pow_succ_r by lia. rewrite inject_Z_mult. ring.
Qed.

(** ** Steps of the worker and what they leave in the trace *)

Lemma grows_app p old new :
  grows p old new ↔ ∃ l, new = l ++ old ∧ Forall (λ ev, p ev = true) l.
Proof.
  split.
  - induction 1 as [|ev new Hev _ (l & -> & Hl)].
    + by exists [].
    + exists (ev :: l). split; [done|by constructor].
  - intros (l & -> & Hl). induction Hl; simpl; by constructor.
Qed.

Lemma grows_trans p t1 t2 t3 : grows p t1 t2 → grows p t2 t3 → grows p t1 t3.
Proof. intros H12 H23. induction H23; [done|by constructor]. Qed.

Lemma grows_omap {A} (f : Event → option A) (p : Event → bool) old new :
  (∀ ev, p ev = true → f ev = None) →
  grows p old new → omap f (rev new) = omap f (rev old).
Proof.
  intros Hp. induction 1 as [|ev new Hev _ IH]; [done|].
  cbn. rewrite omap_app, IH. cbn. rewrite (Hp ev Hev). cbn. apply app_nil_r.
Qed.

Lemma grows_weaken (p q : Event → bool) t1 t2 :
  (∀ ev, p ev = true → q ev = true) → grows p t1 t2 → grows q t1 t2.
Proof. intros Hpq. induction 1; constructor; auto. Qed.

Lemma emits_trace evs st : trace (emits evs st) = rev evs ++ trace st.
Proof.
  unfold emits. revert st. induction evs as [|ev evs IH]; intros st; simpl; [done|].
  rewrite IH. simpl. by rewrite <- app_assoc.
Qed.

Lemma emits_fields evs st :
  deck (emits evs st) = deck st ∧ saved (emits evs st) = saved st
  ∧ pres_open (emits evs st) = pres_open st ∧ files (emits evs st) = files st
  ∧ snaps (emits evs st) = snaps st ∧ processed (emits evs st) = processed st
  ∧ polls (emits evs st) = polls st.
Proof.
  unfold emits. revert st. induction evs as [|ev evs IH]; intros st; simpl; [done|].
  destruct (IH (emit ev st)) as (-> & -> & -> & -> & -> & -> & ->). done.
Qed.

Lemma saves_follow_attach_grows (p : Event → bool) old new :
  (∀ ev, p ev = true → match ev with SaveDeck (Some _) => False | _ => True end) →
  grows p old new →
  saves_follow_attach old = true → saves_follow_attach new = true.
Proof.
  intros Hp. induction 1 as [|ev new Hev _ IH]; [done|]. intros Hold.
  specialize (Hp ev Hev). destruct ev as [| | | | |[i|]]; simpl; auto.
Qed.

Ltac state_simpl :=
  cbn [deck saved pres_open files snaps processed polls trace
       emit log msgbox with_deck with_saved with_snaps with_files with_pres
       count_processed fst snd].

Ltac grows_tac :=
  repeat first
    [ apply grows_refl
    | apply grows_cons;
      [ cbn; rewrite ?bool_decide_eq_true_2 by done; reflexivity | ] ].

(** What the attach sequence may do to the state. *)
Lemma attach_audio_frame e idx st :
  let st' := attach_audio e idx st in
  grows (attach_event idx) (trace st) (trace st')
  ∧ (saves_follow_attach (trace st) = true → saves_follow_attach (trace st') = true)
  ∧ snaps st' = snaps st ∧ files st' = files st
  ∧ processed st' = processed st ∧ polls st' = polls st
  ∧ pres_open st' = pres_open st.
Proof.
  cbv zeta. unfold attach_audio, attach_sequence.
  unfold mbind, attach_bind, may_raise, mret, attach_ret, raise, on_slide, the_slide,
    say, get_snapshot, save_deck; unfold act.
  destruct (attach_faults e idx) as [f1 f2 f3 f4 f5 f6 f7 f8 f9 f10].
  cbn [slides_raises delete_vox_raises timeline_raises delete_raises_after
       add_media_raises add_media2_raises configure_raises restore_outcome
       basic_setup_raises save_raises].
  repeat (state_simpl; case_match; simplify_eq);
    state_simpl;
    (split; [grows_tac|]);
    (split; [cbn; rewrite ?bool_decide_eq_true_2 by done; cbn; try done|done]).
Qed.

Lemma follows_refl idx st : follows idx st st.
Proof. repeat split; [constructor|done]. Qed.

Lemma follows_trans idx st1 st2 st3 :
  follows idx st1 st2 → follows idx st2 st3 → follows idx st1 st3.
Proof.
  intros (G1 & S1 & A1 & B1 & C1) (G2 & S2 & A2 & B2 & C2).
  repeat split; [by eapply grows_trans|auto|congruence..].
Qed.

Lemma follows_log idx m st st1 : follows idx st st1 → follows idx st (log m st1).
Proof.
  intros H. eapply follows_trans; [exact H|].
  repeat split; [by repeat constructor|done].
Qed.

Lemma follows_count idx st st1 : follows idx st st1 → follows idx st (count_processed st1).
Proof. intros H. eapply follows_trans; [exact H|]. repeat split; [constructor|done]. Qed.

Lemma follows_files idx f st st1 : follows idx st st1 → follows idx st (with_files f st1).
Proof. intros H. eapply follows_trans; [exact H|]. repeat split; [constructor|done]. Qed.

Lemma follows_transcode idx out st st1 :
  follows idx st st1 → follows idx st (emit (Transcode idx out) st1).
Proof.
  intros H. eapply follows_trans; [exact H|].
  repeat split; [|done]. constructor; [|constructor].
  cbn. by rewrite bool_decide_eq_true_2.
Qed.

Lemma follows_resolution idx r st st1 :
  follows idx st st1 → follows idx st (log_resolution r st1).
Proof. intros H. destruct r; simpl; auto using follows_log. Qed.

Lemma follows_net idx evs st st1 :
  follows idx st st1 → follows idx st (emits (Net idx <$> evs) st1).
Proof.
  intros H. eapply follows_trans; [exact H|].
  destruct (emits_fields (Net idx <$> evs) st1) as (_ & _ & Hp & _ & Hs & _ & Hq).
  assert (G : grows (λ ev, match ev with Net i _ => bool_decide (i = idx) | _ => false end)
                (trace st1) (trace (emits (Net idx <$> evs) st1))).
  { rewrite emits_trace. apply grows_app. eexists. split; [done|].
    apply Forall_rev, Forall_fmap, Forall_forall. intros ev _. cbn.
    by rewrite bool_decide_eq_true_2. }
  repeat split; [| |done..].
  - eapply grows_weaken; [|exact G]. by intros [].
  - eapply saves_follow_attach_grows; [|exact G]. by intros [| | | | |[|]].
Qed.

Lemma follows_attach e idx st st1 :
  follows idx st st1 → follows idx st (attach_audio e idx st1).
Proof.
  intros H. eapply follows_trans; [exact H|].
  destruct (attach_audio_frame e idx st1) as (G & S & A & _ & _ & B & C).
  repeat split; [|done..]. eapply grows_weaken; [|exact G].
  by intros [[]| | | | |[|]].
Qed.

Ltac follows_step :=
  lazymatch goal with
  | |- follows _ _ (count_processed _) => apply follows_count
  | |- follows _ _ (log _ _) => apply follows_log
  | |- follows _ _ (with_files _ _) => apply follows_files
  | |- follows _ _ (emit (Transcode _ _) _) => apply follows_transcode
  | |- follows _ _ (log_resolution _ _) => apply follows_resolution
  | |- follows _ _ (emits _ _) => apply follows_net
  | |- follows _ _ (attach_audio _ _ _) => apply follows_attach
  | |- follows _ ?st ?st => apply follows_refl
  end.

Lemma process_slide_follows e prs idx st :
  follows idx st (process_slide e prs idx st).1.
Proof.
  unfold process_slide.
  repeat case_match; cbn [fst]; repeat follows_step.
Qed.

(** *** The loops *)

Lemma is_set_true e st : (is_set e st).1 = true → is_cancelled e (is_set e st).2.
Proof.
  unfold is_set, is_cancelled. cbn. destruct (cancel_at e) as [k|]; [|done].
  intros ?%Nat.leb_le. exists k. split; [done|lia].
Qed.

Lemma is_cancelled_is_set e st : is_cancelled e st → (is_set e st).1 = true.
Proof. intros (k & Hk & Hle). unfold is_set. cbn. rewrite Hk. by apply Nat.leb_le. Qed.

Lemma is_set_fields e st :
  trace (is_set e st).2 = trace st ∧ snaps (is_set e st).2 = snaps st
  ∧ deck (is_set e st).2 = deck st ∧ files (is_set e st).2 = files st
  ∧ pres_open (is_set e st).2 = pres_open st ∧ saved (is_set e st).2 = saved st
  ∧ processed (is_set e st).2 = processed st
  ∧ polls (is_set e st).2 = S (polls st).
Proof. done. Qed.

(** The loop leaves events of the slides of the selection only; once the
    run is cancelled it leaves log lines only. *)
Lemma slide_loop_run e prs sel st :
  let st' := (slide_loop e prs sel st).1 in
  grows (λ ev, existsb (λ i, slide_event i ev) sel) (trace st) (trace st')
  ∧ (saves_follow_attach (trace st) = true → saves_follow_attach (trace st') = true)
  ∧ snaps st' = snaps st ∧ pres_open st' = pres_open st
  ∧ (is_cancelled e st → grows is_logb (trace st) (trace st')).
Proof.
  revert st. induction sel as [|idx rest IH]; intros st; cbn [slide_loop].
  { cbn. repeat split; [constructor|done|constructor]. }
  destruct (is_set e st) as [c st1] eqn:Eset.
  pose proof (is_set_fields e st) as (Ht & Hs & _ & _ & Hp & _ & _ & Hq).
  rewrite Eset in Ht, Hs, Hp, Hq. cbn [snd] in *.
  destruct c.
  { cbn. rewrite Ht, Hs, Hp. repeat split; [by repeat constructor|done|].
    intros _. by repeat constructor. }
  assert (Hnc : is_cancelled e st → False).
  { intros Hc%is_cancelled_is_set. by rewrite Eset in Hc. }
  pose proof (process_slide_follows e prs idx st1) as (G & S & A & B & C).
  rewrite Ht in G, S. rewrite Hs in A. rewrite Hp in C.
  assert (G0 : grows (λ ev, existsb (λ i, slide_event i ev) (idx :: rest))
                 (trace st) (trace (process_slide e prs idx st1).1)).
  { eapply grows_weaken; [|exact G]. intros ev Hev. cbn. by rewrite Hev. }
  destruct (process_slide e prs idx st1) as [st2 [|]]; cbn [fst] in *.
  - repeat split; [done..|]. intros Hc. destruct (Hnc Hc).
  - destruct (IH st2) as (G' & S' & A' & C' & _).
    repeat split; [|auto|congruence..|].
    + eapply grows_trans; [exact G0|].
      eapply grows_weaken; [|exact G']. intros ev Hev. cbn. rewrite Hev.
      apply orb_true_r.
    + intros Hc. destruct (Hnc Hc).
Qed.

Lemma slide_event_loop_event idx ev : slide_event idx ev = true → loop_event ev = true.
Proof.
  unfold loop_event. destruct ev as [| | | |i op|[i|]]; cbn; try done.
  intros [_ Hop]%andb_true_iff. by destruct op.
Qed.

Lemma slide_event_covered m idx ev :
  is_Some (m !! idx) → slide_event idx ev = true → covered m ev = true.
Proof.
  intros Hm. destruct ev as [| | | |i op|[i|]]; cbn; try done.
  intros [->%bool_decide_eq_true _]%andb_true_iff. by apply bool_decide_eq_true_2.
Qed.

Lemma existsb_slide_event (p : Event → bool) sel ev :
  (∀ idx, idx ∈ sel → slide_event idx ev = true → p ev = true) →
  existsb (λ i, slide_event i ev) sel = true → p ev = true.
Proof.
  intros Hp (i & Hi & Hev)%existsb_exists. apply (Hp i); [|done].
  by apply list_elem_of_In.
Qed.

Lemma backup_slide_run e idx st :
  let st' := backup_slide e idx st in
  grows setup_event (trace st) (trace st')
  ∧ pres_open st' = pres_open st ∧ files st' = files st
  ∧ processed st' = processed st ∧ polls st' = polls st ∧ saved st' = saved st
  ∧ is_Some (snaps st' !! idx)
  ∧ (∀ j, j ≠ idx → snaps st' !! j = snaps st !! j).
Proof.
  cbv zeta. unfold backup_slide, backup_failed.
  repeat case_match; cbn;
    (split; [by repeat constructor|]); repeat split;
    try (rewrite lookup_insert_eq; by eexists);
    intros j Hj; by rewrite lookup_insert_ne.
Qed.

Lemma backup_loop_run e sel st :
  let st' := backup_loop e sel st in
  grows setup_event (trace st) (trace st')
  ∧ pres_open st' = pres_open st ∧ files st' = files st
  ∧ processed st' = processed st ∧ saved st' = saved st
  ∧ (is_cancelled e st' ∨ ∀ idx, idx ∈ sel → is_Some (snaps st' !! idx))
  ∧ (∀ j, is_Some (snaps st !! j) → is_Some (snaps st' !! j)).
Proof.
  revert st. induction sel as [|idx rest IH]; intros st; cbn [backup_loop].
  { cbn. repeat split; [constructor|..|done].
    right. by intros ? ?%elem_of_nil. }
  destruct (is_set e st) as [c st1] eqn:Eset.
  pose proof (is_set_fields e st) as (Ht & Hs & _ & Hf & Hp & Hsv & Hn & Hq).
  rewrite Eset in Ht, Hs, Hp, Hq, Hf, Hsv, Hn. cbn [snd] in *.
  destruct c.
  { cbn. rewrite Ht, Hs, Hp, Hf, Hsv, Hn. repeat split; [constructor|..|done].
    left. pose proof (is_set_true e st) as Hc. rewrite Eset in Hc. by apply Hc. }
  destruct (backup_slide_run e idx st1) as (G & A & B & C & D & E & F & H).
  destruct (IH (backup_slide e idx st1)) as (G' & A' & B' & C' & E' & F' & H').
  cbn zeta. rewrite <- Ht, <- Hp, <- Hf, <- Hn, <- Hsv.
  repeat split; try congruence.
  - by eapply grows_trans.
  - destruct F' as [?|F']; [by left|right].
    intros j [->|Hj]%elem_of_cons; [by apply H'|by apply F'].
  - intros j Hj. apply H'. destruct (decide (j = idx)) as [->|Hne]; [done|].
    rewrite H by done. by rewrite Hs.
Qed.

Lemma Slides_on_deck_eq d idx f :
  Slides (on_deck idx f d) idx = f <$> Slides d idx.
Proof. unfold Slides, on_deck. case_match; [|done]. apply list_lookup_alter_eq. Qed.

Lemma Slides_on_deck_ne d idx j f :
  1 ≤ idx → j ≠ idx → Slides (on_deck idx f d) j = Slides d j.
Proof.
  intros ??. unfold Slides, on_deck. case_match; [|done].
  apply list_lookup_alter_ne. apply Z.leb_le in H1. lia.
Qed.

Lemma Slides_Some_pos d idx sl : Slides d idx = Some sl → 1 ≤ idx.
Proof. unfold Slides. case_match; [|done]. intros _. by apply Z.leb_le. Qed.

Lemma backup_slide_deck e idx st j :
  j ≠ idx → Slides (deck (backup_slide e idx st)) j = Slides (deck st) j.
Proof.
  intros Hj. unfold backup_slide, backup_failed.
  repeat case_match; cbn; try done;
    apply Slides_on_deck_ne; eauto using Slides_Some_pos.
Qed.

Lemma backup_slide_backed_up e d0 idx st :
  Slides (deck st) idx = Slides d0 idx →
  backed_up d0 (snaps st) → backed_up d0 (snaps (backup_slide e idx st)).
Proof.
  intros Hd Hb j snap. unfold backup_slide, backup_failed.
  repeat case_match; cbn; simplify_eq;
    (destruct (decide (j = idx)) as [->|Hne];
     [rewrite lookup_insert_eq|rewrite lookup_insert_ne by done; apply Hb]);
    intros; simplify_eq; eauto.
Qed.

Lemma backup_loop_backed_up e d0 sel st :
  NoDup sel →
  (∀ idx, idx ∈ sel → Slides (deck st) idx = Slides d0 idx) →
  backed_up d0 (snaps st) → backed_up d0 (snaps (backup_loop e sel st)).
Proof.
  revert st. induction sel as [|idx rest IH]; intros st Hnd Hd Hb; cbn [backup_loop]; [done|].
  destruct (is_set e st) as [c st1] eqn:Eset.
  pose proof (is_set_fields e st) as (_ & Hs & Hdk & _).
  rewrite Eset in Hs, Hdk. cbn [snd] in *.
  destruct c; [by rewrite Hs|].
  apply NoDup_cons in Hnd as [Hni Hnd].
  apply IH; [done| |].
  - intros j Hj. rewrite backup_slide_deck by (intros ->; done).
    rewrite Hdk. apply Hd. by right.
  - apply backup_slide_backed_up; rewrite ?Hs, ?Hdk; [|done]. apply Hd. by left.
Qed.

Lemma log_resolution_trace r st :
∃ logs, trace (log_resolution r st) = logs ++ trace st
        ∧ Forall is_resolution_log logs
        ∧ processed (log_resolution r st) = processed st
        ∧ deck (log_resolution r st) = deck st
        ∧ saved (log_resolution r st) = saved st
        ∧ files (log_resolution r st) = files st
        ∧ snaps (log_resolution r st) = snaps st
        ∧ polls (log_resolution r st) = polls st
        ∧ pres_open (log_resolution r st) = pres_open st.
Proof.
destruct r; simpl.
- exists []. by repeat split.
- eexists [_; _]. repeat split. by repeat constructor.
- eexists [_; _]. repeat split. by repeat constructor.
- eexists [_; _]. repeat split. by repeat constructor.
Qed.

(** ** The attach sequence *)

Lemma on_deck_on_deck d idx f g :
on_deck idx f (on_deck idx g d) = on_deck idx (f ∘ g) d.
Proof. unfold on_deck. apply list_alter_alter_eq. Qed.



Ltac attach_simpl :=
cbn [deck saved pres_open files snaps processed polls trace
     emit log with_deck with_saved with_snaps with_files fst snd
     fmap option_fmap option_map];
rewrite ?on_deck_on_deck, ?Slides_on_deck_eq.



Lemma attach_restores e idx st sl snap :
mjoin (snaps st !! idx) = Some snap →
Slides (deck st) idx = Some sl →
restore_returns (attach_faults e idx) →
∃ st' sl',
  attach_audio e idx st = st'
  ∧ Slides (deck st') idx = Some sl'
  ∧ sl_timeline sl'
    = effects snap ++ [audio_effect (fresh_id (_delete_existing_vox_audio sl))]
  ∧ saved st' = deck st'
  ∧ ∃ older, trace st' = Log (LSlideComplete idx) :: SaveDeck (Some idx) :: older.
Proof.
intros Hsnap Hsl (H1 & H2 & H5 & H7 & H8).
unfold attach_audio, attach_sequence.
unfold mbind, attach_bind, may_raise, mret, attach_ret, raise, on_slide, the_slide,
  say, get_snapshot, save_deck; unfold act.
rewrite H1, H2, H5, H7, H8.
repeat (progress (attach_simpl; rewrite ?Hsnap, ?Hsl)).
destruct (timeline_raises (attach_faults e idx)), (configure_raises (attach_faults e idx)),
  (effects snap) eqn:Eeff;
  repeat (progress (attach_simpl; rewrite ?Hsnap, ?Hsl, ?Eeff));
  (eexists _, _; split; [reflexivity|]; attach_simpl; rewrite Hsl;
   split; [reflexivity|]; split; [cbn; by rewrite ?Eeff|]; split; [done|]; by eexists).
Qed.




(** ** The worker as a whole *)

(** The worker either returns before the loop, with nothing but log lines
    and one dialog, or goes through the loop to the [finally] clause. *)
Lemma worker_cases e :
  (∃ st, (worker_body e (initial e) = (st, Returned)
          ∨ (worker_body e (initial e) = (st, Escaped) ∧ st = initial e
             ∧ makedirs_raises e = true))
         ∧ grows early_event [] (trace st)
         ∧ files st = files0 e ∧ snaps st = ∅ ∧ processed st = 0
         ∧ (pres_open st = true → False))
  ∨ (∃ prs sel st1, Reaches e prs sel st1
       ∧ worker_body e (initial e)
         = match slide_loop e prs sel st1 with
           | (st2, true) => (st2, Escaped)
           | (st2, false) => (report e st2, Finished)
           end).
Proof.
  unfold worker_body.
  repeat (case_match;
          try (left; eexists; split; [left; reflexivity|];
               cbn; repeat split; [by repeat constructor|done]);
          try (left; eexists; split; [right; repeat split; done|];
               cbn; repeat split; [by repeat constructor|done])).
  - right. eexists _, (_ :: _), _. split; [by constructor|].
    by match goal with H : slide_loop _ _ _ _ = _ |- _ => rewrite H end.
  - right. eexists _, (_ :: _), _. split; [by constructor|].
    by match goal with H : slide_loop _ _ _ _ = _ |- _ => rewrite H end.
  - left. eexists. split; [left; reflexivity|].
    match goal with H : prepare _ _ _ = _ |- _ => unfold prepare in H;
      destruct (audio_only e); [simplify_eq|];
      destruct (com_deck e); simplify_eq end. cbn.
    repeat split; [by repeat constructor|done].
Qed.

Lemma reaches_state e prs sel st1 :
  Reaches e prs sel st1 →
  grows setup_event [] (trace st1)
  ∧ files st1 = files0 e ∧ processed st1 = 0
  ∧ ((audio_only e = true ∧ snaps st1 = ∅ ∧ pres_open st1 = false)
     ∨ (audio_only e = false ∧ pres_open st1 = true
        ∧ (∃ d0, com_deck e = inl d0 ∧ backed_up d0 (snaps st1))
        ∧ (is_cancelled e st1 ∨ ∀ idx, idx ∈ sel → is_Some (snaps st1 !! idx)))).
Proof.
  intros [Hp Hsel Hne Hprep]. unfold prepare in Hprep.
  destruct (audio_only e).
  { simplify_eq. cbn. repeat split; [by repeat constructor|]. by left. }
  destruct (com_deck e) as [d0|err]; [|done]. simplify_eq.
  set (st0 := log LBackingUp _) in *.
  destruct (backup_loop_run e
              (select_slides (Z.of_nat (length prs)) (slide_range_spec e)) st0)
    as (G & A & B & C & D & E & F).
  cbn [trace log emit files processed pres_open snaps].
  rewrite A, B, C. cbn.
  split; [|split; [done|split; [done|right]]].
  - constructor; [done|]. eapply grows_trans; [|exact G]. by repeat constructor.
  - repeat split; [|done]. exists d0. split; [done|].
    apply backup_loop_backed_up; [apply NoDup_select_slides|done|].
    intros idx snap. cbn. by rewrite lookup_empty.
Qed.

Lemma report_run e st :
  grows closing_event (trace st) (trace (report e st))
  ∧ snaps (report e st) = snaps st ∧ files (report e st) = files st
  ∧ deck (report e st) = deck st ∧ saved (report e st) = saved st
  ∧ processed (report e st) = processed st
  ∧ pres_open (report e st) = pres_open st.
Proof.
  unfold report. destruct (is_set e st) as [c st1] eqn:E.
  pose proof (is_set_fields e st) as H. rewrite E in H. cbn [snd] in H.
  destruct H as (Ht & Hs & Hd & Hf & Hp & Hsv & Hn & _).
  destruct c, (audio_only e); cbn; rewrite Ht, Hs, Hf, Hd, Hsv, Hn, Hp;
    repeat split; by repeat constructor.
Qed.

Lemma finally_run e st :
  grows closing_event (trace st) (trace (finally e st))
  ∧ snaps (finally e st) = snaps st ∧ files (finally e st) = files st
  ∧ deck (finally e st) = deck st
  ∧ processed (finally e st) = processed st.
Proof.
  unfold finally. repeat case_match; cbn; repeat split; by repeat constructor.
Qed.


(** The two ways through the worker, with the state [st1] before the
    loop and the state [st2] after it. *)
Lemma worker_structure e :
  (∃ st, worker e = finally e st
         ∧ ((worker_body e (initial e)).2 = Returned
            ∨ ((worker_body e (initial e)).2 = Escaped
               ∧ st = log LFatal (initial e) ∧ makedirs_raises e = true))
         ∧ grows early_event [] (trace st)
         ∧ files st = files0 e ∧ snaps st = ∅ ∧ processed st = 0
         ∧ (pres_open st = true → False))
  ∨ (∃ prs sel st1 st2,
       Reaches e prs sel st1
       ∧ st2 = (slide_loop e prs sel st1).1
       ∧ (((worker_body e (initial e)).2 = Escaped
           ∧ worker e = finally e (log LFatal st2))
          ∨ ((worker_body e (initial e)).2 = Finished
             ∧ worker e = finally e (report e st2)))
       ∧ grows closing_event (trace st2) (trace (worker e))
       ∧ snaps (worker e) = snaps st2 ∧ files (worker e) = files st2
       ∧ deck (worker e) = deck st2
       ∧ processed (worker e) = processed st2).
Proof.
  unfold worker.
  destruct (worker_cases e)
    as [(st & [->|(-> & -> & Hm)] & G & A & B & C & D)|(prs & sel & st1 & HR & ->)].
  { left. exists st. cbn [snd]. split; [done|]. split; [by left|done]. }
  { left. exists (log LFatal (initial e)). cbn [snd]. split; [done|].
    split; [by right|]. cbn. repeat split; [by repeat constructor|done]. }
  right. exists prs, sel, st1, (slide_loop e prs sel st1).1.
  split; [done|]. split; [done|].
  destruct (slide_loop e prs sel st1) as [st2 [|]]; cbn [fst snd].
  - destruct (finally_run e (log LFatal st2)) as (G & A & B & C & D).
    split; [by left|]. rewrite A, B, C, D. repeat split.
    eapply grows_trans; [|exact G]. by repeat constructor.
  - destruct (finally_run e (report e st2)) as (G & A & B & C & D).
    destruct (report_run e st2) as (G' & A' & B' & C' & _ & D' & _).
    split; [by right|]. rewrite A, B, C, D, A', B', C', D'. repeat split.
    by eapply grows_trans.
Qed.

Lemma finally_no_box e st : dialogs (finally e st) = dialogs st.
Proof.
unfold finally, dialogs, history.
repeat case_match; cbn; rewrite ?omap_app; cbn; by rewrite ?app_nil_r.
Qed.

Lemma dialogs_report e st :
dialogs st = [] →
(cancel_at e ≠ None ∧ dialogs (report e st) = [dlg_cancelled])
∨ (audio_only e = true ∧ dialogs (report e st) = [dlg_complete_audio])
∨ (audio_only e = false ∧ dialogs (report e st) = [dlg_complete]).
Proof.
unfold dialogs, history, report, is_set. intros Hd.
destruct (cancel_at e) as [k|] eqn:Ec; [destruct (k <=? polls st)%nat|];
  destruct (audio_only e); cbn; rewrite ?omap_app, Hd; cbn; auto.
Qed.

(** ** The manifest *)

Section Manifest.

Variable e : Env.
Hypothesis Hp0 : files0 e !! session_manifest_path e ≠ Some JsonOther.
Hypothesis Hio : ∀ idx, manifest_io e idx = IoOk.

Lemma append_ne_self (s t : string) : t ≠ "" → s +:+ t ≠ s.
Proof.
  intros Ht. induction s as [|c s IH].
  - done.
  - intros [= H]. by apply IH.
Qed.

Lemma manifest_inv_same st st' recs :
  manifest_inv e st recs → files st' = files st →
  generated (history st') = generated (history st) →
  manifest_inv e st' recs.
Proof. unfold manifest_inv. intros ? -> ->. done. Qed.

Lemma manifest_inv_failed st st' recs idx :
  manifest_inv e st recs → files st' = files st →
  generated (history st') = generated (history st) ++ [idx] →
  synth_ok e idx = false →
  manifest_inv e st' recs.
Proof.
  unfold manifest_inv. intros (H1 & H2) -> -> Hok. split; [|done].
  rewrite filter_app, filter_cons_False, filter_nil, app_nil_r by (by rewrite Hok).
  done.
Qed.

Lemma manifest_inv_recorded st st' recs idx entry :
  manifest_inv e st recs →
  files st' = record_entry (sha256_hex e) (json_bytes e) (other_bytes e) IoOk
                (files st) (session_manifest_path e) entry →
  generated (history st') = generated (history st) ++ [idx] →
  synth_ok e idx = true → m_slide entry = idx → good_entry e entry →
  manifest_inv e st' (recs ++ [entry]).
Proof.
  unfold manifest_inv. intros (H1 & H2 & H3 & H4 & H5) -> -> Hok Hidx Hgood.
  set (p := session_manifest_path e) in *.
  set (prior := manifest_of (files0 e) p) in *.
  assert (Hrd : match files st !! p with
                | Some (JsonList l) => Some l
                | Some JsonOther => None
                | Some (Text _) | None => Some []
                end = Some (prior ++ recs)).
  { rewrite H2. destruct recs; [|done]. unfold prior, manifest_of. rewrite app_nil_r.
    destruct (files0 e !! p) as [[]|]; done. }
  assert (Hne : p +:+ ".sha256" ≠ p) by (by apply append_ne_self).
  unfold record_entry. rewrite Hrd. unfold _sha256_file. rewrite lookup_insert_eq.
  cbn [file_bytes].
  split; [|split; [|split; [|split]]].
  - rewrite fmap_app, filter_app, H1. f_equal.
    rewrite filter_cons_True by done. rewrite filter_nil. cbn. by rewrite Hidx.
  - rewrite lookup_insert_ne by done. rewrite lookup_insert_eq, <- app_assoc.
    by destruct (recs ++ [entry]) eqn:E; [destruct recs|].
  - rewrite lookup_insert_eq, <- app_assoc.
    by destruct (recs ++ [entry]) eqn:E; [destruct recs|].
  - intros q Hq Hq'. rewrite !lookup_insert_ne by done. by apply H4.
  - apply Forall_app. split; [done|by constructor].
Qed.

Lemma generated_log m st :
  generated (history (log m st))
  = generated (history st) ++ match m with LGenerating i => [i] | _ => [] end.
Proof. unfold generated, history. cbn. rewrite omap_app. cbn. by destruct m. Qed.

Lemma generated_grows (q : Event → bool) st st' :
  (∀ ev, q ev = true → gen_of ev = None) →
  grows q (trace st) (trace st') →
  generated (history st') = generated (history st).
Proof. intros Hq G. unfold generated, history. by eapply grows_omap. Qed.

Lemma generated_setup (q : Event → bool) tr :
  (∀ ev, q ev = true → gen_of ev = None) →
  grows q [] tr → generated (rev tr) = [].
Proof. intros Hq G. unfold generated. by rewrite (grows_omap _ _ _ _ Hq G). Qed.

Lemma generated_resolution r st :
  generated (history (log_resolution r st)) = generated (history st).
Proof.
  destruct r; cbn [log_resolution]; rewrite ?generated_log; by rewrite ?app_nil_r.
Qed.

Lemma generated_net idx evs st :
  generated (history (emits (Net idx <$> evs) st)) = generated (history st).
Proof.
  unfold generated, history. rewrite emits_trace, rev_app_distr, rev_involutive, omap_app.
  rewrite <- app_nil_r. f_equal. induction evs; cbn; auto.
Qed.

Lemma generated_attach idx st :
  generated (history (attach_audio e idx st)) = generated (history st).
Proof.
  destruct (attach_audio_frame e idx st) as (G & _).
  eapply generated_grows; [|exact G]. by intros [[]| | | | |[|]].
Qed.

Lemma generated_emit ev st :
  generated (history (emit ev st)) = generated (history st) ++ option_list (gen_of ev).
Proof. unfold generated, history. cbn. rewrite omap_app. cbn. by destruct (gen_of ev). Qed.

Lemma generated_count st :
  generated (history (count_processed st)) = generated (history st).
Proof. done. Qed.

Lemma generated_files f st :
  generated (history (with_files f st)) = generated (history st).
Proof. done. Qed.

Lemma files_resolution r st : files (log_resolution r st) = files st.
Proof. by destruct r. Qed.

Lemma files_net evs st : files (emits evs st) = files st.
Proof. by destruct (emits_fields evs st) as (_ & _ & _ & -> & _). Qed.

Lemma files_attach idx st : files (attach_audio e idx st) = files st.
Proof. by destruct (attach_audio_frame e idx st) as (_ & _ & _ & -> & _). Qed.

Ltac manifest_files :=
  repeat first
    [ progress cbn [files log emit count_processed with_files]
    | rewrite files_attach | rewrite files_net | rewrite files_resolution ];
  reflexivity.

Ltac manifest_gen :=
  repeat first
    [ rewrite generated_count | rewrite generated_attach | rewrite generated_log
    | rewrite generated_emit | rewrite generated_files | rewrite generated_net
    | rewrite generated_resolution ];
  cbn [option_list gen_of]; rewrite ?app_nil_r; reflexivity.

Ltac synth_verdict :=
  unfold synth_ok;
  repeat match goal with H : _ = _ |- _ => rewrite H end; reflexivity.

Lemma process_slide_manifest prs idx st recs :
  manifest_inv e st recs → ∃ recs', manifest_inv e (process_slide e prs idx st).1 recs'.
Proof.
  intros Hinv. unfold process_slide. rewrite (Hio idx).
  repeat case_match; cbn [fst];
    first
      [ exists recs; eapply manifest_inv_same; [exact Hinv|manifest_files|manifest_gen]
      | exists recs; eapply (manifest_inv_failed _ _ _ idx);
        [exact Hinv|manifest_files|manifest_gen|synth_verdict]
      | eexists; eapply (manifest_inv_recorded _ _ _ idx);
        [exact Hinv|manifest_files|manifest_gen|synth_verdict|reflexivity
        |split; [reflexivity|by apply Z.eqb_eq] ] ].
Qed.

Lemma slide_loop_manifest prs sel st recs :
  manifest_inv e st recs → ∃ recs', manifest_inv e (slide_loop e prs sel st).1 recs'.
Proof.
  revert st recs. induction sel as [|idx rest IH]; intros st recs Hinv; cbn [slide_loop].
  { by exists recs. }
  destruct (is_set e st) as [c st1] eqn:Eset.
  assert (Hinv1 : manifest_inv e st1 recs).
  { assert (st1 = (is_set e st).2) as -> by (by rewrite Eset).
    eapply manifest_inv_same; [exact Hinv|done..]. }
  destruct c.
  { exists recs. cbn [fst]. eapply manifest_inv_same; [exact Hinv1|done|].
    rewrite generated_log. apply app_nil_r. }
  destruct (process_slide_manifest prs idx st1 recs Hinv1) as (recs' & Hinv').
  destruct (process_slide e prs idx st1) as [st2 [|]]; cbn [fst] in *; eauto.
Qed.

Lemma manifest_inv_initial st :
  files st = files0 e → generated (history st) = [] → manifest_inv e st [].
Proof.
  intros Hf Hg. unfold manifest_inv. rewrite Hf, Hg. repeat split. constructor.
Qed.

Lemma worker_manifest : ∃ recs, manifest_inv e (worker e) recs.
Proof.
  destruct (worker_structure e)
    as [(st & -> & _ & G & Hf & _)
       |(prs & sel & st1 & st2 & HR & -> & _ & Gc & _ & Hf & _)].
  - exists []. destruct (finally_run e st) as (Gf & _ & Hff & _).
    apply manifest_inv_initial; [congruence|].
    rewrite (generated_grows closing_event st) by (done || by intros [[]| | | | |[|]]).
    apply (generated_setup early_event); [|done]. by intros [[]| | | | |[|]].
  - destruct (reaches_state e prs sel st1 HR) as (G1 & Hf1 & _).
    destruct (slide_loop_manifest prs sel st1 []) as (recs & Hinv).
    { apply manifest_inv_initial; [done|].
      apply (generated_setup setup_event); [|done]. by intros [[]| | | |?[]|[|]]. }
    exists recs. eapply manifest_inv_same; [exact Hinv|done|].
    eapply generated_grows; [|exact Gc]. by intros [[]| | | | |[|]].
Qed.

End Manifest.

(** ** The retry loop, further *)

(** The loop stops before the third post only on an outcome that is not
    retried, and it leaves by the last outcome: with the response, or with
    the exception raised again. *)
Lemma post_loop_exit (http : nat → HttpOutcome) :
let r := synthesize http in
((attempts r < NET_MAX_ATTEMPTS)%nat → retryable (http (attempts r)) = false)
∧ loop_exit r = match http (attempts r) with
                | Responded resp => Left (Some resp)
                | RequestException => Reraised
                end.
Proof.
unfold synthesize, NET_MAX_ATTEMPTS. cbn [post_loop].
unfold NET_MAX_ATTEMPTS. cbn [Nat.ltb Nat.leb]. rewrite ?andb_true_r, ?andb_false_r.
destruct (http 1%nat) as [r1|] eqn:H1, (http 2%nat) as [r2|] eqn:H2,
  (http 3%nat) as [r3|] eqn:H3;
  repeat match goal with
         | |- context [if ?b then _ else _] => destruct b eqn:?
         end;
  cbn [attempts loop_exit after]; rewrite ?H1, ?H2, ?H3;
  (split; [|reflexivity]); intros Hlt; try lia; cbn [retryable];
  try done;
  repeat match goal with
         | H : (_ =? 200) = true |- _ => apply Z.eqb_eq in H; rewrite H
         end; rewrite ?andb_true_r in *; done.
Qed.

(** A response that is not retried, after [k - 1] outcomes that are. *)
Lemma synthesize_stops (http : nat → HttpOutcome) (k : nat) (resp : Response) :
(1 ≤ k ≤ NET_MAX_ATTEMPTS)%nat →
(∀ j, (1 ≤ j < k)%nat → retryable (http j) = true) →
http k = Responded resp →
retryable (http k) = false ∨ k = NET_MAX_ATTEMPTS →
synthesize http
= {| attempts := k; loop_exit := Left (Some resp);
     net_events := attempts_then_backoffs k |}.
Proof.
intros Hk Hretry Hresp Hstop.
pose proof (post_loop_ok http) as (Hn & Hev & Hbefore).
pose proof (post_loop_exit http) as (Hlive & Hexit).
cbv zeta in *. unfold NET_MAX_ATTEMPTS in *.
set (r := synthesize http) in *.
assert (attempts r = k) as Ha.
{ destruct (Nat.lt_trichotomy (attempts r) k) as [Hlt|[?|Hgt]]; [|done|].
  - rewrite Hretry in Hlive by lia. discriminate Hlive. lia.
  - specialize (Hbefore k ltac:(lia)). destruct Hstop as [Hs| ->]; [congruence|lia]. }
destruct r as [a x evs]. cbn in *. subst a. rewrite Hresp in Hexit. by subst.
Qed.


(** A slide whose synthesis ends with an answer other than 200. *)
Lemma process_slide_api_error e prs idx st s resp :
prs !! Z.to_nat (idx - 1) = Some s →
truthy (resolve_notes (parse_template e) s).1 = true →
loop_exit (synthesize (http e idx)) = Left (Some resp) →
status_code resp ≠ 200 →
∃ st' logs,
  process_slide e prs idx st = (st', false)
  ∧ trace st' = Log (LApiError idx (pretty_api_error resp))
                  :: rev (Net idx <$> net_events (synthesize (http e idx)))
                  ++ logs ++ trace st
  ∧ Forall is_log logs
  ∧ processed st' = processed st + 1
  ∧ deck st' = deck st ∧ saved st' = saved st ∧ files st' = files st
  ∧ snaps st' = snaps st.
Proof.
intros Hs Hnote Hexit Hc. unfold process_slide. rewrite Hs.
destruct (resolve_notes (parse_template e) s) as [note res]. simpl in Hnote.
rewrite Hnote. cbn [negb]. rewrite Hexit.
destruct (status_code resp =? 200) eqn:E; [apply Z.eqb_eq in E; lia|].
destruct (log_resolution_trace res st) as (logs & Ht & Hl & Hp & Hd & Hsv & Hf & Hsn & _).
set (evs := Net idx <$> net_events (synthesize (http e idx))).
destruct (emits_fields evs
            (log (LTextHash (str_take 8 (sha256_hex e note)))
               (log (LGenerating idx) (log_resolution res st))))
  as (Hd' & Hsv' & _ & Hf' & Hsn' & Hp' & _).
eexists _, (_ :: _ :: logs). split; [reflexivity|].
cbn [trace deck saved files snaps processed count_processed log emit].
rewrite emits_trace, Hd', Hsv', Hf', Hsn', Hp'.
cbn [trace deck saved files snaps processed log emit].
rewrite Ht, Hp, Hd, Hsv, Hf, Hsn. repeat split.
repeat (constructor; [done|]).
eapply Forall_impl; [exact Hl|]. by intros [[]| | | | |].
Qed.

(** ** The restore that fails *)



Lemma found_set_report e st :
  found_set e (finally e (report e st)) = (is_set e st).1.
Proof.
  unfold found_set, finally, report, is_set.
  destruct (cancel_at e) as [k|]; [|by repeat case_match].
  repeat case_match; cbn; done.
Qed.

Lemma dialogs_of_report e st :
  dialogs st = [] →
  dialogs (report e st)
  = [if (is_set e st).1 then dlg_cancelled
     else if audio_only e then dlg_complete_audio else dlg_complete].
Proof.
  unfold dialogs, history, report, is_set. intros Hd.
  destruct (cancel_at e) as [k|] eqn:Ec; [destruct (k <=? polls st)%nat|];
    destruct (audio_only e); cbn; rewrite ?omap_app, Hd; cbn; auto.
Qed.

(** ** The batch backup and the table of snapshots *)

Lemma process_slide_restores e prs idx st s resp rc snap :
prs !! Z.to_nat (idx - 1) = Some s →
truthy (resolve_notes (parse_template e) s).1 = true →
loop_exit (synthesize (http e idx)) = Left (Some resp) →
status_code resp = 200 →
ffmpeg e idx = Exited rc →
audio_only e = false →
mjoin (snaps st !! idx) = Some snap →
has_unsafe snap = false →
∃ st1, process_slide e prs idx st = (count_processed (attach_audio e idx st1), false)
  ∧ deck st1 = deck st ∧ snaps st1 = snaps st ∧ processed st1 = processed st
  ∧ grows (pre_attach_event idx) (trace st) (trace st1).
Proof.
intros Hs Hnote Hexit Hcode Hff Hmode Hsnap Hsafe. unfold process_slide.
rewrite Hs. destruct (resolve_notes (parse_template e) s) as [note res].
cbn in Hnote. rewrite Hnote. cbn [negb]. rewrite Hexit, Hcode, Hff, Hmode. cbn [Z.eqb Pos.eqb].
set (r := synthesize (http e idx)).
destruct (emits_fields (Net idx <$> net_events r)
            (log (LTextHash (str_take 8 (sha256_hex e note)))
               (log (LGenerating idx) (log_resolution res st))))
  as (Hd & _ & _ & _ & Hsn & Hp & _).
destruct (log_resolution_trace res st) as (logs & Ht & Hl & Hp' & Hd' & _ & _ & Hsn' & _).
cbn [snaps log emit with_files] in *. rewrite Hsn. cbn [snaps log emit]. rewrite Hsn', Hsnap.
unfold should_skip_audio_attachment. rewrite Hsafe.
eexists. split; [reflexivity|]. cbn [deck snaps processed trace log emit with_files].
rewrite ?Hd, ?Hsn, ?Hp. cbn [deck snaps processed trace log emit with_files].
rewrite ?Hd', ?Hsn', ?Hp'. repeat split.
repeat (apply grows_cons; [cbn; by rewrite ?bool_decide_eq_true_2|]). rewrite emits_trace. apply grows_app.
exists (rev (Net idx <$> net_events r)
          ++ [Log (LTextHash (str_take 8 (sha256_hex e note))); Log (LGenerating idx)]
          ++ logs).
cbn [trace log emit]. rewrite Ht, <- !app_assoc. split; [done|].
apply Forall_app. split.
- apply Forall_rev, Forall_fmap, Forall_forall. intros ev _. cbn.
  by rewrite bool_decide_eq_true_2.
- repeat (constructor; [done|]). eapply Forall_impl; [exact Hl|]. by intros [[]| | | | |].
Qed.

(** A backup that does not raise holds the snapshot of the slide and
    leaves the slide without its orphaned effects. *)
Lemma backup_slide_captures e idx st sl :
Slides (deck st) idx = Some sl →
backup_fault e idx = None →
let st' := backup_slide e idx st in
snaps st' !! idx = Some (Some (snapshot sl).2)
∧ Slides (deck st') idx = Some (snapshot sl).1
∧ ∃ line, trace st' = Log line :: Com idx OpSnapshot :: Com idx OpCleanup :: trace st.
Proof.
intros Hsl Hb. cbv zeta. unfold backup_slide. rewrite Hb, Hsl.
unfold snapshot. cbn [fst snd].
destruct (effects (snapshot_slide_animations (cleanup_orphaned_audio_effects sl)));
  cbn; rewrite lookup_insert_eq, Slides_on_deck_eq, Hsl; eauto.
Qed.

Lemma captured_app idx h l : captured idx h → captured idx (h ++ l).
Proof.
  intros (l1 & l2 & ->). exists l1, (l2 ++ l). by rewrite <- app_assoc.
Qed.

Lemma captured_grows p idx old new :
  grows p old new → captured idx (rev old) → captured idx (rev new).
Proof.
  intros (l & -> & _)%grows_app H. rewrite rev_app_distr. by apply captured_app.
Qed.

Lemma backup_slide_shape e idx st :
  ∃ l entry,
    trace (backup_slide e idx st) = l ++ trace st
    ∧ snaps (backup_slide e idx st) = <[idx := entry]> (snaps st)
    ∧ ((entry = None ∧ ∀ j, Com j OpSnapshot ∉ l)
       ∨ (∃ snap line, entry = Some snap
            ∧ l = [Log line; Com idx OpSnapshot; Com idx OpCleanup])).
Proof.
  unfold backup_slide, backup_failed.
  repeat case_match; cbn [snaps trace with_snaps with_deck log emit].
  all: first
    [ eexists [_; _; _], (Some _); (split; [done|]); (split; [done|]); right; by eauto
    | eexists [_; _], None; (split; [done|]); (split; [done|]); left; (split; [done|]);
      intros j Hin; repeat (apply elem_of_cons in Hin as [Hin|Hin]; [discriminate|]);
      by apply elem_of_nil in Hin
    | eexists [_], None; (split; [done|]); (split; [done|]); left; (split; [done|]);
      intros j Hin; repeat (apply elem_of_cons in Hin as [Hin|Hin]; [discriminate|]);
      by apply elem_of_nil in Hin ].
Qed.

Lemma backup_slide_inv e idx st :
  snaps st !! idx = None → backup_inv st → backup_inv (backup_slide e idx st).
Proof.
  intros Hnew [Hcap Hev].
  assert (Hno : Com idx OpSnapshot ∉ trace st).
  { intros (snap & Hs)%Hev. congruence. }
  destruct (backup_slide_shape e idx st) as (l & entry & Ht & Hs & Hshape).
  unfold backup_inv. rewrite Ht, Hs. split.
  - intros j snap. destruct (decide (j = idx)) as [->|Hne].
    + rewrite lookup_insert_eq. intros [= ->].
      destruct Hshape as [[[=] _]|(snap' & line & _ & ->)].
      exists (rev (trace st)), [Log line]. cbn. by rewrite <- !app_assoc.
    + rewrite lookup_insert_ne by done. intros H%Hcap.
      rewrite rev_app_distr. by apply captured_app.
  - intros j [Hin|Hin]%elem_of_app.
    + destruct Hshape as [[_ Hl]|(snap & line & -> & ->)]; [by destruct (Hl j)|].
      repeat (apply elem_of_cons in Hin as [Hin|Hin]; simplify_eq);
        [|by apply elem_of_nil in Hin].
      rewrite lookup_insert_eq. eauto.
    + destruct (decide (j = idx)) as [->|Hne]; [done|].
      rewrite lookup_insert_ne by done. by apply Hev.
Qed.

Lemma backup_loop_snaps_other e sel st j :
  j ∉ sel → snaps (backup_loop e sel st) !! j = snaps st !! j.
Proof.
  revert st. induction sel as [|idx rest IH]; intros st Hj; cbn [backup_loop]; [done|].
  destruct (is_set e st) as [c st1] eqn:Eset.
  pose proof (is_set_fields e st) as (_ & Hs & _). rewrite Eset in Hs. cbn [snd] in Hs.
  destruct c; [by rewrite Hs|].
  apply not_elem_of_cons in Hj as [Hne Hj]. rewrite IH by done.
  destruct (backup_slide_run e idx st1) as (_ & _ & _ & _ & _ & _ & _ & H).
  rewrite H by done. by rewrite Hs.
Qed.

Lemma backup_loop_inv e sel st :
  NoDup sel → (∀ idx, idx ∈ sel → snaps st !! idx = None) →
  backup_inv st → backup_inv (backup_loop e sel st).
Proof.
  revert st. induction sel as [|idx rest IH]; intros st Hnd Hnew Hinv; cbn [backup_loop];
    [done|].
  destruct (is_set e st) as [c st1] eqn:Eset.
  pose proof (is_set_fields e st) as (Ht & Hs & _). rewrite Eset in Ht, Hs. cbn [snd] in *.
  assert (Hinv1 : backup_inv st1).
  { destruct Hinv as [H1 H2]. split; intros j; rewrite ?Ht, ?Hs; [apply H1|apply H2]. }
  destruct c; [done|].
  apply NoDup_cons in Hnd as [Hni Hnd].
  apply IH; [done| |].
  - intros j Hj. destruct (backup_slide_run e idx st1) as (_ & _ & _ & _ & _ & _ & _ & H).
    rewrite H by (intros ->; done). rewrite Hs. apply Hnew. by right.
  - apply backup_slide_inv; [|done]. rewrite Hs. apply Hnew. by left.
Qed.

(** The slide at place [i] of the selection is backed up when the flag
    is not set at the reading before it and its backup does not raise. *)
Lemma backup_loop_captures e sel st i idx sl :
  NoDup sel → sel !! i = Some idx →
  unset_at e (polls st + i) →
  backup_fault e idx = None →
  Slides (deck st) idx = Some sl →
  snaps (backup_loop e sel st) !! idx = Some (Some (snapshot sl).2).
Proof.
  revert st i. induction sel as [|idx0 rest IH]; intros st i Hnd Hi Hc Hb Hsl; [done|].
  cbn [backup_loop].
  destruct (is_set e st) as [c st1] eqn:Eset.
  pose proof (is_set_fields e st) as (_ & Hs & Hd & _ & _ & _ & _ & Hq).
  rewrite Eset in Hs, Hd, Hq. cbn [snd] in *.
  assert (c = false) as ->.
  { assert (c = (is_set e st).1) as -> by (by rewrite Eset).
    unfold is_set. cbn. destruct (cancel_at e) as [k|] eqn:Ek; [|done].
    apply Nat.leb_gt. specialize (Hc k Ek). lia. }
  apply NoDup_cons in Hnd as [Hni Hnd].
  destruct i as [|i]; cbn in Hi.
  - injection Hi as ->. rewrite backup_loop_snaps_other by done.
    rewrite <- Hd in Hsl.
    by destruct (backup_slide_captures e idx st1 sl Hsl Hb) as (-> & _).
  - assert (idx ≠ idx0).
    { intros ->. apply Hni. by eapply list_elem_of_lookup_2. }
    apply (IH _ i); [done..| | |].
    + destruct (backup_slide_run e idx0 st1) as (_ & _ & _ & _ & -> & _).
      rewrite Hq. intros k Hk. specialize (Hc k Hk). lia.
    + done.
    + rewrite backup_slide_deck by done. by rewrite Hd.
Qed.

Lemma elem_of_rev_list {A} (x : A) l : x ∈ rev l ↔ x ∈ l.
Proof. rewrite !list_elem_of_In. symmetry. apply in_rev. Qed.

Lemma reaches_backup_inv e prs sel st1 :
  Reaches e prs sel st1 → backup_inv st1.
Proof.
  intros [Hp Hsel Hne Hprep]. unfold prepare in Hprep.
  destruct (audio_only e).
  { simplify_eq. split; cbn.
    - intros idx snap. by rewrite lookup_empty.
    - intros idx Hin. repeat (apply elem_of_cons in Hin as [Hin|Hin]; [discriminate|]).
      by apply elem_of_nil in Hin. }
  destruct (com_deck e) as [d0|err]; [|done]. simplify_eq.
  set (st0 := log LBackingUp _).
  assert (H0 : backup_inv st0).
  { split; cbn.
    - intros idx snap. by rewrite lookup_empty.
    - intros idx Hin. repeat (apply elem_of_cons in Hin as [Hin|Hin]; [discriminate|]).
      by apply elem_of_nil in Hin. }
  pose proof (backup_loop_inv e _ st0
                (NoDup_select_slides (Z.of_nat (length prs)) (slide_range_spec e))
                (λ idx _, lookup_empty idx) H0) as [H1 H2].
  split; cbn [snaps trace log emit].
  - intros idx snap Hs. cbn. by apply captured_app, (H1 idx snap).
  - intros idx [?|Hin]%elem_of_cons; [discriminate|]. by apply H2.
Qed.

Lemma worker_captures e prs d0 i idx sl :
  valid_inputs e → audio_only e = false →
  pptx e = inl prs → com_deck e = inl d0 →
  select_slides (Z.of_nat (length prs)) (slide_range_spec e) !! i = Some idx →
  unset_at e i → backup_fault e idx = None → Slides d0 idx = Some sl →
  snaps (worker e) !! idx = Some (Some (snapshot sl).2).
Proof.
  intros (Hk & Hv & Hin & Hff & Hmk) Hmode Hp Hd Hi Hc Hb Hsl.
  destruct (worker_structure e)
    as [(st & _ & [Hr|(_ & _ & Hm)] & _)
       |(prs' & sel & st1 & st2 & [Hp' Hsel Hne Hprep] & -> & _ & _ & -> & _)];
    [|congruence|].
  { exfalso. revert Hr. unfold worker_body.
    rewrite Hk, Hv, Hin, Hff, Hmk, Hp. cbn [negb].
    set (sel := select_slides _ _) in *.
    destruct sel as [|x sel'] eqn:Esel; [done|].
    unfold prepare. rewrite Hmode, Hd.
    by destruct (slide_loop e prs _ _) as [? []]. }
  rewrite Hp in Hp'. injection Hp' as <-. subst sel.
  destruct (slide_loop_run e prs (select_slides (Z.of_nat (length prs)) (slide_range_spec e)) st1)
    as (_ & _ & -> & _).
  unfold prepare in Hprep. rewrite Hmode, Hd in Hprep. injection Hprep as <-.
  cbn [snaps log emit].
  apply (backup_loop_captures e _ _ i); [apply NoDup_select_slides|done|done|done|done].
Qed.

(** * The claims *)




(** C2, as amended.  A run that reaches the end of the worker's [try] block
  shows exactly one dialog.  Its text is fixed by the last reading of the
  cancel flag, the one that the report makes: the cancellation notice when
  that reading finds the flag set, otherwise the completion notice of the
  mode.  None of the three texts carries a count; the counter [processed]
  stays inside the worker. *)
Theorem report_is_fixed_dialog (e : Env) :
  (worker_body e (initial e)).2 = Finished →
  dialogs (worker e)
  = [if found_set e (worker e) then dlg_cancelled
     else if audio_only e then dlg_complete_audio else dlg_complete]
  ∧ (1 ≤ polls (worker e))%nat
  ∧ ∃ st, worker e = finally e (report e st)
          ∧ polls (worker e) = S (polls st)
          ∧ found_set e (worker e) = (is_set e st).1.
Proof.
  intros Hend.
  destruct (worker_structure e)
    as [(st & _ & [Hr|(Hr & _)] & _)
       |(prs & sel & st1 & st2 & HR & -> & [[He _]|[_ ->]] & _)]; [congruence..|].
  rewrite found_set_report, finally_no_box. split; [|split].
  - apply dialogs_of_report.
    destruct (reaches_state e prs sel st1 HR) as (G1 & _).
    destruct (slide_loop_run e prs sel st1) as (G & _).
    unfold dialogs, history.
    assert (H1 : ∀ ev, setup_event ev = true → box_of ev = None)
      by (intros ev; by destruct ev as [[]| | | |?[]|[|]]).
    assert (H2 : ∀ ev, existsb (λ i, slide_event i ev) sel = true → box_of ev = None).
    { intros ev H. destruct ev; try done. apply existsb_exists in H as (? & _ & ?). done. }
    by rewrite (grows_omap _ _ _ _ H2 G), (grows_omap _ _ _ _ H1 G1).
  - unfold finally, report, is_set. repeat case_match; cbn; lia.
  - eexists. split; [reflexivity|]. split; [|done].
    unfold finally, report, is_set. repeat case_match; cbn; lia.
Qed.

Lemma report_is_fixed_dialog_witness :
  dialogs (worker base_env)
  = [if found_set base_env (worker base_env) then dlg_cancelled
     else if audio_only base_env then dlg_complete_audio else dlg_complete]
  ∧ (1 ≤ polls (worker base_env))%nat
  ∧ ∃ st, worker base_env = finally base_env (report base_env st)
          ∧ polls (worker base_env) = S (polls st)
          ∧ found_set base_env (worker base_env) = (is_set base_env st).1.
Proof. apply (report_is_fixed_dialog base_env). reflexivity. Defined.

(** C2, the claim as stated fails: no count can be read off what the run
  reports.  A run over one slide and a run over two slides show the same
  dialog, with one and with two slides processed. *)
Lemma report_carries_no_count :
  ¬ ∃ count : list (string * string) → Z,
      ∀ e, count (dialogs (worker e)) = processed (worker e).
Proof.
  intros (count & H).
  pose proof (H base_env) as H1. pose proof (H two_slides_env) as H2.
  assert (dialogs (worker base_env) = dialogs (worker two_slides_env)) as E
    by (vm_compute; reflexivity).
  rewrite E in H1. rewrite H1 in H2. vm_compute in H2. discriminate.
Qed.

(** C3, on the code.  The transcoder exits with status 1 on the only slide
  of an audio-only run: the worker logs the conversion and the saved file
  as it does after a clean exit, logs no error line, counts the slide and
  shows the completion dialog.  On the same exit status [normalize_audio]
  raises and [test_ffmpeg_available] answers no. *)
Theorem nonzero_exit_is_not_a_failure :
  let st := worker env_transcode_fails in
  transcodes (history st) = [(1, Exited 1)]
  ∧ log_lines (history st)
    = [LDeck; LOutput; LLoading; LLoaded 1 [1]; LAudioOnlyMode; LGenerating 1;
       LTextHash "sha256:H"; LWavHash "md5:RIFF"; LConverted "slide01.wav";
       LAudioOnlySaved "slide01.wav"; LDoneAudio; LSessionLog]
  ∧ filter (λ m, is_error_line m = true) (log_lines (history st)) = []
  ∧ processed st = 1
  ∧ dialogs st = [dlg_complete_audio]
  ∧ normalize_audio (Exited 1) = None
  ∧ test_ffmpeg_available (Exited 1) = false.
Proof. vm_compute. done. Qed.

(** C4.  The loop around [sess.post] makes between one and three posts;
  each post but the last is followed by a sleep of [0.75 * 2 ** (k-1)]
  seconds, 0.75 first and doubling; a post is followed by another only
  after a 5xx response or a [RequestException], and before the third post
  always after one of these; the loop leaves with the last response, or
  with the exception of the third post.  A 4xx response, to the first post
  or after retried outcomes, ends the loop at once: the slide is logged as
  an API error right after that post and counted, nothing is written, and
  the loop goes on with the next slide. *)
Theorem synthesis_retry_policy (e : Env) (prs : list PptxSlide) (idx : Z)
  (rest : list Z) (st : St) :
let r := synthesize (http e idx) in
((1 ≤ attempts r ≤ 3)%nat
 ∧ net_events r = attempts_then_backoffs (attempts r)
 ∧ (∀ k, (1 ≤ k < attempts r)%nat → retryable (http e idx k) = true)
 ∧ ((attempts r < 3)%nat → retryable (http e idx (attempts r)) = false)
 ∧ loop_exit r = match http e idx (attempts r) with
                 | Responded resp => Left (Some resp)
                 | RequestException => Reraised
                 end)
∧ ((backoff 1 == 0.75)%Q ∧ ∀ k, (1 ≤ k)%nat → (backoff (S k) == 2 * backoff k)%Q)
∧ (∀ k s resp,
     (is_set e st).1 = false →
     prs !! Z.to_nat (idx - 1) = Some s →
     truthy (resolve_notes (parse_template e) s).1 = true →
     (1 ≤ k ≤ 3)%nat →
     (∀ j, (1 ≤ j < k)%nat → retryable (http e idx j) = true) →
     http e idx k = Responded resp →
     400 ≤ status_code resp < 500 →
     r = {| attempts := k; loop_exit := Left (Some resp);
            net_events := attempts_then_backoffs k |}
     ∧ ∃ st' logs,
         slide_loop e prs (idx :: rest) st = slide_loop e prs rest st'
         ∧ trace st' = Log (LApiError idx (pretty_api_error resp))
                         :: rev (Net idx <$> attempts_then_backoffs k)
                         ++ logs ++ trace st
         ∧ Forall is_log logs
         ∧ is_error_line (LApiError idx (pretty_api_error resp)) = true
         ∧ processed st' = processed st + 1
         ∧ deck st' = deck st ∧ saved st' = saved st ∧ files st' = files st).
Proof.
intros r. split.
{ destruct (post_loop_ok (http e idx)) as (? & ? & ?).
  destruct (post_loop_exit (http e idx)) as (? & ?). done. }
split; [split; [apply backoff_first|apply backoff_doubles]|].
intros k s resp Hc Hs Hnote Hk Hretry Hresp Hcode.
assert (Hr : r = {| attempts := k; loop_exit := Left (Some resp);
                    net_events := attempts_then_backoffs k |}).
{ apply synthesize_stops; [done..|]. left. rewrite Hresp. cbn.
  destruct (500 <=? status_code resp) eqn:E; [apply Z.leb_le in E; lia|done]. }
split; [done|].
cbn [slide_loop]. destruct (is_set e st) as [c st1] eqn:Eset. simpl in Hc. subst c.
destruct (process_slide_api_error e prs idx st1 s resp Hs Hnote)
  as (st' & logs & Hp & Ht & Hl & Hn & Hd & Hsv & Hf & _).
{ fold r. by rewrite Hr. }
{ lia. }
exists st', logs. rewrite Hp.
assert (st1 = (is_set e st).2) as -> by (by rewrite Eset).
fold r in Ht. rewrite Hr in Ht. cbn [net_events] in Ht.
split; [done|]. by rewrite Ht, Hn, Hd, Hsv, Hf.
Qed.

Lemma synthesis_retry_policy_witness :
  synthesize (http env_500_400 1)
  = {| attempts := 2; loop_exit := Left (Some bad400);
       net_events := attempts_then_backoffs 2 |}
  ∧ ∃ st' logs,
      slide_loop env_500_400 [hello] [1] (initial env_500_400)
      = slide_loop env_500_400 [hello] [] st'
      ∧ trace st' = Log (LApiError 1 (pretty_api_error bad400))
                      :: rev (Net 1 <$> attempts_then_backoffs 2)
                      ++ logs ++ trace (initial env_500_400)
      ∧ Forall is_log logs
      ∧ is_error_line (LApiError 1 (pretty_api_error bad400)) = true
      ∧ processed st' = processed (initial env_500_400) + 1
      ∧ deck st' = deck (initial env_500_400)
      ∧ saved st' = saved (initial env_500_400)
      ∧ files st' = files (initial env_500_400).
Proof.
  refine (proj2 (proj2 (synthesis_retry_policy env_500_400 [hello] 1 []
                          (initial env_500_400)))
            2%nat hello bad400 _ _ _ _ _ _ _).
  - reflexivity.
  - reflexivity.
  - reflexivity.
  - lia.
  - intros j Hj. assert (j = 1%nat) as -> by lia. reflexivity.
  - reflexivity.
  - simpl. lia.
Defined.

(** C5, as amended.  Unless the manifest path of the session already holds
    a JSON value that is no array, and when the writes succeed, the run
    leaves in the manifest, after the entries that the file held before,
    one entry for each slide whose generation began and whose synthesis
    ended with status 200, in the order of processing; slides without notes
    or with a failed synthesis, though counted as processed, get none.  No
    file but the manifest and its [.sha256] sibling is written, and after
    the last append the sibling holds the digest of the bytes of the
    manifest. *)
Theorem manifest_follows_synthesis (e : Env) :
  let st := worker e in
  let p := session_manifest_path e in
  files0 e !! p ≠ Some JsonOther →
  (∀ idx, manifest_io e idx = IoOk) →
  ∃ recs,
    m_slide <$> recs
    = filter (λ idx, synth_ok e idx = true) (generated (history st))
    ∧ Forall (good_entry e) recs
    ∧ (∀ q, q ≠ p → q ≠ p +:+ ".sha256" → files st !! q = files0 e !! q)
    ∧ match recs with
      | [] => files st = files0 e
      | _ =>
          files st !! p = Some (JsonList (manifest_of (files0 e) p ++ recs))
          ∧ files st !! (p +:+ ".sha256")
            = Some (Text (_sha256_file (sha256_hex e) (json_bytes e) (other_bytes e)
                            (files st) p))
      end.
Proof.
  intros st p Hp0 Hio.
  destruct (worker_manifest e Hp0 Hio) as (recs & H1 & H2 & H3 & H4 & H5).
  exists recs. split; [done|]. split; [done|]. split; [done|].
  fold st p in H2, H3, H4. destruct recs as [|r recs].
  - apply map_eq. intros q.
    destruct (decide (q = p)) as [->|Hq]; [done|].
    destruct (decide (q = p +:+ ".sha256")) as [->|Hq']; [done|]. by apply H4.
  - split; [done|]. unfold _sha256_file. by rewrite H2, H3.
Qed.

Lemma manifest_follows_synthesis_witness :
  ∃ recs,
    m_slide <$> recs
    = filter (λ idx, synth_ok base_env idx = true) (generated (history (worker base_env)))
    ∧ Forall (good_entry base_env) recs
    ∧ (∀ q, q ≠ session_manifest_path base_env →
            q ≠ session_manifest_path base_env +:+ ".sha256" →
            files (worker base_env) !! q = files0 base_env !! q)
    ∧ match recs with
      | [] => files (worker base_env) = files0 base_env
      | _ =>
          files (worker base_env) !! session_manifest_path base_env
          = Some (JsonList (manifest_of (files0 base_env) (session_manifest_path base_env)
                              ++ recs))
          ∧ files (worker base_env) !! (session_manifest_path base_env +:+ ".sha256")
            = Some (Text (_sha256_file (sha256_hex base_env) (json_bytes base_env)
                            (other_bytes base_env) (files (worker base_env))
                            (session_manifest_path base_env)))
      end.
Proof.
  apply (manifest_follows_synthesis base_env).
  - vm_compute. discriminate.
  - reflexivity.
Defined.

(** C5, the claim as stated fails: a slide without notes is counted as
    processed and leaves no record; so does a slide whose generation began
    and whose synthesis request was answered with status 400.  Neither run
    writes a manifest at all. *)
Lemma processed_slide_without_record :
  let st := worker env_no_notes in
  let st' := worker env_400 in
  (processed st = 1
   ∧ manifest_of (files st) (session_manifest_path env_no_notes) = []
   ∧ files st !! session_manifest_path env_no_notes = None)
  ∧ (processed st' = 1
     ∧ generated (history st') = [1]
     ∧ manifest_of (files st') (session_manifest_path env_400) = []
     ∧ files st' !! session_manifest_path env_400 = None).
Proof. vm_compute. done. Qed.

(** C6, as amended.  With a selection expression that is not blank, an
  index is selected exactly when some token covers it: a token without a
  dash covers the integer that it parses to, within [1, total], and so
  nothing at all when [int()] raises on it; a token with a dash covers the
  range between its bounds clipped to [1, total], an empty bound or one on
  which [int()] raises being replaced by 1 on the left and by [total] on
  the right.  No token ends the selection. *)
Theorem select_slides_tokens (total : Z) (spec : string) (n : Z) :
  truthy (strip spec) = true →
  n ∈ select_slides total spec
  ↔ ∃ part, part ∈ tokens spec ∧ covers total part n.
Proof.
  intros Hspec. unfold select_slides. rewrite Hspec. simpl.
  rewrite elem_of_sorted, elem_of_foldl_add_token.
  split; [intros [?%not_elem_of_empty|?]; done|by right].
Qed.

Lemma select_slides_tokens_witness :
  4 ∈ select_slides 10 "3-6,1,20"
  ↔ ∃ part, part ∈ tokens "3-6,1,20" ∧ covers 10 part 4.
Proof. apply (select_slides_tokens 10 "3-6,1,20" 4). reflexivity. Defined.

(** C6, the claim as stated fails: the token [x-y] is malformed, [int()]
  raises on both of its bounds, and it selects every slide. *)
Lemma malformed_range_selects_all :
  "x-y" ∈ tokens "x-y" ∧ malformed "x-y" = true
  ∧ add_token 3 ∅ "x-y" ≠ ∅
  ∧ select_slides 3 "x-y" = [1; 2; 3].
Proof.
  split; [by left|]. split; [reflexivity|]. split; [|reflexivity].
  intros H. assert (1 ∈ add_token 3 ∅ "x-y") as H1.
  { apply elem_of_add_token. right. unfold covers. simpl. vm_compute. split; discriminate. }
  rewrite H in H1. by apply not_elem_of_empty in H1.
Qed.

(** C7, as amended.  For notes that hold the read-slide marker:
  (1) when the slide yields a text without backslash, every match of the
  marker is replaced by that text, which is the stripped texts of the
  extractable shapes joined by newlines, in ascending order of
  (top, left); with a single occurrence of the marker the notes become
  what stood before it, the text, and what stood after it;
  (2) when the slide yields no text, the matches are removed and the
  result stripped;
  (3) when the result is empty the slide is skipped: the skip is logged,
  the slide is counted as processed, nothing is posted and the loop goes
  on. *)
Theorem read_slide_marker_resolved (pt : string → option (string → string))
  (s : PptxSlide) :
let note := strip (default "" (notes_text s)) in
re_search note = true →
(∀ t, extract_slide_text (shapes s) = Some t → truthy t = true →
      contains "\"%char t = false →
   (resolve_notes pt s).1 = re_sub (λ _, t) note
   ∧ (∀ pre m post,
        note = pre +:+ m +:+ post → is_marker m →
        no_match_before (String.length pre) note → re_search post = false →
        (resolve_notes pt s).1 = pre +:+ t +:+ post)
   ∧ ∃ items,
       items = item_of <$> filter (λ sh, extractable (title_shape_id (shapes s)) sh = true)
                             (shapes s)
       ∧ t = join newline (item_text <$> sort_items items)
       ∧ sort_items items ≡ₚ items
       ∧ Sorted (λ a b, key_le a b = true) (sort_items items))
∧ (extract_slide_text (shapes s) = Some "" →
   resolve_notes pt s = (strip (re_sub (λ _, "") note), NoSlideText)
   ∧ (∀ pre m post,
        note = pre +:+ m +:+ post → is_marker m →
        no_match_before (String.length pre) note → re_search post = false →
        (resolve_notes pt s).1 = strip (pre +:+ post)))
∧ (∀ e prs idx st,
     parse_template e = pt → prs !! Z.to_nat (idx - 1) = Some s →
     (resolve_notes pt s).1 = "" →
     process_slide e prs idx st
     = (count_processed
          (log (LSkipNoNotes idx) (log_resolution (resolve_notes pt s).2 st)), false)).
Proof.
intros note Hsearch. split; [|split].
- intros t Hext Ht Hbs.
  assert (Hres : (resolve_notes pt s).1 = re_sub (λ _, t) note).
  { unfold resolve_notes. fold note. rewrite Hsearch, Hext, Ht.
    unfold compile_repl. by rewrite Hbs. }
  split; [done|]. split.
  + intros pre m post Hn Hm Hpre Hpost. rewrite Hres, Hn.
    apply re_sub_one_marker; [done| |done]. by rewrite <- Hn.
  + unfold extract_slide_text in Hext.
    destruct (collect_items (title_shape_id (shapes s)) (shapes s)) as [items|] eqn:Ec;
      [|done].
    cbn in Hext. injection Hext as <-.
    exists items. split; [by apply collect_items_spec|]. split; [done|].
    split; [apply sort_items_perm|apply sort_items_sorted].
- intros Hext.
  assert (Hres : resolve_notes pt s = (strip (re_sub (λ _, "") note), NoSlideText)).
  { unfold resolve_notes. fold note. by rewrite Hsearch, Hext. }
  split; [done|]. intros pre m post Hn Hm Hpre Hpost. rewrite Hres. cbn [fst].
  rewrite Hn at 1. rewrite re_sub_one_marker; [done|done| |done]. by rewrite <- Hn.
- intros e prs idx st <- Hs Hempty. unfold process_slide. rewrite Hs.
  destruct (resolve_notes (parse_template e) s) as [n r]. cbn in Hempty. by subst n.
Qed.

Lemma read_slide_marker_resolved_witness :
  (resolve_notes (λ _, None) slide_ab).1
  = "Intro. " +:+ ("A" +:+ newline +:+ "B") +:+ "".
Proof.
  refine (proj1 (proj2 (proj1 (read_slide_marker_resolved (λ _, None) slide_ab _)
            ("A" +:+ newline +:+ "B") _ _ _))
            "Intro. " "### Read Slide" "" _ _ _ _).
  - reflexivity.
  - reflexivity.
  - reflexivity.
  - reflexivity.
  - reflexivity.
  - reflexivity.
  - intros k Hk. cbn in Hk.
    do 7 (destruct k as [|k]; [reflexivity|]). lia.
  - reflexivity.
Defined.

(** C7, the claim as stated fails: the marker is not replaced by the bare
  concatenation of the shape texts.  With the texts [A] and [B] the
  replacement is [A], a newline, [B]. *)
Lemma marker_text_is_joined_by_newlines :
  extract_slide_text (shapes slide_ab) = Some ("A" +:+ newline +:+ "B")
  ∧ (resolve_notes (λ _, None) slide_ab).1 = "Intro. A" +:+ newline +:+ "B"
  ∧ (resolve_notes (λ _, None) slide_ab).1
    ≠ re_sub (λ _, String.concat "" ["A"; "B"]) (strip "Intro. ### Read Slide").
Proof. split; [reflexivity|]. split; [reflexivity|]. vm_compute. discriminate. Qed.

(** C8, as amended.  In a run that is not audio-only the history splits in
  two.  The first part holds the batch backup and no call of an attach
  sequence; the second part holds the attach calls and no cleanup or
  snapshot.  (1) Every slide that an attach call touches has an entry in
  the table of snapshots.  (2) A snapshot in the table was taken in the
  first part, right after the orphan cleanup of its slide, and it is the
  record of the slide of the opened deck without its orphaned effects.
  (3) A slide whose entry is [None] has no snapshot taken at all.
  (4) When the arguments pass the checks and the output folder can be
  made, a selected slide that is in the deck, with a backup that does not
  raise and the cancel flag not set at the reading before it, has its
  snapshot in the table. *)
Theorem snapshots_precede_attach (e : Env) :
  audio_only e = false →
  ∃ pre post,
    history (worker e) = pre ++ post
    ∧ Forall (λ ev, is_attach_op ev = false) pre
    ∧ Forall (λ ev, is_backup_op ev = false) post
    ∧ (∀ idx op, Com idx op ∈ post → is_Some (snaps (worker e) !! idx))
    ∧ (∀ idx snap, snaps (worker e) !! idx = Some (Some snap) →
         captured idx pre
         ∧ ∃ d0 sl, com_deck e = inl d0 ∧ Slides d0 idx = Some sl
             ∧ snap = (snapshot sl).2)
    ∧ (∀ idx, Com idx OpSnapshot ∈ history (worker e) →
         ∃ snap, snaps (worker e) !! idx = Some (Some snap))
    ∧ (∀ prs d0 i idx sl,
         valid_inputs e → pptx e = inl prs → com_deck e = inl d0 →
         select_slides (Z.of_nat (length prs)) (slide_range_spec e) !! i = Some idx →
         unset_at e i → backup_fault e idx = None → Slides d0 idx = Some sl →
         snaps (worker e) !! idx = Some (Some (snapshot sl).2)).
Proof.
  intros Hmode. unfold history.
  assert (∃ t1 l2, trace (worker e) = l2 ++ t1
            ∧ Forall (λ ev, is_attach_op ev = false) t1
            ∧ Forall (λ ev, is_backup_op ev = false
                            ∧ covered (snaps (worker e)) ev = true) l2
            ∧ (∀ idx snap, snaps (worker e) !! idx = Some (Some snap) →
                 captured idx (rev t1)
                 ∧ ∃ d0 sl, com_deck e = inl d0 ∧ Slides d0 idx = Some sl
                     ∧ snap = (snapshot sl).2)
            ∧ (∀ idx, Com idx OpSnapshot ∈ t1 →
                 ∃ snap, snaps (worker e) !! idx = Some (Some snap)))
    as (t1 & l2 & Ht & Ht1 & Hl2 & Hcap & Hev).
  { destruct (worker_structure e)
      as [(st & -> & _ & G & _ & Hs & _)
         |(prs & sel & st1 & st2 & HR & -> & _ & Gc & Hsn & _)].
    - destruct (finally_run e st) as (Gf & Hsf & _).
      assert (G' : grows closing_event [] (trace (finally e st))).
      { eapply grows_trans; [eapply grows_weaken; [|exact G]|exact Gf].
        by intros [[]| | | | |[|]]. }
      apply grows_app in G' as (l & Hl & HF). rewrite app_nil_r in Hl.
      exists [], (trace (finally e st)). rewrite app_nil_r. split; [done|].
      split; [constructor|]. rewrite Hsf, Hs. split; [|split].
      + rewrite Hl. eapply Forall_impl; [exact HF|]. by intros [[]| | | | |[|]].
      + intros idx snap. by rewrite lookup_empty.
      + by intros idx ?%elem_of_nil.
    - destruct (reaches_state e prs sel st1 HR) as (G1 & _ & _ & [(? & _)|(_ & _ & Hbk & Hent)]);
        [congruence|].
      destruct (slide_loop_run e prs sel st1) as (G & _ & Hs & _ & Hc).
      destruct (reaches_backup_inv e prs sel st1 HR) as [Hi1 Hi2].
      assert (G2 : grows (λ ev, negb (is_backup_op ev) && covered (snaps st1) ev)
                     (trace st1) (trace (worker e))).
      { eapply grows_trans; [|eapply grows_weaken; [|exact Gc]];
          [|by intros [[]| | | | |[|]]].
        destruct Hent as [Hcanc|Hent].
        - eapply grows_weaken; [|exact (Hc Hcanc)]. by intros [].
        - eapply grows_weaken; [|exact G]. intros ev.
          apply (existsb_slide_event
                   (λ ev, negb (is_backup_op ev) && covered (snaps st1) ev)).
          intros idx Hidx Hev. apply andb_true_iff. split.
          + apply slide_event_loop_event in Hev. unfold loop_event in Hev.
            by apply andb_true_iff in Hev as [? _].
          + eapply slide_event_covered; eauto. }
      apply grows_app in G2 as (l2 & Hl2 & HF2).
      exists (trace st1), l2. rewrite Hsn, Hs. split; [done|]. split; [|split; [|split]].
      + apply grows_app in G1 as (l1 & Hl1 & HF1). rewrite app_nil_r in Hl1. subst l1.
        eapply Forall_impl; [exact HF1|]. by intros [[]| | | |?[]|[|]].
      + eapply Forall_impl; [exact HF2|]. intros ev [?%negb_true_iff ?]%andb_true_iff. done.
      + intros idx snap Hsnap. split; [by eapply Hi1|].
        destruct Hbk as (d0 & Hd & Hb). destruct (Hb idx snap Hsnap) as (sl & ? & ?).
        by exists d0, sl.
      + exact Hi2. }
  exists (rev t1), (rev l2). rewrite Ht, rev_app_distr.
  split; [done|]. split; [by apply Forall_rev|]. split; [|split; [|split; [|split]]].
  - apply Forall_rev. eapply Forall_impl; [exact Hl2|]. by intros ev [? _].
  - intros idx op Hin. apply (proj1 (elem_of_rev_list _ _)) in Hin. rewrite Forall_forall in Hl2.
    destruct (Hl2 _ Hin) as [_ Hc]. cbn in Hc. by apply bool_decide_eq_true in Hc.
  - exact Hcap.
  - intros idx [Hin|Hin]%elem_of_app.
    + apply Hev. by apply (proj1 (elem_of_rev_list _ _)).
    + apply (proj1 (elem_of_rev_list _ _)) in Hin. rewrite Forall_forall in Hl2.
      by destruct (Hl2 _ Hin) as [? _].
  - intros prs d0 i idx sl Hv Hp Hd Hi Hc Hb Hsl. by eapply worker_captures.
Qed.

Lemma snapshots_precede_attach_witness :
  ∃ pre post,
    history (worker base_env) = pre ++ post
    ∧ Forall (λ ev, is_attach_op ev = false) pre
    ∧ Forall (λ ev, is_backup_op ev = false) post
    ∧ (∀ idx op, Com idx op ∈ post → is_Some (snaps (worker base_env) !! idx))
    ∧ (∀ idx snap, snaps (worker base_env) !! idx = Some (Some snap) →
         captured idx pre
         ∧ ∃ d0 sl, com_deck base_env = inl d0 ∧ Slides d0 idx = Some sl
             ∧ snap = (snapshot sl).2)
    ∧ (∀ idx, Com idx OpSnapshot ∈ history (worker base_env) →
         ∃ snap, snaps (worker base_env) !! idx = Some (Some snap))
    ∧ (∀ prs d0 i idx sl,
         valid_inputs base_env → pptx base_env = inl prs → com_deck base_env = inl d0 →
         select_slides (Z.of_nat (length prs)) (slide_range_spec base_env) !! i
         = Some idx →
         unset_at base_env i → backup_fault base_env idx = None →
         Slides d0 idx = Some sl →
         snaps (worker base_env) !! idx = Some (Some (snapshot sl).2)).
Proof. apply (snapshots_precede_attach base_env). reflexivity. Defined.

(** C8, the claim as stated fails.  First run: the backup of the only
  slide raises, so no snapshot of it is ever captured; the attach sequence
  clears its timeline and inserts the audio all the same, and the deck is
  saved in that state.  Second run: the first slide holds the effect of an
  audio shape of an earlier run; the orphan cleanup takes that effect off
  its timeline before the snapshot of the second slide is captured. *)
Lemma timeline_changes_without_snapshot :
  (let st := worker env_backup_fails in
   select_slides 1 (slide_range_spec env_backup_fails) = [1]
   ∧ snaps st !! 1 = Some None
   ∧ com_calls (history st)
     = [(1, OpDeleteVox); (1, OpClear); (1, OpAddMedia); (1, OpConfigure);
        (1, OpBasicSetup)]
   ∧ sl_timeline slideA = [eff1]
   ∧ sl_timeline <$> Slides (deck st) 1 = Some [audio_effect 2]
   ∧ saved st = deck st)
  ∧ (let st := worker env_orphan_first in
     take 4 (com_calls (history st))
     = [(1, OpCleanup); (1, OpSnapshot); (2, OpCleanup); (2, OpSnapshot)]
     ∧ sl_timeline slide_orphan = [eff1; audio_effect 7]
     ∧ sl_timeline (cleanup_orphaned_audio_effects slide_orphan) = [eff1]
     ∧ effects <$> mjoin (snaps st !! 1) = Some [eff1]).
Proof. vm_compute. done. Qed.

(** C9, as amended.  A slide of the opened deck whose backup does not
  raise, whose snapshot holds no unsafe category and whose synthesis and
  transcoding succeed, in a run that is not audio-only, with the calls of
  the attach sequence returning and the restore reporting success.  The
  snapshot holds the effects of the slide that are not orphaned, and after
  the loop body the timeline of the slide is these effects in their order
  followed by the play-audio effect of the new audio shape, the last one.
  The timeline has at most one effect more than before the run, and
  exactly one more if and only if the slide had no orphaned effect. *)
Theorem restore_round_trip (e : Env) (prs : list PptxSlide) (idx : Z) (st0 : St)
  (s : PptxSlide) (resp : Response) (rc : Z) (sl : Slide) :
Slides (deck st0) idx = Some sl →
backup_fault e idx = None →
(should_skip_audio_attachment (snapshot sl).2).1 = false →
audio_only e = false →
prs !! Z.to_nat (idx - 1) = Some s →
truthy (resolve_notes (parse_template e) s).1 = true →
loop_exit (synthesize (http e idx)) = Left (Some resp) →
status_code resp = 200 →
ffmpeg e idx = Exited rc →
restore_returns (attach_faults e idx) →
let audio_shape := fresh_id (_delete_existing_vox_audio (snapshot sl).1) in
effects (snapshot sl).2 = kept_effects sl
∧ snaps (backup_slide e idx st0) !! idx = Some (Some (snapshot sl).2)
∧ ∃ st' sl',
    process_slide e prs idx (backup_slide e idx st0) = (st', false)
    ∧ Slides (deck st') idx = Some sl'
    ∧ sl_timeline sl' = kept_effects sl ++ [audio_effect audio_shape]
    ∧ last (sl_timeline sl') = Some (audio_effect audio_shape)
    ∧ (length (sl_timeline sl') ≤ S (length (sl_timeline sl)))%nat
    ∧ (length (sl_timeline sl') = S (length (sl_timeline sl))
       ↔ Forall (λ ef, orphaned sl ef = false) (sl_timeline sl))
    ∧ saved st' = deck st'.
Proof.
intros Hsl Hb Hsafe Hmode Hs Hnote Hexit Hcode Hff Hret audio_shape.
split; [done|].
destruct (backup_slide_captures e idx st0 sl Hsl Hb) as (Hsnap & Hdeck & _).
split; [exact Hsnap|].
set (st := backup_slide e idx st0) in *.
assert (Hj : mjoin (snaps st !! idx) = Some (snapshot sl).2) by (by rewrite Hsnap).
destruct (process_slide_restores e prs idx st s resp rc _ Hs Hnote Hexit Hcode Hff Hmode Hj)
  as (st1 & -> & Hd & Hsn & _); [exact Hsafe|].
rewrite <- Hd in Hdeck. rewrite <- Hsn in Hj.
destruct (attach_restores e idx st1 _ _ Hj Hdeck Hret) as (st' & sl' & -> & Hsl' & Htl & Hsv & _).
eexists _, sl'. split; [reflexivity|]. cbn [deck saved count_processed].
split; [done|]. split; [exact Htl|]. rewrite Htl, last_snoc, length_app. cbn [length].
split; [done|].
change (effects (snapshot sl).2) with (kept_effects sl). unfold kept_effects.
pose proof (length_filter (λ ef, orphaned sl ef = false) (sl_timeline sl)) as Hle.
split; [lia|]. split; [|done].
split.
- intros Hlen. assert (length (filter (λ ef, orphaned sl ef = false) (sl_timeline sl))
                       = length (sl_timeline sl)) as Heq by lia.
  clear -Heq. induction (sl_timeline sl) as [|ef tl IH]; [constructor|].
  rewrite filter_cons in Heq. pose proof (length_filter (λ ef, orphaned sl ef = false) tl).
  destruct (decide (orphaned sl ef = false)); cbn in Heq; [|lia].
  constructor; [done|]. apply IH. lia.
- intros Hall. f_equal. rewrite Nat.add_comm. cbn. f_equal.
  f_equal. clear -Hall. induction Hall as [|ef tl Hef _ IH]; [done|].
  rewrite filter_cons_True by done. by rewrite IH.
Qed.

Lemma restore_round_trip_witness :
  let e := base_env in
  let st := backup_slide e 1 (with_pres [slideA] (initial e)) in
  effects (snapshot slideA).2 = kept_effects slideA
  ∧ snaps st !! 1 = Some (Some (snapshot slideA).2)
  ∧ ∃ st' sl',
      process_slide e [hello] 1 st = (st', false)
      ∧ Slides (deck st') 1 = Some sl'
      ∧ sl_timeline sl' = kept_effects slideA ++ [audio_effect 2]
      ∧ last (sl_timeline sl') = Some (audio_effect 2)
      ∧ (length (sl_timeline sl') ≤ S (length (sl_timeline slideA)))%nat
      ∧ (length (sl_timeline sl') = S (length (sl_timeline slideA))
         ↔ Forall (λ ef, orphaned slideA ef = false) (sl_timeline slideA))
      ∧ saved st' = deck st'.
Proof.
  intros e st.
  refine (restore_round_trip e [hello] 1 (with_pres [slideA] (initial e))
            hello ok200 0 slideA _ _ _ _ _ _ _ _ _ _);
    try reflexivity.
  repeat split; reflexivity.
Defined.

(** C9, the claim as stated fails.  A slide with two effects, none of an
  unsafe category, one of them the play-audio effect of the audio shape of
  an earlier run.  The snapshot drops that effect as orphaned, the run
  restores the other one and adds the new play-audio effect: two effects
  before, two after. *)
Lemma orphan_is_not_restored :
  let st := worker env_orphan in
  sl_timeline slide_orphan = [eff1; audio_effect 7]
  ∧ existsb (λ ef, unsafe_category (eff_category ef)) (sl_timeline slide_orphan) = false
  ∧ (should_skip_audio_attachment (snapshot slide_orphan).2).1 = false
  ∧ com_ops 1 (history st)
    = [OpCleanup; OpSnapshot; OpDeleteVox; OpClear; OpAddMedia; OpConfigure;
       OpRestore true]
  ∧ sl_timeline <$> Slides (deck st) 1 = Some [eff1; audio_effect 2]
  ∧ sl_timeline
      (restore_slide_animations true (snapshot slide_orphan).1
         (snapshot slide_orphan).2 9).1
    = [eff1; audio_effect 9].
Proof. vm_compute. done. Qed.



(** * Further properties *)

Import RunFacts.

(** ** The selector, further *)

Lemma seqZ_ascending m n : StronglySorted Z.lt (seqZ m n).
Proof.
  destruct (decide (0 ≤ n)) as [Hn|Hn]; [|rewrite seqZ_nil by lia; constructor].
  revert m. pattern n. apply natlike_ind; [| |done].
  - intros m. rewrite seqZ_nil by lia. constructor.
  - intros k Hk IH m. rewrite seqZ_cons by lia. constructor.
    + replace (Z.pred (Z.succ k)) with k by lia. apply IH.
    + apply Forall_forall. intros x Hx. apply elem_of_seqZ in Hx. lia.
Qed.

Lemma sorted_ascending (s : gset Z) : StronglySorted Z.lt (sorted s).
Proof.
  assert (Hs : StronglySorted Z.le (sorted s)).
  { unfold sorted. apply StronglySorted_merge_sort; apply _. }
  pose proof (NoDup_sorted s) as Hn.
  induction Hs as [|x l Hl IH Hx]; [constructor|].
  apply NoDup_cons in Hn as [Hnx Hn]. constructor; [by apply IH|].
  rewrite Forall_forall in *. intros y Hy.
  specialize (Hx y Hy). assert (x ≠ y) by (by intros ->). lia.
Qed.

Lemma covers_bounds total part n : covers total part n → 1 ≤ n ≤ total.
Proof. unfold covers. case_match; lia. Qed.

(** X1.  The selection is in strictly ascending order, so without duplicates,
    and holds only indices of slides of the deck. *)
Theorem select_slides_ascending (total : Z) (spec : string) :
  StronglySorted Z.lt (select_slides total spec)
  ∧ ∀ n, n ∈ select_slides total spec → 1 ≤ n ≤ total.
Proof.
  unfold select_slides. case_match.
  - split; [apply seqZ_ascending|]. intros n Hn%elem_of_seqZ. lia.
  - split; [apply sorted_ascending|]. intros n.
    rewrite elem_of_sorted, elem_of_foldl_add_token.
    intros [?%not_elem_of_empty|(part & _ & Hc)]; [done|]. by eapply covers_bounds.
Qed.

Lemma split_app sep (a b : string) :
  split sep (a +:+ String sep b) = split sep a ++ split sep b.
Proof.
  induction a as [|c a IH].
  - cbn [split]. rewrite app_empty. cbn [split]. by rewrite Ascii.eqb_refl.
  - rewrite app_cons. cbn [split]. destruct (Ascii.eqb c sep); [by rewrite IH|].
    rewrite IH. destruct (split sep a) eqn:E; [|done].
    by destruct a; cbn in E; repeat case_match.
Qed.

Lemma tokens_app (a b : string) : tokens (a +:+ "," +:+ b) = tokens a ++ tokens b.
Proof.
  unfold tokens. change ("," +:+ b) with (String ","%char b).
  by rewrite split_app, filter_app, fmap_app.
Qed.

Lemma lstrip_lstrip s : lstrip (lstrip s) = lstrip s.
Proof.
  induction s as [|c s IH]; [done|]. cbn [lstrip].
  destruct (is_space c) eqn:E; [done|]. cbn [lstrip]. by rewrite E.
Qed.

Lemma truthy_rstrip s : truthy (rstrip s) = truthy (lstrip s).
Proof.
  induction s as [|c s IH]; [done|]. cbn [lstrip rstrip].
  destruct (rstrip s) eqn:E, (is_space c); cbn in *; try done.
Qed.

Lemma truthy_strip s : truthy (strip s) = truthy (lstrip s).
Proof. unfold strip. by rewrite truthy_rstrip, lstrip_lstrip. Qed.

Lemma truthy_lstrip_app s t :
  truthy (lstrip (s +:+ t)) = truthy (lstrip s) || truthy (lstrip t).
Proof.
  induction s as [|c s IH]; [done|]. rewrite app_cons. cbn [lstrip].
  by destruct (is_space c).
Qed.

(** X2.  Joining two selections with a comma selects the union. *)
Theorem select_slides_comma (total : Z) (a b : string) (n : Z) :
  truthy (strip a) = true → truthy (strip b) = true →
  n ∈ select_slides total (a +:+ "," +:+ b)
  ↔ n ∈ select_slides total a ∨ n ∈ select_slides total b.
Proof.
  intros Ha Hb. unfold select_slides.
  assert (Hab : truthy (strip (a +:+ "," +:+ b)) = true).
  { rewrite truthy_strip, truthy_lstrip_app, <- truthy_strip, Ha. done. }
  rewrite Ha, Hb, Hab. cbn [negb].
  rewrite !elem_of_sorted, !elem_of_foldl_add_token, tokens_app.
  setoid_rewrite elem_of_app. set_solver.
Qed.

Lemma select_slides_comma_witness :
  4 ∈ select_slides 10 ("1-2" +:+ "," +:+ "4")
  ↔ 4 ∈ select_slides 10 "1-2" ∨ 4 ∈ select_slides 10 "4".
Proof. apply (select_slides_comma 10 "1-2" "4" 4); reflexivity. Defined.

(** X3.  Order and repetition of the tokens do not matter. *)
Theorem select_slides_token_set (total : Z) (spec spec' : string) :
  truthy (strip spec) = true → truthy (strip spec') = true →
  (∀ part, part ∈ tokens spec ↔ part ∈ tokens spec') →
  select_slides total spec = select_slides total spec'.
Proof.
  intros H1 H2 Ht. unfold select_slides. rewrite H1, H2. cbn [negb]. f_equal.
  apply set_eq. intros n. rewrite !elem_of_foldl_add_token. set_solver.
Qed.

Lemma select_slides_token_set_witness :
  select_slides 9 "5, 2-3 ,5" = select_slides 9 "2-3,5".
Proof.
  apply (select_slides_token_set 9 "5, 2-3 ,5" "2-3,5"); [reflexivity..|].
  intros part. vm_compute tokens. set_solver.
Defined.

(** ** Audio-only runs *)

Lemma idle_emit ev st : touches_deck ev = false → idle st → idle (emit ev st).
Proof.
  intros Hev (? & ? & ? & ? & ?). repeat split; try done. by constructor.
Qed.

Lemma idle_log m st : idle st → idle (log m st).
Proof. by apply idle_emit. Qed.

Lemma idle_count st : idle st → idle (count_processed st).
Proof. done. Qed.

Lemma idle_files f st : idle st → idle (with_files f st).
Proof. done. Qed.

Lemma idle_resolution r st : idle st → idle (log_resolution r st).
Proof. destruct r; cbn [log_resolution]; auto using idle_log. Qed.

Lemma idle_net idx evs st : idle st → idle (emits (Net idx <$> evs) st).
Proof.
  revert st. induction evs as [|ev evs IH]; intros st H; [done|].
  cbn. apply IH. by apply idle_emit.
Qed.

Lemma idle_is_set e st : idle st → idle (is_set e st).2.
Proof. done. Qed.

Ltac idle_step :=
  lazymatch goal with
  | |- idle (count_processed _) => apply idle_count
  | |- idle (log _ _) => apply idle_log
  | |- idle (with_files _ _) => apply idle_files
  | |- idle (emit (Transcode _ _) _) => apply idle_emit; [reflexivity|]
  | |- idle (msgbox _ _ _ _) => apply idle_emit; [reflexivity|]
  | |- idle (log_resolution _ _) => apply idle_resolution
  | |- idle (emits _ _) => apply idle_net
  | |- idle (is_set _ _).2 => apply idle_is_set
  end.

Lemma process_slide_idle e prs idx st :
  audio_only e = true → idle st → idle (process_slide e prs idx st).1.
Proof.
  intros Hmode Hst. unfold process_slide.
  repeat case_match; try congruence; cbn [fst]; repeat idle_step; done.
Qed.

Lemma slide_loop_idle e prs sel st :
  audio_only e = true → idle st → idle (slide_loop e prs sel st).1.
Proof.
  intros Hmode. revert st. induction sel as [|idx rest IH]; intros st Hst; [done|].
  cbn [slide_loop]. destruct (is_set e st) as [c st1] eqn:E.
  assert (Hst1 : idle st1) by (by replace st1 with (is_set e st).2 by (by rewrite E)).
  destruct c; [by apply idle_log|].
  pose proof (process_slide_idle e prs idx st1 Hmode Hst1) as H.
  destruct (process_slide e prs idx st1) as [st2 [|]]; cbn [fst] in *; auto.
Qed.

Lemma idle_initial e : idle (initial e).
Proof. repeat split. constructor. Qed.

Lemma report_idle e st : idle st → idle (report e st).
Proof.
  intros H. unfold report. destruct (is_set e st) as [c st1] eqn:E.
  assert (Hst1 : idle st1) by (by replace st1 with (is_set e st).2 by (by rewrite E)).
  destruct c; cbn [negb]; [by repeat idle_step|].
  destruct (audio_only e); by repeat idle_step.
Qed.

Lemma worker_body_idle e :
  audio_only e = true → idle (worker_body e (initial e)).1.
Proof.
  intros Hmode. pose proof (idle_initial e) as Hi. unfold worker_body.
  repeat case_match; cbn [fst]; repeat idle_step; try done.
  all: unfold prepare in *; rewrite Hmode in *; simplify_eq.
  all: lazymatch goal with
       | H : slide_loop ?e ?prs ?sel ?st = (?st2, _) |- _ =>
           assert (idle st2) as Hst2
             by (replace st2 with (slide_loop e prs sel st).1 by (by rewrite H);
                 apply slide_loop_idle; [done|]; by repeat idle_step)
       end.
  - done.
  - by apply report_idle.
Qed.

(** X4.  In audio-only mode the presentation is never opened through COM:
    no COM call, no save, no snapshot. *)
Theorem audio_only_leaves_deck_alone (e : Env) :
  audio_only e = true →
  let st := worker e in
  pres_open st = false ∧ deck st = [] ∧ saved st = [] ∧ snaps st = ∅
  ∧ Forall (λ ev, touches_deck ev = false) (history st).
Proof.
  intros Hmode st. subst st. unfold worker.
  pose proof (worker_body_idle e Hmode) as H.
  destruct (worker_body e (initial e)) as [st ending]. cbn [fst] in H.
  assert (H' : idle (match ending with Escaped => log LFatal st | _ => st end)).
  { destruct ending; auto using idle_log. }
  unfold finally. rewrite Hmode.
  destruct H' as (? & ? & ? & ? & ?). repeat split; try done.
  unfold history. by apply Forall_rev.
Qed.

Lemma audio_only_leaves_deck_alone_witness :
  let st := worker env_transcode_fails in
  pres_open st = false ∧ deck st = [] ∧ saved st = [] ∧ snaps st = ∅
  ∧ Forall (λ ev, touches_deck ev = false) (history st).
Proof. apply (audio_only_leaves_deck_alone env_transcode_fails). reflexivity. Defined.

(** ** Counting *)

Lemma counted_refl st : counted 0 [] st st.
Proof. unfold counted. rewrite app_nil_r. split; [lia|done]. Qed.

Lemma counted_log m n g st st' :
  counted n g st st' →
  counted n (g ++ match m with LGenerating i => [i] | _ => [] end) st (log m st').
Proof.
  intros (Hp & Hq & Hg). repeat split; [done..|].
  by rewrite generated_log, Hg, app_assoc.
Qed.

Lemma counted_silent n g st st' st'' :
  processed st'' = processed st' → polls st'' = polls st' →
  generated (history st'') = generated (history st') →
  counted n g st st' → counted n g st st''.
Proof. intros H1 H2 H3 (Hp & Hq & Hg). unfold counted. by rewrite H1, H2, H3. Qed.

Lemma counted_count n g st st' :
  counted n g st st' → counted (n + 1) g st (count_processed st').
Proof. intros (Hp & Hq & Hg). repeat split; [|done..]. cbn. lia. Qed.

Lemma counted_files f n g st st' :
  counted n g st st' → counted n g st (with_files f st').
Proof. done. Qed.

Lemma counted_transcode i out n g st st' :
  counted n g st st' → counted n g st (emit (Transcode i out) st').
Proof.
  apply counted_silent; [done..|]. rewrite generated_emit. apply app_nil_r.
Qed.

Lemma counted_resolution r n g st st' :
  counted n g st st' → counted n g st (log_resolution r st').
Proof.
  apply counted_silent; [by destruct r..|apply generated_resolution].
Qed.

Lemma counted_net idx evs n g st st' :
  counted n g st st' → counted n g st (emits (Net idx <$> evs) st').
Proof.
  destruct (emits_fields (Net idx <$> evs) st') as (_ & _ & _ & _ & _ & ? & ?).
  apply counted_silent; [done..|apply generated_net].
Qed.

Lemma counted_attach e idx n g st st' :
  counted n g st st' → counted n g st (attach_audio e idx st').
Proof.
  destruct (attach_audio_frame e idx st') as (_ & _ & _ & _ & ? & ? & _).
  apply counted_silent; [done..|apply generated_attach].
Qed.

Ltac counted_step :=
  lazymatch goal with
  | |- counted _ _ _ (count_processed _) => eapply counted_count
  | |- counted _ _ _ (log _ _) => eapply counted_log
  | |- counted _ _ _ (with_files _ _) => eapply counted_files
  | |- counted _ _ _ (emit (Transcode _ _) _) => eapply counted_transcode
  | |- counted _ _ _ (log_resolution _ _) => eapply counted_resolution
  | |- counted _ _ _ (emits _ _) => eapply counted_net
  | |- counted _ _ _ (attach_audio _ _ _) => eapply counted_attach
  | |- counted _ _ ?st ?st => eapply counted_refl
  end.

(** One turn of the loop body counts the slide unless an exception leaves
    it, begins the generation of at most that slide, and does not read the
    cancel flag. *)
Lemma process_slide_counted e prs idx st :
  ∃ n g, counted n g st (process_slide e prs idx st).1
         ∧ n = (if (process_slide e prs idx st).2 then 0 else 1)
         ∧ (g = [] ∨ g = [idx]).
Proof.
  set (Q := λ r : St * bool,
         ∃ n g, counted n g st r.1 ∧ n = (if r.2 then 0 else 1)
                ∧ (g = [] ∨ g = [idx])).
  change (Q (process_slide e prs idx st)). unfold process_slide.
  repeat case_match; subst Q; cbn [fst snd]; eexists _, _;
    (split; [repeat counted_step|]); cbn; auto.
Qed.

Lemma counted_trans n1 g1 n2 g2 st1 st2 st3 :
  counted n1 g1 st1 st2 → counted n2 g2 st2 st3 →
  counted (n1 + n2) (g1 ++ g2) st1 st3.
Proof.
  intros (Hp & Hq & Hg) (Hp' & Hq' & Hg'). repeat split; [lia|congruence|].
  by rewrite Hg', Hg, app_assoc.
Qed.

(** The loop over the slides: what is counted, what is begun, and how
    often the flag is read. *)
Lemma slide_loop_counted e prs sel st :
  let r := slide_loop e prs sel st in
  ∃ g, generated (history r.1) = generated (history st) ++ g
       ∧ g `sublist_of` sel
       ∧ 0 ≤ processed r.1 - processed st ≤ Z.of_nat (length sel)
       ∧ (cancel_at e = None → r.2 = false →
          processed r.1 = processed st + Z.of_nat (length sel))
       ∧ (∀ k, cancel_at e = Some k →
            (length (generated (history st)) ≤ polls st)%nat →
            (length (generated (history st)) ≤ k)%nat →
            (length (generated (history r.1)) ≤ polls r.1)%nat
            ∧ (length (generated (history r.1)) ≤ k)%nat).
Proof.
  revert st. induction sel as [|idx rest IH]; intros st; cbn zeta.
  { exists []. cbn [slide_loop fst snd length]. rewrite app_nil_r.
    repeat split; try done; lia. }
  cbn [slide_loop]. destruct (is_set e st) as [c st1] eqn:E.
  assert (st1 = (is_set e st).2) as Hst1 by (by rewrite E).
  assert (c = (is_set e st).1) as Hc by (by rewrite E).
  assert (Hg1 : generated (history st1) = generated (history st)) by (by subst st1).
  assert (Hp1 : processed st1 = processed st) by (by subst st1).
  assert (Hq1 : polls st1 = S (polls st)) by (by subst st1).
  destruct c.
  { exists []. cbn [fst snd]. rewrite generated_log, !app_nil_r, Hg1.
    cbn [processed log emit length]. rewrite Hp1.
    split; [done|]. split; [apply sublist_nil_l|]. split; [lia|]. split.
    - intros Hk. unfold is_set in Hc. cbn in Hc. by rewrite Hk in Hc.
    - intros k Hk H1 H2. cbn [polls log emit]. lia. }
  destruct (process_slide_counted e prs idx st1) as (n & g & (Hp & Hq & Hg) & Hn & Hgi).
  destruct (process_slide e prs idx st1) as [st2 b]. cbn [fst snd] in *.
  destruct b.
  { exists g. cbn [fst snd length]. rewrite Hg, Hg1.
    split; [done|]. split.
    { destruct Hgi as [-> | ->]; [apply sublist_nil_l|]. by apply sublist_skip, sublist_nil_l. }
    split; [lia|]. split; [done|].
    intros k Hk H1 H2. unfold is_set in Hc. cbn in Hc. rewrite Hk in Hc.
    symmetry in Hc. apply Nat.leb_gt in Hc. rewrite length_app.
    destruct Hgi as [-> | ->]; cbn [length]; lia. }
  destruct (IH st2) as (g' & Hg' & Hsub & Hb & Hall & Hcan). cbn zeta in *.
  exists (g ++ g'). rewrite Hg', Hg, Hg1, <- app_assoc. split; [done|]. split.
  { destruct Hgi as [-> | ->]; cbn; [by apply sublist_cons|by apply sublist_skip]. }
  cbn [length]. split; [lia|]. split.
  { intros Hk Hr. rewrite (Hall Hk Hr). lia. }
  intros k Hk H1 H2. rewrite app_assoc, <- Hg1, <- Hg, <- Hg'. apply (Hcan k Hk).
  - unfold is_set in Hc. cbn in Hc. rewrite Hk in Hc.
    symmetry in Hc. apply Nat.leb_gt in Hc. rewrite Hg, Hg1, length_app.
    destruct Hgi as [-> | ->]; cbn [length]; lia.
  - unfold is_set in Hc. cbn in Hc. rewrite Hk in Hc.
    symmetry in Hc. apply Nat.leb_gt in Hc. rewrite Hg, Hg1, length_app.
    destruct Hgi as [-> | ->]; cbn [length]; lia.
Qed.

Lemma generated_closing st st' :
  grows closing_event (trace st) (trace st') →
  generated (history st') = generated (history st).
Proof. apply generated_grows. by intros [[]| | | | |[|]]. Qed.

Lemma Reaches_inv e prs sel st1 :
  Reaches e prs sel st1 →
  pptx e = inl prs
  ∧ sel = select_slides (Z.of_nat (length prs)) (slide_range_spec e).
Proof. by intros [? ? _ _]. Qed.

(** X5.  The slides whose generation begins are selected slides, begun in the
    order of the selection and each at most once; the counter never
    exceeds the size of the selection, and reaches it in a run that comes
    to its end without cancellation. *)
Theorem every_selected_slide_is_counted (e : Env) (prs : list PptxSlide) :
  pptx e = inl prs →
  let sel := select_slides (Z.of_nat (length prs)) (slide_range_spec e) in
  let st := worker e in
  generated (history st) `sublist_of` sel
  ∧ 0 ≤ processed st ≤ Z.of_nat (length sel)
  ∧ ((worker_body e (initial e)).2 = Finished → cancel_at e = None →
     processed st = Z.of_nat (length sel)).
Proof.
  intros Hprs sel st. subst st.
  destruct (worker_structure e)
    as [(st & -> & Hend & G & _ & _ & Hp & _)
       |(prs' & sel' & st1 & st2 & HR & -> & Hend & Gc & _ & _ & _ & Hp)].
  - destruct (finally_run e st) as (Gf & _ & _ & _ & Hpf).
    rewrite Hpf, Hp, (generated_closing _ _ Gf).
    unfold history. rewrite (generated_setup early_event) by (done || by intros [[]| | | | |[|]]).
    split; [apply sublist_nil_l|]. split; [lia|].
    destruct Hend as [Hend|(Hend & _)]; congruence.
  - destruct (Reaches_inv _ _ _ _ HR) as (Hprs' & Hsel).
    assert (prs' = prs) as -> by congruence. fold sel in Hsel. subst sel'.
    destruct (reaches_state _ _ _ _ HR) as (G1 & _ & Hp1 & _).
    destruct (slide_loop_counted e prs sel st1) as (g & Hg & Hsub & Hb & Hall & _).
    cbn zeta in *. rewrite Hp, (generated_closing _ _ Gc), Hg.
    unfold history at 1.
    rewrite (generated_setup setup_event) by (done || by intros [[]| | | |?[]|[|]]).
    split; [done|]. split; [lia|]. intros Hfin Hk. rewrite Hall; [lia|done|].
    destruct (worker_cases e)
      as [(? & [Hw|(Hw & _)] & _)|(prs2 & sel2 & st3 & HR2 & Hw)].
    { rewrite Hw in Hfin. done. }
    { rewrite Hw in Hfin. done. }
    destruct (Reaches_inv _ _ _ _ HR2) as (Hprs2 & ->).
    assert (prs2 = prs) as -> by congruence. fold sel in HR2, Hw.
    assert (st3 = st1) as ->.
    { destruct HR as [_ _ _ H1], HR2 as [_ _ _ H2]. rewrite Hprs in *.
      simplify_eq. congruence. }
    rewrite Hw in Hfin. by destruct (slide_loop e prs sel st1) as [? []].
Qed.

Lemma every_selected_slide_is_counted_witness :
  let sel := select_slides (Z.of_nat (length [hello; no_notes])) (slide_range_spec two_slides_env) in
  let st := worker two_slides_env in
  generated (history st) `sublist_of` sel
  ∧ 0 ≤ processed st ≤ Z.of_nat (length sel)
  ∧ ((worker_body two_slides_env (initial two_slides_env)).2 = Finished →
     cancel_at two_slides_env = None →
     processed st = Z.of_nat (length sel)).
Proof. apply (every_selected_slide_is_counted two_slides_env [hello; no_notes]). reflexivity. Defined.

(** X6.  Once the cancel flag is up from its [k]-th reading on, the generation
    of at most [k] slides begins. *)
Theorem cancellation_stops_generation (e : Env) (k : nat) :
  cancel_at e = Some k →
  (length (generated (history (worker e))) ≤ k)%nat.
Proof.
  intros Hk.
  destruct (worker_structure e)
    as [(st & -> & Hend & G & _)
       |(prs & sel & st1 & st2 & HR & -> & Hend & Gc & _)].
  - destruct (finally_run e st) as (Gf & _).
    rewrite (generated_closing _ _ Gf). unfold history.
    rewrite (generated_setup early_event) by (done || by intros [[]| | | | |[|]]).
    cbn. lia.
  - destruct (reaches_state _ _ _ _ HR) as (G1 & _).
    destruct (slide_loop_counted e prs sel st1) as (g & _ & _ & _ & _ & Hcan).
    cbn zeta in *. rewrite (generated_closing _ _ Gc).
    apply (Hcan k Hk); unfold history;
      rewrite (generated_setup setup_event) by (done || by intros [[]| | | |?[]|[|]]);
      cbn; lia.
Qed.

(** ** Dialogs and early returns *)

Lemma dialogs_grows (q : Event → bool) st st' :
  (∀ ev, q ev = true → box_of ev = None) →
  grows q (trace st) (trace st') → dialogs st' = dialogs st.
Proof. intros Hq G. unfold dialogs, history. by eapply grows_omap. Qed.

Lemma dialogs_log m st : dialogs (log m st) = dialogs st.
Proof. unfold dialogs, history. cbn. rewrite omap_app. cbn. apply app_nil_r. Qed.

Lemma dialogs_msgbox k t b st : dialogs (msgbox k t b st) = dialogs st ++ [(t, b)].
Proof. unfold dialogs, history. cbn. by rewrite omap_app. Qed.

Lemma dialogs_backup_loop e sel st : dialogs (backup_loop e sel st) = dialogs st.
Proof.
  destruct (backup_loop_run e sel st) as (G & _).
  eapply dialogs_grows; [|exact G]. by intros [[]| | | |?[]|[|]].
Qed.

Lemma dialogs_slide_loop e prs sel st :
  dialogs (slide_loop e prs sel st).1 = dialogs st.
Proof.
  destruct (slide_loop_run e prs sel st) as (G & _).
  eapply dialogs_grows; [|exact G]. intros ev H. destruct ev; try done.
  apply existsb_exists in H as (? & _ & ?). done.
Qed.

(** A run that returns early has shown exactly one dialog, and the run
    did nothing else than log. *)
Lemma worker_body_returned e :
  (worker_body e (initial e)).2 = Returned →
  length (dialogs (worker_body e (initial e)).1) = 1%nat.
Proof.
  unfold worker_body, prepare.
  repeat case_match; cbn [fst snd]; intros ?; try done; simplify_eq;
    rewrite ?dialogs_msgbox, ?dialogs_log; try done.
  all: try (by destruct (slide_loop _ _ _ _) as [? []]).
Qed.

(** X7.  Every run shows one dialog, except the run that an exception ends:
    that one leaves the line of the fatal error in the log and shows
    nothing. *)
Theorem one_dialog_unless_fatal (e : Env) :
  match (worker_body e (initial e)).2 with
  | Escaped => dialogs (worker e) = [] ∧ Log LFatal ∈ history (worker e)
  | Returned | Finished => length (dialogs (worker e)) = 1%nat
  end.
Proof.
  pose proof (worker_body_returned e) as Hret.
  unfold worker. destruct (worker_cases e)
    as [(st & [Hw|(Hw & -> & _)] & _)|(prs & sel & st1 & HR & Hw)].
  - rewrite Hw in *. cbn [fst snd] in *. rewrite finally_no_box. by apply Hret.
  - rewrite Hw. cbn [fst snd]. rewrite finally_no_box, dialogs_log. split; [done|].
    destruct (finally_run e (log LFatal (initial e))) as (G & _).
    apply grows_app in G as (l & Hl & _).
    unfold history. rewrite Hl. apply list_elem_of_In, in_rev, list_elem_of_In.
    rewrite rev_involutive. apply elem_of_app. right. by left.
  - clear Hret. rewrite Hw.
    destruct (reaches_state _ _ _ _ HR) as (G1 & _).
    assert (Hd1 : dialogs st1 = []).
    { unfold dialogs, history.
      rewrite (grows_omap box_of setup_event [] (trace st1)); [done| |done].
      by intros [[]| | | |?[]|[|]]. }
    pose proof (dialogs_slide_loop e prs sel st1) as Hd2. rewrite Hd1 in Hd2.
    destruct (slide_loop e prs sel st1) as [st2 [|]]; cbn [fst snd] in *.
    + rewrite finally_no_box, dialogs_log. split; [done|].
      destruct (finally_run e (log LFatal st2)) as (G & _).
      apply grows_app in G as (l & Hl & _).
      unfold history. rewrite Hl. apply list_elem_of_In, in_rev, list_elem_of_In.
      rewrite rev_involutive. apply elem_of_app. right. by left.
    + rewrite finally_no_box.
      destruct (dialogs_report e st2 Hd2) as [[_ ->]|[[_ ->]|[_ ->]]]; done.
Qed.

(** X8.  A run with a blank key, a blank voice, a missing deck or no ffmpeg
    ends at the validation: it logs, shows one error dialog and does
    nothing else.  No request is posted, no file written, no slide
    counted, and PowerPoint is not opened. *)
Theorem invalid_input_stops_the_run (e : Env) :
  truthy (strip (api_key e)) = false ∨ truthy (strip (voice_id e)) = false
  ∨ input_is_file e = false ∨ ffmpeg_available e = false →
  let st := worker e in
  (∃ m title body, history st = [Log m; MsgBox ShowError title body]
                   ∧ is_error_line m = true)
  ∧ files st = files0 e ∧ processed st = 0 ∧ pres_open st = false.
Proof.
  intros H st. subst st. unfold worker, worker_body.
  destruct (truthy (strip (api_key e))); cbn [negb].
  2: { unfold finally. cbn. destruct (audio_only e); cbn; eauto 10. }
  destruct (truthy (strip (voice_id e))); cbn [negb].
  2: { unfold finally. cbn. destruct (audio_only e); cbn; eauto 10. }
  destruct (input_is_file e); cbn [negb].
  2: { unfold finally. cbn. destruct (audio_only e); cbn; eauto 10. }
  destruct (ffmpeg_available e); cbn [negb].
  2: { unfold finally. cbn. destruct (audio_only e); cbn; eauto 10. }
  naive_solver.
Qed.

Lemma invalid_input_stops_the_run_witness :
  let st := worker (with_api_key "  " base_env) in
  (∃ m title body, history st = [Log m; MsgBox ShowError title body]
                   ∧ is_error_line m = true)
  ∧ files st = files0 (with_api_key "  " base_env) ∧ processed st = 0
  ∧ pres_open st = false.
Proof.
  apply (invalid_input_stops_the_run (with_api_key "  " base_env)).
  left. reflexivity.
Defined.

Lemma cancellation_stops_generation_witness :
  (length (generated (history (worker (cancel_after 1 two_slides_env)))) ≤ 1)%nat.
Proof.
  apply (cancellation_stops_generation (cancel_after 1 two_slides_env) 1). reflexivity.
Defined.

(** ** Synthesis failures that last *)

Lemma server_error_not_ok (r : Response) :
  (500 <=? status_code r) && (status_code r <? 600) = true →
  (status_code r =? 200) = false.
Proof. intros [?%Z.leb_le _]%andb_true_iff. apply Z.eqb_neq. lia. Qed.

Lemma synthesize_exhausted (http : nat → HttpOutcome) :
  (∀ k, (1 ≤ k ≤ 3)%nat → retryable (http k) = true) →
  synthesize http
  = {| attempts := 3;
       loop_exit := match http 3%nat with
                    | Responded r => Left (Some r)
                    | RequestException => Reraised
                    end;
       net_events := [Post 1; Sleep (backoff 1); Post 2; Sleep (backoff 2); Post 3] |}.
Proof.
  intros H.
  pose proof (H 1%nat ltac:(lia)) as H1. pose proof (H 2%nat ltac:(lia)) as H2.
  pose proof (H 3%nat ltac:(lia)) as H3.
  unfold synthesize, NET_MAX_ATTEMPTS. cbn [post_loop].
  unfold NET_MAX_ATTEMPTS. cbn [Nat.ltb Nat.leb]. rewrite ?andb_true_r, ?andb_false_r.
  destruct (http 1%nat) as [r1|], (http 2%nat) as [r2|], (http 3%nat) as [r3|];
    cbn in H1, H2, H3;
    repeat match goal with
           | Hx : (500 <=? status_code ?r) && _ = true |- _ =>
               rewrite ?(server_error_not_ok r Hx), ?Hx; clear Hx
           end; reflexivity.
Qed.

(** X9.  When each of the three posts for a slide fails with a 5xx answer or a
    [RequestException], the loop posts three times, sleeps 0.75 s and
    1.5 s in between, and gives up: the slide gets an error line (the
    answer to the third post, or the network error when that post
    raised), is counted, and the loop goes on.  Nothing is written and the
    deck is not touched. *)
Theorem persistent_failure_is_reported (e : Env) (prs : list PptxSlide) (idx : Z)
    (rest : list Z) (st : St) (s : PptxSlide) :
  (is_set e st).1 = false →
  prs !! Z.to_nat (idx - 1) = Some s →
  truthy (resolve_notes (parse_template e) s).1 = true →
  (∀ k, (1 ≤ k ≤ 3)%nat → retryable (http e idx k) = true) →
  ∃ st' logs,
    slide_loop e prs (idx :: rest) st = slide_loop e prs rest st'
    ∧ trace st'
      = Log (match http e idx 3%nat with
             | Responded r => LApiError idx (pretty_api_error r)
             | RequestException => LNetworkError idx
             end)
        :: (Net idx <$> [Post 3; Sleep (backoff 2); Post 2; Sleep (backoff 1); Post 1])
        ++ logs ++ trace st
    ∧ Forall is_log logs
    ∧ (backoff 1 == 0.75)%Q ∧ (backoff 2 == 1.5)%Q
    ∧ processed st' = processed st + 1
    ∧ deck st' = deck st ∧ saved st' = saved st ∧ files st' = files st.
Proof.
  intros Hc Hs Hnote Hfail.
  cbn [slide_loop]. destruct (is_set e st) as [c st1] eqn:Eset. simpl in Hc. subst c.
  assert (st1 = (is_set e st).2) as Hst1 by (by rewrite Eset).
  unfold process_slide. rewrite Hs.
  destruct (resolve_notes (parse_template e) s) as [note res]. simpl in Hnote.
  rewrite Hnote. cbn [negb].
  rewrite (synthesize_exhausted _ Hfail). cbn [loop_exit net_events attempts].
  destruct (log_resolution_trace res st1) as (logs & Ht & Hl & Hp & Hd & Hsv & Hf & _).
  pose proof (Hfail 3%nat ltac:(lia)) as H3.
  destruct (http e idx 3%nat) as [r3|]; cbn in H3;
    [rewrite (server_error_not_ok r3 H3)|];
    (eexists _, (_ :: _ :: logs); split; [reflexivity|]); cbn;
    rewrite Ht, Hp, Hd, Hsv, Hf; subst st1; cbn;
    (split; [done|]);
    (split; [repeat (constructor; [done|]);
             eapply Forall_impl; [exact Hl|]; by intros [[]| | | | |]|]);
    repeat split; reflexivity.
Qed.

Lemma persistent_failure_is_reported_witness :
  let e := with_http (λ _ _, RequestException) base_env in
  ∃ st' logs,
    slide_loop e [hello] [1] (initial e) = slide_loop e [hello] [] st'
    ∧ trace st'
      = Log (LNetworkError 1)
        :: (Net 1 <$> [Post 3; Sleep (backoff 2); Post 2; Sleep (backoff 1); Post 1])
        ++ logs ++ trace (initial e)
    ∧ Forall is_log logs
    ∧ (backoff 1 == 0.75)%Q ∧ (backoff 2 == 1.5)%Q
    ∧ processed st' = processed (initial e) + 1
    ∧ deck st' = deck (initial e) ∧ saved st' = saved (initial e)
    ∧ files st' = files (initial e).
Proof.
  intros e.
  apply (persistent_failure_is_reported e [hello] 1 [] (initial e) hello);
    reflexivity.
Defined.

(** ** Slides that are not attached *)

(** X10.  A slide whose snapshot asks for the skip gets its audio file, three
    log lines and its count, and nothing else: no COM call, no save, the
    deck as it was. *)
Theorem flagged_snapshot_skips_attachment (e : Env) (prs : list PptxSlide) (idx : Z)
    (st : St) (s : PptxSlide) (resp : Response) (rc : Z) (snap : Snapshot) :
  audio_only e = false →
  prs !! Z.to_nat (idx - 1) = Some s →
  truthy (resolve_notes (parse_template e) s).1 = true →
  loop_exit (synthesize (http e idx)) = Left (Some resp) →
  status_code resp = 200 →
  ffmpeg e idx = Exited rc →
  snaps st !! idx = Some (Some snap) →
  (should_skip_audio_attachment snap).1 = true →
  ∃ st' new,
    process_slide e prs idx st = (st', false)
    ∧ trace st' = new ++ trace st
    ∧ Forall (λ ev, touches_deck ev = false) new
    ∧ Transcode idx (Exited rc) ∈ new
    ∧ Log (LSkipAttach idx) ∈ new
    ∧ deck st' = deck st ∧ saved st' = saved st ∧ snaps st' = snaps st
    ∧ processed st' = processed st + 1.
Proof.
  intros Hmode Hs Hnote Hexit Hcode Hff Hsnap Hskip.
  unfold process_slide. rewrite Hs.
  destruct (resolve_notes (parse_template e) s) as [note res]. simpl in Hnote.
  rewrite Hnote. cbn [negb]. rewrite Hexit, Hcode, Hff, Hmode. cbn [Z.eqb Pos.eqb].
  destruct (emits_fields (Net idx <$> net_events (synthesize (http e idx)))
              (log (LTextHash (str_take 8 (sha256_hex e note)))
                 (log (LGenerating idx) (log_resolution res st))))
    as (Hd & Hsv & _ & _ & Hsn & Hp & _).
  destruct (log_resolution_trace res st) as (logs & Ht & Hl & Hp' & Hd' & Hsv' & _ & Hsn' & _).
  cbn [snaps emit log with_files]. rewrite Hsn. cbn [snaps emit log]. rewrite Hsn', Hsnap.
  cbn [mjoin option_join].
  destruct (should_skip_audio_attachment snap) as [skip reason]. cbn in Hskip. subst skip.
  eexists _, (_ :: _ :: _ :: _ :: _ :: _ :: rev _ ++ _ :: _ :: logs).
  split; [reflexivity|].
  cbn [trace deck saved snaps processed count_processed log emit with_files].
  rewrite emits_trace. cbn [trace log emit]. rewrite Ht, Hd, Hsv, Hsn, Hp.
  cbn [deck saved snaps processed log emit]. rewrite Hd', Hsv', Hsn', Hp'.
  split.
  { cbn [app]. by rewrite <- app_assoc. }
  split.
  { repeat (constructor; [done|]). apply Forall_app. split.
    - apply Forall_rev, Forall_fmap, Forall_forall. done.
    - repeat (constructor; [done|]).
      eapply Forall_impl; [exact Hl|]. by intros [[]| | | | |]. }
  split; [set_solver|]. split; [set_solver|]. done.
Qed.

Lemma flagged_snapshot_skips_attachment_witness :
  let st := with_snaps {[ 1 := Some {| effects := [eff1]; has_unsafe := true |} ]}
              (with_pres [slideA] (initial base_env)) in
  ∃ st' new,
    process_slide base_env [hello] 1 st = (st', false)
    ∧ trace st' = new ++ trace st
    ∧ Forall (λ ev, touches_deck ev = false) new
    ∧ Transcode 1 (Exited 0) ∈ new
    ∧ Log (LSkipAttach 1) ∈ new
    ∧ deck st' = deck st ∧ saved st' = saved st ∧ snaps st' = snaps st
    ∧ processed st' = processed st + 1.
Proof.
  intros st.
  apply (flagged_snapshot_skips_attachment base_env [hello] 1 st hello ok200 0
           {| effects := [eff1]; has_unsafe := true |}); reflexivity.
Defined.

(** ** The manifest files and the rest of the run *)

Lemma store_log m f st : log m (with_files f st) = with_files f (log m st).
Proof. done. Qed.

Lemma store_emit ev f st : emit ev (with_files f st) = with_files f (emit ev st).
Proof. done. Qed.

Lemma store_msgbox k t b f st :
  msgbox k t b (with_files f st) = with_files f (msgbox k t b st).
Proof. done. Qed.

Lemma store_count f st :
  count_processed (with_files f st) = with_files f (count_processed st).
Proof. done. Qed.

Lemma store_pres d f st : with_pres d (with_files f st) = with_files f (with_pres d st).
Proof. done. Qed.

Lemma store_store f g st : with_files g (with_files f st) = with_files g st.
Proof. done. Qed.

Lemma store_resolution r f st :
  log_resolution r (with_files f st) = with_files f (log_resolution r st).
Proof. by destruct r. Qed.

Lemma store_emits evs f st : emits evs (with_files f st) = with_files f (emits evs st).
Proof.
  unfold emits. revert st. induction evs as [|ev evs IH]; intros st; [done|].
  cbn [foldl]. by rewrite store_emit, IH.
Qed.

Lemma store_attach_env io fs e idx st :
  attach_audio (with_manifest_store io fs e) idx st = attach_audio e idx st.
Proof. done. Qed.

Lemma store_attach e idx f st :
  attach_audio e idx (with_files f st) = with_files f (attach_audio e idx st).
Proof.
  unfold attach_audio, attach_sequence.
  unfold mbind, attach_bind, may_raise, mret, attach_ret, raise, on_slide, the_slide,
    say, get_snapshot, save_deck; unfold act.
  destruct (attach_faults e idx) as [f1 f2 f3 f4 f5 f6 f7 f8 f9 f10].
  cbn [slides_raises delete_vox_raises timeline_raises delete_raises_after
       add_media_raises add_media2_raises configure_raises restore_outcome
       basic_setup_raises save_raises].
  repeat (state_simpl; case_match; simplify_eq);
    cbn [deck saved pres_open files snaps processed polls trace
         emit log msgbox with_deck with_saved with_snaps with_files with_pres
         count_processed fst snd] in *;
    simplify_eq;
    repeat match goal with
           | H1 : ?x = _, H2 : ?x = _ |- _ => rewrite H1 in H2; simplify_eq
           end;
    reflexivity.
Qed.

Lemma store_is_set io fs e f st :
  is_set (with_manifest_store io fs e) (with_files f st)
  = ((is_set e st).1, with_files f (is_set e st).2).
Proof. done. Qed.

Lemma store_backup_slide io fs e idx f st :
  backup_slide (with_manifest_store io fs e) idx (with_files f st)
  = with_files f (backup_slide e idx st).
Proof.
  unfold backup_slide, backup_failed. cbn [with_manifest_store adjust backup_fault].
  state_simpl. repeat case_match; reflexivity.
Qed.

Lemma store_backup_loop io fs e sel f st :
  backup_loop (with_manifest_store io fs e) sel (with_files f st)
  = with_files f (backup_loop e sel st).
Proof.
  revert st. induction sel as [|idx rest IH]; intros st; [done|].
  cbn [backup_loop]. rewrite store_is_set. destruct (is_set e st) as [[|] st1]; cbn [fst snd].
  - done.
  - by rewrite store_backup_slide, IH.
Qed.

Ltac store_norm :=
  repeat first
    [ rewrite store_log | rewrite store_emit | rewrite store_msgbox
    | rewrite store_count | rewrite store_store | rewrite store_resolution
    | rewrite store_emits | rewrite store_pres | rewrite store_attach_env | rewrite store_attach ].

Lemma store_process_slide io fs e prs idx f st :
  ∃ f', process_slide (with_manifest_store io fs e) prs idx (with_files f st)
        = (with_files f' (process_slide e prs idx st).1,
           (process_slide e prs idx st).2).
Proof.
  unfold process_slide.
  cbn [with_manifest_store adjust parse_template sha256_hex http md5_hex json_bytes
       other_bytes manifest_io ffmpeg audio_only].
  destruct (prs !! Z.to_nat (idx - 1)) as [s|]; [|by exists f].
  destruct (resolve_notes (parse_template e) s) as [note res].
  destruct (negb (truthy note)).
  { store_norm. by eexists. }
  destruct (loop_exit (synthesize (http e idx))) as [[resp|]|].
  2,3: store_norm; by eexists.
  destruct (status_code resp =? 200).
  2: store_norm; by eexists.
  destruct (ffmpeg e idx) as [rc|].
  2: store_norm; by eexists.
  destruct (audio_only e).
  { store_norm. by eexists. }
  store_norm. state_simpl.
  destruct (emits_fields (Net idx <$> net_events (synthesize (http e idx)))
              (log (LTextHash (str_take 8 (sha256_hex e note)))
                 (log (LGenerating idx) (log_resolution res st))))
    as (_ & _ & _ & _ & -> & _).
  repeat case_match; cbn [fst snd]; store_norm; by eexists.
Qed.

Lemma store_slide_loop io fs e prs sel f st :
  ∃ f', slide_loop (with_manifest_store io fs e) prs sel (with_files f st)
        = (with_files f' (slide_loop e prs sel st).1, (slide_loop e prs sel st).2).
Proof.
  revert f st. induction sel as [|idx rest IH]; intros f st; [by exists f|].
  cbn [slide_loop]. rewrite store_is_set.
  destruct (is_set e st) as [[|] st1]; cbn [fst snd].
  { store_norm. by eexists. }
  destruct (store_process_slide io fs e prs idx f st1) as (f1 & ->).
  destruct (process_slide e prs idx st1) as [st2 [|]]; cbn [fst snd].
  { by eexists. }
  apply IH.
Qed.

Lemma store_report io fs e f st :
  report (with_manifest_store io fs e) (with_files f st) = with_files f (report e st).
Proof.
  unfold report. rewrite store_is_set. destruct (is_set e st) as [c st1].
  change (audio_only (with_manifest_store io fs e)) with (audio_only e). cbn [fst snd].
  by repeat case_match.
Qed.

Lemma store_finally io fs e f st :
  finally (with_manifest_store io fs e) (with_files f st) = with_files f (finally e st).
Proof.
  unfold finally. cbn [with_manifest_store adjust audio_only final_save_raises].
  state_simpl. by repeat case_match.
Qed.

Lemma store_prepare io fs e sel f st :
  prepare (with_manifest_store io fs e) sel (with_files f st)
  = (with_files f (prepare e sel st).1, (prepare e sel st).2).
Proof.
  unfold prepare.
  change (audio_only (with_manifest_store io fs e)) with (audio_only e).
  change (com_deck (with_manifest_store io fs e)) with (com_deck e).
  repeat case_match; cbn [fst snd]; try done.
  store_norm. rewrite store_backup_loop. by store_norm.
Qed.

Lemma store_worker_body io fs e :
  ∃ f', worker_body (with_manifest_store io fs e) (initial (with_manifest_store io fs e))
        = (with_files f' (worker_body e (initial e)).1, (worker_body e (initial e)).2).
Proof.
  change (initial (with_manifest_store io fs e)) with (with_files fs (initial e)).
  unfold worker_body.
  change (api_key (with_manifest_store io fs e)) with (api_key e).
  change (voice_id (with_manifest_store io fs e)) with (voice_id e).
  change (input_is_file (with_manifest_store io fs e)) with (input_is_file e).
  change (ffmpeg_available (with_manifest_store io fs e)) with (ffmpeg_available e).
  change (makedirs_raises (with_manifest_store io fs e)) with (makedirs_raises e).
  change (input_file (with_manifest_store io fs e)) with (input_file e).
  change (pptx (with_manifest_store io fs e)) with (pptx e).
  change (slide_range_spec (with_manifest_store io fs e)) with (slide_range_spec e).
  repeat match goal with
         | |- context [if negb ?b then _ else _] => destruct b; cbn [negb]
         end; try (store_norm; by eexists).
  destruct (makedirs_raises e); [by eexists|].
  destruct (pptx e) as [prs|err]; [|store_norm; by eexists].
  store_norm.
  destruct (select_slides _ _) as [|i sel]; [store_norm; by eexists|].
  rewrite store_prepare.
  destruct (prepare e (i :: sel) _) as [st1 [|]]; cbn [fst snd]; [|by eexists].
  destruct (store_slide_loop io fs e prs (i :: sel) fs st1) as (f1 & ->).
  destruct (slide_loop e prs (i :: sel) st1) as [st2 [|]]; cbn [fst snd].
  - by eexists.
  - rewrite store_report. by eexists.
Qed.

(** X11.  What the manifest file holds at the start, and whether its writes
    succeed, changes nothing in the run but the files: the same events in
    the same order, the same deck, the same saved document, the same
    snapshots and the same count. *)
Theorem manifest_never_affects_the_run (e : Env) (io : Z → ManifestIO)
    (fs : gmap string FileData) :
  let st := worker e in
  let st' := worker (with_manifest_store io fs e) in
  history st' = history st ∧ deck st' = deck st ∧ saved st' = saved st
  ∧ pres_open st' = pres_open st ∧ snaps st' = snaps st
  ∧ processed st' = processed st.
Proof.
  cbn zeta.
  assert (∃ f', worker (with_manifest_store io fs e) = with_files f' (worker e))
    as (f' & ->); [|done].
  unfold worker. destruct (store_worker_body io fs e) as (f & ->).
  destruct (worker_body e (initial e)) as [st ending]. cbn [fst snd].
  exists f. destruct ending; store_norm; by rewrite store_finally.
Qed.

Import Json Store Voices Examples.

(** ** Stripping *)

Lemma rstrip_rstrip s : rstrip (rstrip s) = rstrip s.
Proof.
  induction s as [|c s IH]; [done|]. cbn [rstrip].
  destruct (rstrip s) as [|c' s'] eqn:E.
  - destruct (is_space c) eqn:Ec; [done|]. cbn. by rewrite Ec.
  - cbn [rstrip]. cbn [rstrip] in IH. by rewrite IH.
Qed.

Lemma lstrip_head c s : is_space c = false → lstrip (String c s) = String c s.
Proof. intros H. cbn. by rewrite H. Qed.

Lemma lstrip_rstrip_lstrip s : lstrip (rstrip (lstrip s)) = rstrip (lstrip s).
Proof.
  induction s as [|c s IH]; [done|]. cbn [lstrip].
  destruct (is_space c) eqn:Ec; [done|]. cbn [rstrip].
  destruct (rstrip s); rewrite ?Ec; by apply lstrip_head.
Qed.

Lemma strip_strip s : strip (strip s) = strip s.
Proof. unfold strip. by rewrite lstrip_rstrip_lstrip, rstrip_rstrip. Qed.

(** ** The API key *)

(** X12.  The key that the program works with carries no blanks around it, and
    the environment variable, when it holds more than blanks, wins over
    the vault. *)
Theorem get_api_key_stripped (os : Os) :
  strip (get_api_key os) = get_api_key os
  ∧ (truthy (strip (env_api_key os)) = true →
     get_api_key os = strip (env_api_key os)).
Proof.
  unfold get_api_key. split.
  - repeat case_match; by rewrite ?strip_strip.
  - by intros ->.
Qed.

(** X13.  Without the environment variable, and with a vault that works, the
    key read back is the key stored, stripped; after [delete_api_key] no
    key is left.  With a vault that fails the program has no key. *)
Theorem api_key_round_trip (os : Os) (k : string) :
  truthy (strip (env_api_key os)) = false →
  (vault_fails os = false →
   get_api_key (set_api_key k os) = strip k
   ∧ get_api_key (delete_api_key os) = ""
   ∧ get_api_key (delete_api_key (set_api_key k os)) = "")
  ∧ (vault_fails os = true →
     get_api_key os = "" ∧ get_api_key (set_api_key k os) = "").
Proof.
  intros Henv. unfold get_api_key, set_api_key, delete_api_key. split; intros Hv.
  - do 3 (rewrite ?Hv, ?Henv; cbn [with_vault env_api_key vault vault_fails default id]).
    rewrite strip_strip. repeat split; reflexivity.
  - by rewrite Hv, Henv, Hv.
Qed.

(** ** Settings *)

Lemma load_settings_written os p j :
  p = settings_file os →
  load_settings (with_fs (<[p := Parsed j]> (fs os)) os) = j.
Proof. intros ->. unfold load_settings. cbn. by rewrite lookup_insert_eq. Qed.

(** X14.  Saving merges: the keys given take their new values, the other keys
    of the settings file keep theirs, and [load_settings] reads the merged
    dictionary back.  When the file holds JSON that is no dictionary,
    [save_settings] raises. *)
Theorem save_settings_round_trip (os : Os) (kwargs : gmap string Json) :
  write_outcome os (settings_file os) = WriteOk →
  match load_settings os with
  | JObj data =>
      ∃ os', save_settings kwargs os = Some (os', true)
             ∧ load_settings os' = JObj (kwargs ∪ data)
             ∧ (∀ k v, kwargs !! k = Some v → (kwargs ∪ data) !! k = Some v)
             ∧ (∀ k, kwargs !! k = None → (kwargs ∪ data) !! k = data !! k)
             ∧ (∀ p, p ≠ settings_file os → fs os' !! p = fs os !! p)
  | _ => save_settings kwargs os = None
  end.
Proof.
  intros Hw. unfold save_settings, write_json.
  destruct (load_settings os) as [| | | | |data] eqn:E; try done. rewrite Hw.
  eexists. split; [reflexivity|]. split; [by apply load_settings_written|].
  split; [|split].
  - intros k v Hk. by apply lookup_union_Some_l.
  - intros k Hk. by apply lookup_union_r.
  - intros p Hp. cbn. by rewrite lookup_insert_ne.
Qed.

(** X15.  When the settings file cannot be written and the copy in the
    temporary directory can, [save_settings] answers [True], yet
    [load_settings], which reads the settings file only, does not see
    what was saved: it returns what it returned before when [open]
    failed, and nothing at all when the dump failed half-way. *)
Theorem fallback_settings_are_not_read (os : Os) (kwargs data : gmap string Json) :
  load_settings os = JObj data →
  write_outcome os (settings_file os) ≠ WriteOk →
  write_outcome os (fallback_file os) = WriteOk →
  fallback_file os ≠ settings_file os →
  ∃ os', save_settings kwargs os = Some (os', true)
         ∧ fs os' !! fallback_file os = Some (Parsed (JObj (kwargs ∪ data)))
         ∧ load_settings os'
           = match write_outcome os (settings_file os) with
             | DumpFails => JObj ∅
             | _ => JObj data
             end.
Proof.
  intros Hl Hw Hf Hne. unfold save_settings, write_json. rewrite Hl.
  destruct (write_outcome os (settings_file os)) eqn:E; [done| |];
    cbn [with_fs write_outcome fallback_file fs]; rewrite Hf;
    (eexists; split; [reflexivity|]); cbn [with_fs fs];
    (split; [by rewrite lookup_insert_eq|]);
    unfold load_settings in *; cbn [with_fs fs settings_file].
  - by rewrite lookup_insert_ne.
  - by rewrite lookup_insert_ne, lookup_insert_eq.
Qed.

(** ** The cache of voices *)

Lemma get_api_key_fs f os : get_api_key (with_fs f os) = get_api_key os.
Proof. done. Qed.

Lemma is_str_refl s : is_str s (JStr s) = true.
Proof. cbn. apply String.eqb_refl. Qed.

Lemma is_str_eq s j : is_str s j = true → j = JStr s.
Proof. destruct j; cbn; try done. by intros ->%String.eqb_eq. Qed.

(** X16.  A cache that [load_voice_cache] returns is the dictionary of the
    cache file; it was written for the key in use and is at most a week
    old. *)
Theorem load_voice_cache_sound (os : Os) (now : Z) (cache : gmap string Json) :
  load_voice_cache now os = Some cache →
  fs os !! voices_cache_path os = Some (Parsed (JObj cache))
  ∧ get_api_key os ≠ ""
  ∧ cache !! "api_key_hash" = Some (JStr (sha256_hexdigest os (get_api_key os)))
  ∧ (∃ text updated, cache !! "last_updated" = Some (JStr text)
                     ∧ fromisoformat os text = Some updated
                     ∧ now - updated ≤ WEEK)
  ∧ is_Some (cache !! "voices").
Proof.
  unfold load_voice_cache. intros H.
  destruct (truthy (voices_cache_path os)); [|done]. cbn [negb] in H.
  destruct (fs os !! voices_cache_path os) as [[[| | | | |c]|]|]; try done.
  cbn [forallb] in H.
  destruct (c !! "api_key_hash") as [h|] eqn:Eh; [|done].
  destruct (c !! "last_updated") as [u|] eqn:Eu; [|done].
  destruct (c !! "voices") as [v|] eqn:Ev; [|done].
  rewrite !bool_decide_eq_true_2 in H by done. cbn [andb] in H.
  destruct (get_api_key os) as [|a k] eqn:Ek; [done|]. cbn [truthy negb] in H.
  unfold get in H. rewrite Eh, Eu in H. cbn [default id] in H.
  destruct (is_str (sha256_hexdigest os (String a k)) h) eqn:Es; [|done]. apply is_str_eq in Es as ->. cbn [negb] in H.
  destruct u as [| | |text| |]; try done.
  destruct (fromisoformat os text) as [updated|] eqn:Et; [|done].
  destruct (WEEK <? now - updated) eqn:Ew; [done|]. apply Z.ltb_ge in Ew.
  injection H as <-. rewrite Eh, Eu, Ev. repeat split; eauto.
Qed.

(** X17.  What [save_voice_cache] writes, [load_voice_cache] reads back for a
    week, as long as the key is the one that wrote it; for another key,
    later than a week, or once the file is deleted, there is no cache. *)
Theorem voice_cache_round_trip (os : Os) (now now' : Z) (voices : Json) :
  truthy (get_api_key os) = true →
  truthy (voices_cache_path os) = true →
  write_outcome os (voices_cache_path os) = WriteOk →
  fromisoformat os (isoformat os now) = Some now →
  let os' := save_voice_cache now voices os in
  (now' - now ≤ WEEK →
   ∃ cache, load_voice_cache now' os' = Some cache ∧ cache !! "voices" = Some voices)
  ∧ (WEEK < now' - now → load_voice_cache now' os' = None)
  ∧ (∀ k, truthy (strip (env_api_key os)) = false → vault_fails os = false →
          sha256_hexdigest os (strip k) ≠ sha256_hexdigest os (get_api_key os) →
          load_voice_cache now' (set_api_key k os') = None)
  ∧ (remove_fails os (voices_cache_path os) = false →
     load_voice_cache now' (delete_voice_cache os') = None).
Proof.
  intros Hk Hp Hw Hiso os'.
  assert (Hos' : os' = with_fs (<[voices_cache_path os :=
                    Parsed (JObj {[ "version" := JStr "1.0";
                                    "api_key_hash" := JStr (sha256_hexdigest os (get_api_key os));
                                    "last_updated" := JStr (isoformat os now);
                                    "voices" := voices ]})]> (fs os)) os).
  { subst os'. unfold save_voice_cache, write_json. by rewrite Hk, Hp, Hw. }
  clearbody os'. subst os'.
  split; [|split; [|split]].
  - intros Hage. unfold load_voice_cache.
    cbn [with_fs voices_cache_path fs fromisoformat sha256_hexdigest].
    rewrite Hp, lookup_insert_eq, get_api_key_fs, Hk. cbn [negb].
    cbn [forallb]. rewrite !bool_decide_eq_true_2 by (by eexists). cbn [andb].
    unfold get. rewrite lookup_insert_ne, lookup_insert_eq by done. cbn [default id].
    rewrite is_str_refl. cbn [negb].
    rewrite lookup_insert_ne, lookup_insert_ne, lookup_insert_eq by done.
    cbn [default id]. rewrite Hiso. apply Z.ltb_ge in Hage. rewrite Hage.
    eexists. split; [reflexivity|].
    rewrite !lookup_insert_ne by done. apply lookup_singleton_eq.
  - intros Hage. unfold load_voice_cache.
    cbn [with_fs voices_cache_path fs fromisoformat sha256_hexdigest].
    rewrite Hp, lookup_insert_eq, get_api_key_fs, Hk. cbn [negb].
    cbn [forallb]. rewrite !bool_decide_eq_true_2 by (by eexists). cbn [andb].
    unfold get. rewrite lookup_insert_ne, lookup_insert_eq by done. cbn [default id].
    rewrite is_str_refl. cbn [negb].
    rewrite lookup_insert_ne, lookup_insert_ne, lookup_insert_eq by done.
    cbn [default id]. rewrite Hiso. apply Z.ltb_lt in Hage. by rewrite Hage.
  - intros k Henv Hv Hne. unfold load_voice_cache, set_api_key.
    cbn [with_fs vault_fails]. rewrite Hv.
    cbn [with_fs with_vault voices_cache_path fs fromisoformat sha256_hexdigest].
    rewrite Hp, lookup_insert_eq. cbn [negb].
    cbn [forallb]. rewrite !bool_decide_eq_true_2 by (by eexists). cbn [andb].
    assert (Hg : get_api_key (with_vault (Some (strip k))
                    (with_fs (<[voices_cache_path os := Parsed (JObj
                       {[ "version" := JStr "1.0";
                          "api_key_hash" := JStr (sha256_hexdigest os (get_api_key os));
                          "last_updated" := JStr (isoformat os now);
                          "voices" := voices ]})]> (fs os)) os)) = strip k).
    { unfold get_api_key. cbn [with_fs with_vault env_api_key vault vault_fails default id].
      rewrite Henv, Hv. cbn [default id]. apply strip_strip. }
    rewrite Hg. destruct (truthy (strip k)); [|done]. cbn [negb].
    unfold get. rewrite lookup_insert_ne, lookup_insert_eq by done. cbn [default id is_str].
    destruct (String.eqb _ _) eqn:E; [|done]. by apply String.eqb_eq in E.
  - intros Hr. unfold delete_voice_cache.
    cbn [with_fs voices_cache_path fs remove_fails]. rewrite Hp, lookup_insert_eq, Hr.
    rewrite bool_decide_eq_true_2 by (by eexists). cbn [andb].
    unfold load_voice_cache. cbn [with_fs voices_cache_path fs].
    by rewrite Hp, lookup_delete_eq.
Qed.

(** ** [voices_changed] *)

Lemma entry_of_voice (x : string * Json) :
  entry_of (JObj {[ "name" := JStr x.1; "voice_id" := x.2 ]})
  = Some (x.2, JStr x.1).
Proof.
  unfold entry_of.
  rewrite lookup_insert_ne, lookup_singleton_eq, lookup_insert_eq by done. done.
Qed.

Lemma omap_entry_of_voices (items : list (string * Json)) :
  omap entry_of ((λ x, JObj {[ "name" := JStr x.1; "voice_id" := x.2 ]}) <$> items)
  = (λ x, (x.2, JStr x.1)) <$> items.
Proof.
  induction items as [|x items IH]; [done|].
  cbn [fmap list_fmap omap list_omap]. rewrite entry_of_voice. cbn. f_equal. exact IH.
Qed.

Lemma dict_of_fmap {K A B} `{Countable K} (f : A → B) (l : list (K * A)) :
  dict_of (prod_map id f <$> l) = f <$> dict_of l.
Proof. unfold dict_of. rewrite <- fmap_reverse. apply list_to_map_fmap. Qed.

Lemma mapM_keyed_fmap {A B} (f : A → B) (l : list (Json * A)) :
  mapM keyed (prod_map id f <$> l) = fmap (prod_map id f) <$> mapM keyed l.
Proof.
  induction l as [|[j a] l IH]; [done|]. cbn [fmap list_fmap mapM].
  rewrite IH. unfold keyed. cbn.
  destruct (hash_key j) as [k|]; cbn; [|done].
  by destruct (mapM _ l).
Qed.

Lemma mapM_keyed_is_Some {A} (l : list (Json * A)) :
  is_Some (mapM keyed l) ↔ Forall (λ kv, is_Some (hash_key kv.1)) l.
Proof.
  rewrite mapM_is_Some. apply Forall_proper; [|done]. intros [j a]. unfold keyed. cbn.
  destruct (hash_key j); cbn; split; intros [? ?]; by eauto.
Qed.

Lemma same_values_iff {K} `{Countable K} (cached : gmap K Json) (fresh : gmap K string) :
  dom cached = dom fresh →
  forallb (λ kv, match fresh !! kv.1 with
                 | Some nm => is_str nm kv.2
                 | None => false
                 end) (map_to_list cached) = true
  ↔ cached = JStr <$> fresh.
Proof.
  intros Hdom. rewrite forallb_forall. split.
  - intros Hall. apply map_eq. intros k. rewrite lookup_fmap.
    destruct (cached !! k) as [v|] eqn:Ec.
    + specialize (Hall (k, v)). cbn in Hall.
      destruct (fresh !! k) as [nm|] eqn:Ef.
      * cbn. f_equal. apply is_str_eq, Hall, list_elem_of_In. by apply elem_of_map_to_list.
      * exfalso. assert (false = true); [|done].
        apply Hall, list_elem_of_In. by apply elem_of_map_to_list.
    + destruct (fresh !! k) as [nm|] eqn:Ef; [|done].
      assert (k ∈ dom cached) as Hk by (rewrite Hdom; by apply elem_of_dom).
      apply elem_of_dom in Hk as [? ?]. congruence.
  - intros -> [k v] Hin%list_elem_of_In%elem_of_map_to_list. cbn.
    rewrite lookup_fmap in Hin. destruct (fresh !! k); [|done].
    cbn in Hin. injection Hin as <-. apply is_str_refl.
Qed.

Lemma voices_changed_false (cached_voices : Json) (fresh_voices : list (string * Json)) :
  voices_changed cached_voices fresh_voices = false
  ↔ truthy_json cached_voices = true
    ∧ ∃ l cached fresh,
        iterate cached_voices = Some l
        ∧ mapM keyed (omap entry_of l) = Some cached
        ∧ mapM keyed ((λ x, (x.2, x.1)) <$> fresh_voices) = Some fresh
        ∧ dict_of cached = JStr <$> dict_of fresh.
Proof.
  unfold voices_changed. destruct (truthy_json cached_voices); cbn [negb].
  2: { split; [done|]. by intros [? _]. }
  destruct (iterate cached_voices) as [l|].
  2: { split; [done|]. by intros (_ & ? & ? & ? & ? & _). }
  destruct (mapM keyed (omap entry_of l)) as [cached|] eqn:Ec.
  2: { split; [done|]. intros (_ & ? & ? & ? & [= <-] & ? & _). congruence. }
  destruct (mapM keyed ((λ x : string * Json, (x.2, x.1)) <$> fresh_voices))
    as [fresh|] eqn:Ef.
  2: { split; [done|]. by intros (_ & ? & ? & ? & _ & _ & ? & _). }
  destruct (bool_decide (dom _ = dom _)) eqn:Ed; cbn [negb].
  2: { split; [done|]. intros (_ & l' & c & f & [= <-] & Hc & Hf & Heq).
       pose proof (eq_trans (eq_sym Hc) Ec). simplify_eq.
       apply bool_decide_eq_false_1 in Ed. destruct Ed.
       by rewrite Heq, dom_fmap_L. }
  apply bool_decide_eq_true_1 in Ed. rewrite negb_false_iff, (same_values_iff _ _ Ed).
  split; [by eauto 10|]. intros (_ & l' & c & f & [= <-] & Hc & Hf & Heq).
  pose proof (eq_trans (eq_sym Hc) Ec). by simplify_eq.
Qed.

(** X18.  The list that the refresh saves compares as unchanged to the list
    it was made from exactly when that list is not empty and every voice
    id in it can be hashed: an empty list always counts as changed, and so
    does a list with a voice id that is a list or a dictionary. *)
Theorem voices_changed_after_save (items : list (string * Json)) :
  voices_changed (voice_cache_data items) items = false
  ↔ items ≠ [] ∧ Forall (λ x, is_Some (hash_key x.2)) items.
Proof.
  rewrite voices_changed_false. split.
  - intros (Ht & l & cached & fresh & _ & _ & Hf & _). split.
    + by destruct items.
    + assert (is_Some (mapM keyed ((λ x, (x.2, x.1)) <$> items))) as Hs by (by eexists).
      apply mapM_keyed_is_Some in Hs. rewrite Forall_fmap in Hs.
      eapply Forall_impl; [exact Hs|]. by intros [nm vid].
  - intros [Hne Hall].
    assert (is_Some (mapM keyed ((λ x, (x.2, x.1)) <$> items))) as [fresh Hf].
    { apply mapM_keyed_is_Some. rewrite Forall_fmap.
      eapply Forall_impl; [exact Hall|]. by intros [nm vid]. }
    split; [by destruct items|].
    exists ((λ x, JObj {[ "name" := JStr x.1; "voice_id" := x.2 ]}) <$> items),
      (prod_map id JStr <$> fresh), fresh.
    split; [done|]. rewrite omap_entry_of_voices. split; [|split; [done|]].
    + replace ((λ x : string * Json, (x.2, JStr x.1)) <$> items)
        with (prod_map id JStr <$> ((λ x : string * Json, (x.2, x.1)) <$> items)).
      2: { rewrite <- list_fmap_compose. by apply list_fmap_ext. }
      rewrite mapM_keyed_fmap, Hf. done.
    + apply dict_of_fmap.
Qed.

(** X19.  [voices_changed] answers "unchanged" exactly for a cache that is not
    empty and can be iterated over, when every voice id of the cache and
    of the fresh list can be hashed and the two dictionaries from id to
    name are equal, ids compared as Python compares keys and names as
    strings: the two tests of the code amount to one comparison of
    dictionaries, and the order of the voices plays no part. *)
Theorem voices_changed_iff (cached_voices : Json) (fresh_voices : list (string * Json)) :
  voices_changed cached_voices fresh_voices = false
  ↔ truthy_json cached_voices = true
    ∧ ∃ l cached fresh,
        iterate cached_voices = Some l
        ∧ mapM keyed (omap entry_of l) = Some cached
        ∧ mapM keyed ((λ x, (x.2, x.1)) <$> fresh_voices) = Some fresh
        ∧ dict_of cached = JStr <$> dict_of fresh.
Proof. apply voices_changed_false. Qed.

(** ** [pretty_api_error] *)

(** X20.  The line that [pretty_api_error] makes is the one that the worker's
    error line is built from, for the message that the search through the
    body finds: in this order the message or the error of the detail, the
    first entry of a list of details, the detail itself when it is a
    string, the message or the error of the body, and at last the
    stripped text of the body.  Without any of them the line is the
    status alone. *)
Theorem pretty_api_error_search (repr : Json → string) (resp : Reply) (c : string) :
  (∀ j, truthy (repr j) = true) →
  let found := find_message repr (json resp) in
  let message := if truthy_json found then str_of repr found else strip (text resp) in
  Voices.pretty_api_error repr resp
  = Run.pretty_api_error {| status_code := code resp; content := c; message := message |}
  ∧ (Voices.pretty_api_error repr resp = "HTTP " +:+ pretty (code resp)
     ↔ truthy_json found = false ∧ strip (text resp) = "").
Proof.
  intros Hrepr found message. subst message.
  unfold Voices.pretty_api_error, Run.pretty_api_error. fold found.
  cbn [status_code SynthesisClient.message].
  assert (Hne : ∀ a b : string, a +:+ ": " +:+ b ≠ a).
  { intros a b. induction a as [|x a IH]; [done|]. intros [= H]. by apply IH. }
  destruct (truthy_json found) eqn:Ef.
  - assert (truthy (str_of repr found) = true) as ->.
    { destruct found; cbn in *; auto. }
    split; [done|]. split; [|by intros [? _]].
    intros H. exfalso. revert H.
    change ("HTTP " +:+ pretty (code resp) +:+ ": " +:+ str_of repr found)
      with (String "H" (String "T" (String "T" (String "P" (String " "
              (pretty (code resp) +:+ ": " +:+ str_of repr found)))))).
    intros [= H]. by apply Hne in H.
  - destruct (strip (text resp)) as [|x t] eqn:Et; cbn [truthy].
    + done.
    + split; [done|]. split; [|by intros [_ ?]].
      intros H. exfalso. revert H.
      change ("HTTP " +:+ pretty (code resp) +:+ ": " +:+ String x t)
        with (String "H" (String "T" (String "T" (String "P" (String " "
                (pretty (code resp) +:+ ": " +:+ String x t)))))).
      intros [= H]. by apply Hne in H.
Qed.

(** ** [fetch_voices] *)

Lemma str_leb_refl s : str_leb s s = true.
Proof.
  induction s as [|a s IH]; [done|]. cbn. rewrite Nat.eqb_refl, IH.
  by rewrite orb_true_r.
Qed.

Lemma str_leb_total s t : str_leb s t = false → str_leb t s = true.
Proof.
  revert t. induction s as [|a s IH]; intros [|b t]; cbn; try done.
  intros [H1 H2]%orb_false_iff. apply Nat.ltb_ge in H1.
  destruct (nat_of_ascii a =? nat_of_ascii b)%nat eqn:E.
  - apply Nat.eqb_eq in E. rewrite E, Nat.eqb_refl. cbn in H2.
    rewrite (IH _ H2). by rewrite orb_true_r.
  - apply Nat.eqb_neq in E. apply orb_true_iff. left. apply Nat.ltb_lt. lia.
Qed.


Lemma insert_voice_perm x l : insert_voice x l ≡ₚ x :: l.
Proof.
  induction l as [|y l IH]; [done|]. cbn. case_match; [done|].
  rewrite IH. apply Permutation_swap.
Qed.

Lemma sort_voices_perm l : sort_voices l ≡ₚ l.
Proof.
  induction l as [|x l IH]; [done|]. cbn. by rewrite insert_voice_perm, IH.
Qed.

Lemma insert_voice_sorted x l : Sorted by_name l → Sorted by_name (insert_voice x l).
Proof.
  induction 1 as [|y l Hl IH Hy]; cbn.
  - by repeat constructor.
  - destruct (str_leb (name_key x) (name_key y)) eqn:E.
    + constructor; [by constructor|by constructor].
    + constructor; [done|]. apply str_leb_total in E.
      destruct l as [|z l]; cbn; [by constructor|].
      case_match; constructor; [done|]. by inversion Hy.
Qed.

Lemma sort_voices_sorted l : Sorted by_name (sort_voices l).
Proof.
  induction l as [|x l IH]; cbn; [constructor|by apply insert_voice_sorted].
Qed.

Lemma insert_voice_stable k x l :
  filter (λ y, name_key y = k) (insert_voice x l)
  = filter (λ y, name_key y = k) (x :: l).
Proof.
  induction l as [|y l IH]; [done|]. cbn [insert_voice].
  destruct (str_leb (name_key x) (name_key y)) eqn:E; [done|].
  rewrite filter_cons, IH, !filter_cons.
  destruct (decide (name_key y = k)) as [Hy|Hy], (decide (name_key x = k)) as [Hx|Hx];
    try done.
  rewrite Hx, Hy, str_leb_refl in E. done.
Qed.

Lemma sort_voices_stable k l :
  filter (λ y, name_key y = k) (sort_voices l) = filter (λ y, name_key y = k) l.
Proof.
  induction l as [|x l IH]; [done|]. cbn [sort_voices foldr].
  rewrite insert_voice_stable, !filter_cons. fold (sort_voices l). by rewrite IH.
Qed.

Lemma voice_of_named v x :
  voice_of v = Some (Some x) → truthy x.1 = true ∧ strip x.1 = x.1 ∧ truthy_json x.2 = true.
Proof.
  unfold voice_of. destruct v as [| | | | |m]; try done.
  destruct (or_else (get "name" m) (JStr "")) as [| | |name| |]; try done.
  destruct (truthy_json (or_else (get "voice_id" m) (JStr ""))) eqn:Ev; [|done].
  intros [= <-]. cbn [fst snd]. split; [|split; [|done]].
  - by destruct (truthy (strip name)) eqn:E.
  - destruct (truthy (strip name)) eqn:E; [|done]. apply strip_strip.
Qed.



Lemma fetch_loop_fetched sv remaining attempts out :
  (fetch_loop sv remaining attempts).1 = Fetched out →
  ∃ k resp data, (attempts < k ≤ attempts + remaining)%nat
    ∧ requests sv k = Got resp ∧ code resp = 200
    ∧ json resp = Some data ∧ parse_voices data = Some out.
Proof.
  revert attempts. induction remaining as [|rem IH]; intros attempts; [done|].
  cbn [fetch_loop]. unfold on_request_exception.
  destruct (requests sv (S attempts)) as [resp|e] eqn:Er.
  - destruct (code resp =? 200) eqn:Ec.
    + apply Z.eqb_eq in Ec. destruct (json resp) as [data|] eqn:Ej.
      * destruct (parse_voices data) as [out'|] eqn:Ep; [|done]. cbn. intros [= <-].
        exists (S attempts), resp, data. repeat split; try done; lia.
      * destruct (decode_error_is_request_exception sv); [|done].
        destruct (S attempts <? NET_MAX_ATTEMPTS)%nat; [|done]. cbn.
        intros (k & ? & ? & ? & ?)%IH. exists k. eexists _, _. split; [lia|done].
    + destruct (_ && _); [|done]. cbn.
      intros (k & ? & ? & ? & ?)%IH. exists k. eexists _, _. split; [lia|done].
  - destruct (S attempts <? NET_MAX_ATTEMPTS)%nat; [|done]. cbn.
    intros (k & ? & ? & ? & ?)%IH. exists k. eexists _, _. split; [lia|done].
Qed.

(** X21.  A list that [fetch_voices] returns comes from a 200 answer to one of
    at most three requests, whose body is a dictionary.  It holds the
    voices of the body that have an id, each with its stripped name, or
    the stand-in for a voice without name; it is in the order of the
    lower-cased names, and voices whose names differ by case only keep
    the order of the answer. *)
Theorem fetch_voices_result (sv : Service) (api_key : string)
    (out : list (string * Json)) :
  (fetch_voices sv api_key).1 = Fetched out →
  truthy (strip api_key) = true
  ∧ ∃ k resp data l vs,
      (1 ≤ k ≤ 3)%nat ∧ requests sv k = Got resp ∧ code resp = 200
      ∧ json resp = Some (JObj data)
      ∧ voices_of data = Some l ∧ mapM voice_of l = Some vs
      ∧ out ≡ₚ omap id vs
      ∧ Sorted by_name out
      ∧ (∀ key, filter (λ x, name_key x = key) out
                = filter (λ x, name_key x = key) (omap id vs))
      ∧ Forall (λ x, truthy x.1 = true ∧ strip x.1 = x.1 ∧ truthy_json x.2 = true) out.
Proof.
  unfold fetch_voices. destruct (truthy (strip api_key)); [|done]. cbn [negb].
  intros (k & resp & data & Hk & Hr & Hc & Hj & Hp)%fetch_loop_fetched.
  split; [done|]. unfold parse_voices in Hp.
  destruct data as [| | | | |data]; try done.
  destruct (voices_of data) as [l|] eqn:El; [|done]. cbn in Hp.
  destruct (mapM voice_of l) as [vs|] eqn:Ev; [|done]. cbn in Hp. injection Hp as <-.
  exists k, resp, data, l, vs. unfold NET_MAX_ATTEMPTS in Hk.
  split; [lia|]. do 5 (split; [done|]).
  split; [apply sort_voices_perm|]. split; [apply sort_voices_sorted|].
  split; [intros key; apply sort_voices_stable|].
  rewrite sort_voices_perm. apply Forall_forall. intros x Hx.
  apply list_elem_of_omap in Hx as (ox & Hox & Hid). cbn in Hid. subst ox.
  apply mapM_Some in Ev. apply list_elem_of_lookup in Hox as (i & Hi).
  destruct (Forall2_lookup_r _ _ _ _ _ Ev Hi) as (v & _ & Hv).
  by apply (voice_of_named v).
Qed.

Lemma fetch_loop_policy sv remaining attempts :
  (attempts + remaining = 3)%nat → (0 < remaining)%nat →
  let r := fetch_loop sv remaining attempts in
  ∃ n, (attempts < n ≤ 3)%nat
    ∧ r.2 = flat_map (λ k, [Get k; Nap (backoff k)]) (seq (S attempts) (n - S attempts))
            ++ [Get n]
    ∧ (∀ k, (attempts < k < n)%nat → retriable sv (requests sv k) = true)
    ∧ ((n < 3)%nat → retriable sv (requests sv n) = false)
    ∧ r.1 ≠ FellThrough
    ∧ (∀ resp, requests sv n = Got resp → code resp ≠ 200 →
         r.1 = RuntimeError (Voices.pretty_api_error (str sv) resp))
    ∧ (∀ e, requests sv n = GetRaises e → r.1 = RuntimeError ("Network error: " +:+ e)).
Proof.
  revert attempts. induction remaining as [|rem IH]; intros attempts Hsum Hpos; [lia|].
  cbn zeta. cbn [fetch_loop]. unfold on_request_exception, NET_MAX_ATTEMPTS.
  (* the outcome of this attempt ends the loop *)
  assert (Hlast : ∀ res : FetchResult,
            res ≠ FellThrough →
            ((S attempts < 3)%nat → retriable sv (requests sv (S attempts)) = false) →
            (∀ resp, requests sv (S attempts) = Got resp → code resp ≠ 200 →
               res = RuntimeError (Voices.pretty_api_error (str sv) resp)) →
            (∀ e, requests sv (S attempts) = GetRaises e →
               res = RuntimeError ("Network error: " +:+ e)) →
            ∃ n, (attempts < n ≤ 3)%nat
              ∧ [Get (S attempts)]
                = flat_map (λ k, [Get k; Nap (backoff k)])
                    (seq (S attempts) (n - S attempts)) ++ [Get n]
              ∧ (∀ k, (attempts < k < n)%nat → retriable sv (requests sv k) = true)
              ∧ ((n < 3)%nat → retriable sv (requests sv n) = false)
              ∧ res ≠ FellThrough
              ∧ (∀ resp, requests sv n = Got resp → code resp ≠ 200 →
                   res = RuntimeError (Voices.pretty_api_error (str sv) resp))
              ∧ (∀ e, requests sv n = GetRaises e →
                   res = RuntimeError ("Network error: " +:+ e))).
  { intros res H1 H2 H3 H4. exists (S attempts). rewrite Nat.sub_diag.
    split; [lia|]. split; [done|]. split; [intros; lia|]. done. }
  (* the loop goes on *)
  assert (Hnext : (S attempts <? 3)%nat = true →
            retriable sv (requests sv (S attempts)) = true →
            let r := fetch_loop sv rem (S attempts) in
            ∃ n, (attempts < n ≤ 3)%nat
              ∧ Get (S attempts) :: Nap (backoff (S attempts)) :: r.2
                = flat_map (λ k, [Get k; Nap (backoff k)])
                    (seq (S attempts) (n - S attempts)) ++ [Get n]
              ∧ (∀ k, (attempts < k < n)%nat → retriable sv (requests sv k) = true)
              ∧ ((n < 3)%nat → retriable sv (requests sv n) = false)
              ∧ r.1 ≠ FellThrough
              ∧ (∀ resp, requests sv n = Got resp → code resp ≠ 200 →
                   r.1 = RuntimeError (Voices.pretty_api_error (str sv) resp))
              ∧ (∀ e, requests sv n = GetRaises e →
                   r.1 = RuntimeError ("Network error: " +:+ e))).
  { intros Hlt%Nat.ltb_lt Hre. cbn zeta.
    destruct (IH (S attempts)) as (n & Hn & Hev & Hk & Hrest); [lia..|].
    exists n. split; [lia|]. split.
    { rewrite Hev. replace (n - S attempts)%nat with (S (n - S (S attempts))) by lia.
      reflexivity. }
    split; [|done]. intros k Hk'.
    destruct (decide (k = S attempts)) as [->|]; [done|]. apply Hk. lia. }
  destruct (requests sv (S attempts)) as [resp|e] eqn:Er.
  - destruct (code resp =? 200) eqn:Ec.
    + apply Z.eqb_eq in Ec. destruct (json resp) as [data|] eqn:Ej.
      * destruct (parse_voices data) as [out|]; cbn [fst snd];
          apply Hlast; try done;
          try (intros _; cbn; apply Z.eqb_eq in Ec; by rewrite Ec, Ej);
          by intros ? [= <-] ?.
      * destruct (decode_error_is_request_exception sv) eqn:Ed; cbn [fst snd].
        -- destruct (S attempts <? 3)%nat eqn:El; cbn [fst snd].
           ++ apply Hnext; [done|]. cbn. apply Z.eqb_eq in Ec. by rewrite Ec, Ej, Ed.
           ++ apply Hlast; try done.
              ** apply Nat.ltb_ge in El. intros; lia.
              ** by intros ? [= <-] ?.
        -- apply Hlast; try done.
           ++ intros _. cbn. apply Z.eqb_eq in Ec. by rewrite Ec, Ej, Ed.
           ++ by intros ? [= <-] ?.
    + destruct ((500 <=? code resp) && (code resp <? 600)) eqn:E5; cbn [andb].
      * destruct (S attempts <? 3)%nat eqn:El; cbn [fst snd].
        -- apply Hnext; [done|]. cbn. by rewrite Ec.
        -- apply Hlast; try done.
           ++ apply Nat.ltb_ge in El. intros; lia.
           ++ by intros ? [= <-] _.
      * cbn [fst snd]. apply Hlast; try done.
        -- intros _. cbn. by rewrite Ec.
        -- by intros ? [= <-] _.
  - destruct (S attempts <? 3)%nat eqn:El; cbn [fst snd].
    + by apply Hnext.
    + apply Hlast; try done.
      * apply Nat.ltb_ge in El. intros; lia.
      * by intros ? [= <-].
Qed.

(** X22.  [fetch_voices] asks nothing without a key.  With a key it sends
    between one and three requests, sleeping 0.75 s and then 1.5 s in
    between; one request is followed by another only after a 5xx answer,
    a [RequestException], or a 200 answer that cannot be decoded where
    that is a [RequestException]; any other answer that is not 200 ends
    the loop at once with a [RuntimeError] carrying the line of
    [pretty_api_error], and an exception on the last request with one
    carrying the network error. *)
Theorem fetch_voices_policy (sv : Service) (api_key : string) :
  (truthy (strip api_key) = false →
   fetch_voices sv api_key = (ValueError "Missing API key", []))
  ∧ (truthy (strip api_key) = true →
     ∃ n, (1 ≤ n ≤ 3)%nat
       ∧ (fetch_voices sv api_key).2 = gets_then_naps n
       ∧ (∀ k, (1 ≤ k < n)%nat → retriable sv (requests sv k) = true)
       ∧ ((n < 3)%nat → retriable sv (requests sv n) = false)
       ∧ (fetch_voices sv api_key).1 ≠ FellThrough
       ∧ (∀ resp, requests sv n = Got resp → code resp ≠ 200 →
            (fetch_voices sv api_key).1
            = RuntimeError (Voices.pretty_api_error (str sv) resp))
       ∧ (∀ e, requests sv n = GetRaises e →
            (fetch_voices sv api_key).1 = RuntimeError ("Network error: " +:+ e))).
Proof.
  unfold fetch_voices. split; [by intros ->|]. intros ->. cbn [negb].
  destruct (fetch_loop_policy sv NET_MAX_ATTEMPTS 0) as (n & Hn & Hev & Hk & Hrest);
    [done|unfold NET_MAX_ATTEMPTS; lia|].
  exists n. split; [lia|]. split; [by rewrite Hev|]. split; [|done].
  intros k Hk'. apply Hk. lia.
Qed.

Lemma api_key_round_trip_witness :
  get_api_key (set_api_key " abc " os0) = strip " abc "
  ∧ get_api_key (delete_api_key os0) = ""
  ∧ get_api_key (delete_api_key (set_api_key " abc " os0)) = "".
Proof.
  refine (proj1 (api_key_round_trip os0 " abc " _) _); reflexivity.
Defined.

Lemma save_settings_round_trip_witness :
  ∃ os', save_settings {[ "voice_id" := JStr "v2" ]} os0 = Some (os', true)
         ∧ load_settings os' = JObj ({[ "voice_id" := JStr "v2" ]} ∪ ∅)
         ∧ (∀ k v, ({[ "voice_id" := JStr "v2" ]} : gmap string Json) !! k = Some v →
                   (({[ "voice_id" := JStr "v2" ]} : gmap string Json) ∪ ∅) !! k = Some v)
         ∧ (∀ k, ({[ "voice_id" := JStr "v2" ]} : gmap string Json) !! k = None →
                 (({[ "voice_id" := JStr "v2" ]} : gmap string Json) ∪ ∅) !! k
                 = (∅ : gmap string Json) !! k)
         ∧ (∀ p, p ≠ settings_file os0 → fs os' !! p = fs os0 !! p).
Proof.
  apply (save_settings_round_trip os0 {[ "voice_id" := JStr "v2" ]}). reflexivity.
Defined.

Lemma fallback_settings_are_not_read_witness :
  ∃ os', save_settings {[ "voice_id" := JStr "v2" ]} os_readonly = Some (os', true)
         ∧ fs os' !! fallback_file os_readonly
           = Some (Parsed (JObj ({[ "voice_id" := JStr "v2" ]}
                                   ∪ {[ "voice_id" := JStr "v1" ]})))
         ∧ load_settings os' = JObj {[ "voice_id" := JStr "v1" ]}.
Proof.
  apply (fallback_settings_are_not_read os_readonly {[ "voice_id" := JStr "v2" ]}
           {[ "voice_id" := JStr "v1" ]}); [reflexivity| |reflexivity|]; discriminate.
Defined.

Lemma voice_cache_round_trip_witness :
  ∃ cache,
    load_voice_cache 1000 (save_voice_cache 5 (voice_cache_data [("Rachel", JStr "21m00")]) os0)
    = Some cache
    ∧ cache !! "voices" = Some (voice_cache_data [("Rachel", JStr "21m00")]).
Proof.
  refine (proj1 (voice_cache_round_trip os0 5 1000
                   (voice_cache_data [("Rachel", JStr "21m00")]) _ _ _ _) _);
    try reflexivity.
  unfold WEEK. lia.
Defined.

Lemma load_voice_cache_sound_witness :
  let os := save_voice_cache 5 (voice_cache_data [("Rachel", JStr "21m00")]) os0 in
  ∃ cache,
    load_voice_cache 1000 os = Some cache
    ∧ fs os !! voices_cache_path os = Some (Parsed (JObj cache))
    ∧ get_api_key os ≠ ""
    ∧ cache !! "api_key_hash" = Some (JStr (sha256_hexdigest os (get_api_key os)))
    ∧ (∃ text updated, cache !! "last_updated" = Some (JStr text)
                       ∧ fromisoformat os text = Some updated
                       ∧ 1000 - updated ≤ WEEK)
    ∧ is_Some (cache !! "voices").
Proof.
  intros os. eexists. split; [reflexivity|].
  apply (load_voice_cache_sound os 1000). reflexivity.
Defined.

Lemma pretty_api_error_search_witness :
  Voices.pretty_api_error (λ _, "?") quota_reply
  = Run.pretty_api_error {| status_code := 401; content := "";
                            message := "quota exceeded" |}
  ∧ (Voices.pretty_api_error (λ _, "?") quota_reply = "HTTP " +:+ pretty 401
     ↔ truthy_json (find_message (λ _, "?") (json quota_reply)) = false
       ∧ strip (text quota_reply) = "").
Proof.
  apply (pretty_api_error_search (λ _, "?") quota_reply ""). reflexivity.
Defined.

Lemma fetch_voices_result_witness :
  truthy (strip "key") = true
  ∧ ∃ k resp data l vs,
      (1 ≤ k ≤ 3)%nat ∧ requests service0 k = Got resp ∧ code resp = 200
      ∧ json resp = Some (JObj data)
      ∧ voices_of data = Some l ∧ mapM voice_of l = Some vs
      ∧ [("adam", JStr "pNInz"); ("Rachel", JStr "21m00")] ≡ₚ omap id vs
      ∧ Sorted by_name [("adam", JStr "pNInz"); ("Rachel", JStr "21m00")]
      ∧ (∀ key, filter (λ x, name_key x = key)
                  [("adam", JStr "pNInz"); ("Rachel", JStr "21m00")]
                = filter (λ x, name_key x = key) (omap id vs))
      ∧ Forall (λ x, truthy x.1 = true ∧ strip x.1 = x.1 ∧ truthy_json x.2 = true)
          [("adam", JStr "pNInz"); ("Rachel", JStr "21m00")].
Proof.
  apply (fetch_voices_result service0 "key"). reflexivity.
Defined.

Import Redaction Display.

(** ** Redaction *)

Lemma str_app_assoc (a b c : string) : (a +:+ b) +:+ c = a +:+ (b +:+ c).
Proof. induction a as [|x a IH]; [done|]. by rewrite !app_cons, IH. Qed.

Lemma leading_app_stop cls a x b :
  cls x = false → leading cls (a +:+ String x b) = leading cls a.
Proof.
  intros Hx. induction a as [|c a IH].
  - rewrite app_empty. cbn. by rewrite Hx.
  - rewrite app_cons. cbn. by rewrite IH.
Qed.

Lemma has_run_app_stop cls n a x b :
  (0 < n)%nat → cls x = false →
  has_run cls n (a +:+ String x b) = has_run cls n a || has_run cls n (String x b).
Proof.
  intros Hn Hx. induction a as [|c a IH].
  - rewrite app_empty. cbn [has_run leading].
    destruct (n <=? 0)%nat eqn:E; [apply Nat.leb_le in E; lia|done].
  - rewrite app_cons. cbn [has_run]. rewrite IH, <- app_cons, leading_app_stop by done.
    by rewrite orb_assoc.
Qed.

Lemma has_run_redacted a b :
  has_run token 32 (a +:+ "[REDACTED]" +:+ b) = has_run token 32 a || has_run token 32 b.
Proof.
  change ("[REDACTED]" +:+ b) with (String "[" ("REDACTED" +:+ String "]" b)).
  rewrite has_run_app_stop by (done || lia). f_equal.
Qed.

Lemma leading_take cls k s : (leading cls (str_take k s) ≤ leading cls s)%nat.
Proof.
  revert s. induction k as [|k IH]; intros [|c s]; cbn; try lia.
  destruct (cls c); [|lia]. specialize (IH s). lia.
Qed.

Lemma has_run_take cls n k s :
  (0 < n)%nat → has_run cls n s = false → has_run cls n (str_take k s) = false.
Proof.
  intros Hn. revert s. induction k as [|k IH]; intros [|c s]; cbn [str_take has_run leading];
    try (intros _; destruct (n <=? 0)%nat eqn:E; [apply Nat.leb_le in E; lia|done]).
  intros [H1 H2]%orb_false_iff. apply orb_false_iff. split; [|by apply IH].
  apply Nat.leb_gt in H1. apply Nat.leb_gt.
  pose proof (leading_take cls (S k) (String c s)) as H. cbn [str_take leading] in H. lia.
Qed.

(** A substitution that writes the mark, with whatever pattern, brings no
    long run of token characters into a text that has none. *)
Lemma sub_go_keeps_short alts skip s :
  has_run token 32 s = false →
  has_run token 32 (sub_go alts redacted skip s) = false
  ∧ (skip = 0%nat →
     (leading token (sub_go alts redacted 0 s) ≤ leading token s)%nat).
Proof.
  revert skip. induction s as [|c r IH]; intros skip Hs.
  - cbn [sub_go]. destruct skip, (match_any alts ""); split; try done; cbn; lia.
  - cbn [has_run] in Hs. apply orb_false_iff in Hs as [Hlead Hr]. apply Nat.leb_gt in Hlead.
    cbn [sub_go]. destruct skip as [|n].
    2: { split; [by apply IH|done]. }
    destruct (IH 0%nat Hr) as (IH1 & IH2). specialize (IH2 eq_refl).
    assert (Hcopy : has_run token 32 (String c (sub_go alts redacted 0 r)) = false
                    ∧ (leading token (String c (sub_go alts redacted 0 r))
                       ≤ leading token (String c r))%nat).
    { cbn [has_run leading]. cbn [leading] in Hlead.
      destruct (token c); [|split; [by rewrite IH1|lia]].
      split; [|lia]. rewrite IH1, orb_false_r. apply Nat.leb_gt. lia. }
    destruct (match_any alts (String c r)) as [[k [|t]]|]; [| |split; [apply Hcopy|intros _; apply Hcopy]].
    + unfold redacted at 1. change ("" +:+ "[REDACTED]") with ("" +:+ "[REDACTED]" +:+ "").
      split; [|intros _; change (0 ≤ leading token (String c r))%nat; lia].
      change (has_run token 32 ("" +:+ "[REDACTED]" +:+ String c (sub_go alts redacted 0 r)) = false).
      rewrite has_run_redacted. by destruct Hcopy as [-> _].
    + split.
      * unfold redacted at 1. rewrite str_app_assoc, has_run_redacted. rewrite (proj1 (IH t Hr)), orb_false_r.
        apply has_run_take; [lia|]. cbn [has_run]. apply orb_false_iff. split; [|done].
        by apply Nat.leb_gt.
      * intros _. unfold redacted at 1. rewrite str_app_assoc.
        change ("[REDACTED]" +:+ sub_go alts redacted t r)
          with (String "[" ("REDACTED]" +:+ sub_go alts redacted t r)).
        rewrite leading_app_stop by done. apply leading_take.
Qed.

(** What [run] returns, the continuation returned. *)
Lemma run_from_continuation {A} items (k : string → option A) s r :
  run items k s = Some r → ∃ s', k s' = Some r.
Proof.
  revert k s. induction items as [|[ci l|cls min|cls n|ci alts] rest IH]; intros k s; cbn [run].
  - eauto.
  - destruct (starts_with ci l s); [apply IH|done].
  - generalize (leading cls s). intros j. induction j as [|j IHj].
    + destruct (0 <? min)%nat; [done|]. destruct (run rest k (str_drop 0 s)) eqn:E; [|done].
      intros [= ->]. eapply IH, E.
    + destruct (S j <? min)%nat; [done|]. destruct (run rest k (str_drop (S j) s)) eqn:E.
      * intros [= ->]. eapply IH, E.
      * apply IHj.
  - destruct (n <=? leading cls s)%nat; [apply IH|done].
  - induction alts as [|a alts IHa]; [done|].
    destruct (starts_with ci a s); [|apply IHa].
    destruct (run rest k (str_drop (String.length a) s)) eqn:E; [|apply IHa].
    intros [= ->]. eapply IH, E.
Qed.

(** A pattern without a first group gives the empty group. *)
Lemma match_at_no_group rest s k t : match_at ([], rest) s = Some (k, t) → k = 0%nat.
Proof.
  unfold match_at. cbn [fst snd run]. intros (s' & [= <- _])%run_from_continuation. lia.
Qed.

Lemma length_str_drop k s : String.length (str_drop k s) = (String.length s - k)%nat.
Proof. revert s. induction k as [|k IH]; intros [|c s]; cbn; done. Qed.

Lemma leading_le_length cls s : (leading cls s ≤ String.length s)%nat.
Proof. induction s as [|c s IH]; cbn; [lia|]. destruct (cls c); lia. Qed.

(** The fifth pattern matches where thirty-two token characters stand, and
    takes them all. *)
Lemma long_token_match s :
  match_any [long_token] s
  = if (leading token s <? 32)%nat then None else Some (0%nat, leading token s).
Proof.
  cbn [match_any]. unfold match_at, long_token. cbn [fst snd run].
  pose proof (leading_le_length token s) as Hle.
  assert (Hk : ∀ j, (j ≤ String.length s)%nat →
            Some ((String.length s - String.length s)%nat,
                  (String.length s - String.length (str_drop j s))%nat) = Some (0%nat, j)).
  { intros j Hj. rewrite length_str_drop. do 2 f_equal; lia. }
  destruct (leading token s) as [|j].
  - done.
  - destruct (S j <? 32)%nat; [done|]. by rewrite Hk.
Qed.

(** The fifth pattern leaves no run of thirty-two token characters,
    whatever the text. *)
Lemma long_tokens_removed skip s :
  has_run token 32 (sub_go [long_token] redacted skip s) = false
  ∧ (leading token (sub_go [long_token] redacted 0 s) ≤ leading token s)%nat.
Proof.
  revert skip. induction s as [|c r IH]; intros skip.
  - cbn [sub_go]. destruct skip, (match_any [long_token] ""); split; try done; cbn; lia.
  - cbn [sub_go]. destruct (IH 0%nat) as (IH1 & IH2).
    rewrite long_token_match.
    destruct (leading token (String c r) <? 32)%nat eqn:E.
    + apply Nat.ltb_lt in E.
      assert (Hcopy : has_run token 32 (String c (sub_go [long_token] redacted 0 r)) = false
                      ∧ (leading token (String c (sub_go [long_token] redacted 0 r))
                         ≤ leading token (String c r))%nat).
      { cbn [has_run leading]. cbn [leading] in E.
        destruct (token c); [|split; [by rewrite IH1|lia]].
        split; [|lia]. rewrite IH1, orb_false_r. apply Nat.leb_gt. lia. }
      destruct skip; [done|]. split; [apply IH|apply Hcopy].
    + apply Nat.ltb_ge in E.
      destruct (leading token (String c r)) as [|t] eqn:El; [lia|].
      assert (Hout : ∀ x, redacted (str_take (S t) (String c r)) (str_take 0 (String c r)) +:+ x
                          = "" +:+ "[REDACTED]" +:+ x) by done.
      rewrite Hout. split.
      * destruct skip; [|apply IH]. rewrite has_run_redacted. apply IH.
      * change (0 ≤ S t)%nat. lia.
Qed.

(** X23.  Whatever the text, what [_redact] returns holds no thirty-two token
    characters in a row: the fifth pattern replaces every such run, and the
    sixth, which comes last, brings none in. *)
Lemma redact_no_long_token s : has_run token 32 (_redact s) = false.
Proof.
  unfold _redact, REDACTION_PATTERNS. cbn [foldl].
  apply sub_go_keeps_short. apply long_tokens_removed.
Qed.

(** ** The header of the key *)

Lemma token_not_space c : token c = true → is_space c = false.
Proof.
  destruct c as [[] [] [] [] [] [] [] []]; vm_compute; congruence.
Qed.

Lemma run_nil {A} (k : string → option A) s : run [] k s = k s.
Proof. done. Qed.

Lemma run_lit {A} ci l rest (k : string → option A) s :
  run (Lit ci l :: rest) k s
  = if starts_with ci l s then run rest k (str_drop (String.length l) s) else None.
Proof. done. Qed.

Lemma run_many_greedy {A} cls min rest (k : string → option A) s r :
  (min ≤ leading cls s)%nat →
  run rest k (str_drop (leading cls s) s) = Some r →
  run (Many cls min :: rest) k s = Some r.
Proof.
  intros Hmin Hr. cbn [run]. destruct (leading cls s) as [|j].
  - destruct (0 <? min)%nat eqn:E; [apply Nat.ltb_lt in E; lia|]. by rewrite Hr.
  - destruct (S j <? min)%nat eqn:E; [apply Nat.ltb_lt in E; lia|]. by rewrite Hr.
Qed.

Lemma str_drop_all s : str_drop (String.length s) s = "".
Proof. induction s as [|c s IH]; [done|]. apply IH. Qed.

Lemma sub_go_skip_all alts repl s :
  match_any alts "" = None → sub_go alts repl (String.length s) s = "".
Proof.
  intros H. induction s as [|c s IH]; [|apply IH]. cbn. by rewrite H.
Qed.

Lemma key_header_match key :
  leading token key = String.length key → (10 ≤ String.length key)%nat →
  match_any [key_header] ("xi-api-key: " +:+ key) = Some (12%nat, (12 + String.length key)%nat).
Proof.
  intros Hall Hlen. destruct key as [|c key]; [cbn in Hlen; lia|].
  assert (Hc : is_space c = false).
  { apply token_not_space. cbn in Hall. by destruct (token c). }
  cbn [match_any]. unfold match_at, key_header. cbn [fst snd].
  change ("xi-api-key: " +:+ String c key)
    with ("xi-api-key:" +:+ String " " (String c key)).
  set (s := "xi-api-key:" +:+ String " " (String c key)).
  assert (Hs : String.length s = (12 + String.length (String c key))%nat) by done.
  assert (Hsp : leading is_space (String " " (String c key)) = 1%nat).
  { cbn [leading]. change (is_space " ") with true. by rewrite Hc. }
  match goal with |- match ?x with _ => _ end = _ => assert (x = Some (12, 12 + String.length (String c key)))%nat as -> end; [|done].
  rewrite run_lit. change (starts_with true "xi-api-key:" s) with true. cbv iota.
  change (str_drop (String.length "xi-api-key:") s) with (String " " (String c key)).
  apply run_many_greedy; [lia|]. rewrite Hsp.
  change (str_drop 1 (String " " (String c key))) with (String c key).
  rewrite run_nil. apply run_many_greedy; [lia|]. rewrite Hall, str_drop_all.
  rewrite run_nil, Hs. cbn [String.length]. do 2 f_equal; lia.
Qed.

Lemma key_header_sub key :
  leading token key = String.length key → (10 ≤ String.length key)%nat →
  sub [key_header] redacted ("xi-api-key: " +:+ key) = "xi-api-key: [REDACTED]".
Proof.
  intros Hall Hlen. unfold sub.
  pose proof (key_header_match key Hall Hlen) as Hm.
  change ("xi-api-key: " +:+ key) with (String "x" ("i-api-key: " +:+ key)) in *.
  change (12 + String.length key)%nat with (S (String.length ("i-api-key: " +:+ key))) in Hm.
  cbn [sub_go]. rewrite Hm, sub_go_skip_all by done.
  done.
Qed.

(** X24.  The header of the key, as it is sent, with a key of ten token
    characters or more: the key is replaced by the mark. *)
Lemma redact_key_header key :
  leading token key = String.length key → (10 ≤ String.length key)%nat →
  _redact ("xi-api-key: " +:+ key) = "xi-api-key: [REDACTED]".
Proof.
  intros Hall Hlen. unfold _redact, REDACTION_PATTERNS. cbn [foldl].
  rewrite key_header_sub by done. vm_compute. reflexivity.
Qed.

Lemma redact_key_header_witness :
  _redact ("xi-api-key: " +:+ "sk_0123456789") = "xi-api-key: [REDACTED]".
Proof. apply redact_key_header; [reflexivity|cbn; lia]. Defined.

(** ** The widget *)

Lemma redacted_line_no_long_token msg :
  no_long_token (_redact msg +:+ String "010" EmptyString).
Proof.
  unfold no_long_token. rewrite has_run_app_stop by (done || lia).
  by rewrite redact_no_long_token.
Qed.

Lemma log_line_no_long_token verbose basename msg w :
  Forall no_long_token w → Forall no_long_token (log_line verbose basename msg w).
Proof.
  intros Hw. unfold log_line.
  destruct verbose; [|destruct (negb _)]; try done;
    (apply Forall_app; split; [done|]; apply Forall_singleton, redacted_line_no_long_token).
Qed.

(** X25.  Whatever is given to [log_line], in either verbosity, no line of the
    widget holds thirty-two token characters in a row. *)
Lemma widget_no_long_token verbose basename msgs :
  Forall (λ l, has_run token 32 l = false) (shown verbose basename msgs).
Proof.
  unfold shown. change (Forall no_long_token
    (foldl (λ w msg, log_line verbose basename msg w) [] msgs)).
  assert (H : Forall no_long_token (@nil string)) by constructor.
  revert H. generalize (@nil string) as w. induction msgs as [|msg msgs IH]; intros w Hw; [done|].
  cbn [foldl]. by apply IH, log_line_no_long_token.
Qed.

Lemma snoc_neq {A} (w : list A) x : w ++ [x] ≠ w.
Proof. intros H. apply (f_equal length) in H. rewrite length_app in H. cbn in H. lia. Qed.

(** X26.  In its default verbosity the log drops a line of the worker
    exactly when the line begins with a blank, a hyphen or an exclamation
    mark.  Among the lines dropped are those that report a failure: of the
    synthesis (API error, network error), of the backup of the animations,
    of the extraction of the slide text, of the restore, the missing
    snapshot, and the final save. *)
Theorem default_log_drops_failure_lines (m : LogMsg) (rest : string)
    (basename : string → string) (w : list string) :
  (log_line false basename (opening m +:+ rest) w = w
   ↔ ∃ c s, opening m = String c s ∧ (c = " " ∨ c = "-" ∨ c = "!")%char)
  ∧ ∀ idx msg m',
      m' ∈ [LNetworkError idx; LApiError idx msg; LBackupFailed idx; LExtractError;
            LRestoreIssues; LSnapshotUnavailable; LSaveWarning] →
      log_line false basename (opening m' +:+ rest) w = w.
Proof.
  assert (Hdrop : ∀ m0,
    log_line false basename (opening m0 +:+ rest) w = w
    ↔ ∃ c s, opening m0 = String c s ∧ (c = " " ∨ c = "-" ∨ c = "!")%char).
  { intros m0. unfold log_line.
    destruct m0; cbn [opening];
      match goal with
      | |- context [negb ?b] =>
          let v := eval vm_compute in b in change b with v
      end; cbn [negb];
      (split;
       [ first [ intros _; eexists _, _; split; [reflexivity|]; by intuition
               | by intros ?%snoc_neq ]
       | first [ done
               | intros (c & s & [= <- _] & [?|[?|?]]); discriminate ] ]). }
  split; [apply Hdrop|].
  intros idx msg m' Hin.
  repeat (apply elem_of_cons in Hin as [->|Hin]);
    try (apply Hdrop; eexists _, _; split; [reflexivity|]; by intuition).
  by apply elem_of_nil in Hin.
Qed.

Import Account.

(** ** Logging out *)

Lemma not_truthy_empty s : truthy s = false → s = "".
Proof. by destruct s. Qed.

Lemma remove_if_exists_fs p os q :
  fs (remove_if_exists p os) !! q = None
  ∨ fs (remove_if_exists p os) !! q = fs os !! q.
Proof.
  unfold remove_if_exists. repeat case_match; auto. cbn.
  destruct (decide (p = q)) as [->|]; [left; apply lookup_delete_eq|right; by apply lookup_delete_ne].
Qed.

Lemma remove_if_exists_gone p os :
  remove_fails os p = false → fs (remove_if_exists p os) !! p = None.
Proof.
  intros H. unfold remove_if_exists. rewrite H. case_bool_decide as E.
  - apply lookup_delete_eq.
  - destruct (fs os !! p) eqn:E'; [|done]. destruct E. by eexists.
Qed.

Lemma remove_if_exists_other p os q : p ≠ q → fs (remove_if_exists p os) !! q = fs os !! q.
Proof.
  intros H. unfold remove_if_exists. repeat case_match; try done. cbn. by apply lookup_delete_ne.
Qed.

Lemma delete_voice_cache_fs os q :
  fs (delete_voice_cache os) !! q = None ∨ fs (delete_voice_cache os) !! q = fs os !! q.
Proof.
  unfold delete_voice_cache. repeat case_match; auto. cbn.
  destruct (decide (voices_cache_path os = q)) as [->|];
    [left; apply lookup_delete_eq|right; by apply lookup_delete_ne].
Qed.

Lemma do_logout_fields os :
  env_api_key (do_logout os) = env_api_key os
  ∧ vault_fails (do_logout os) = vault_fails os
  ∧ voices_cache_path (do_logout os) = voices_cache_path os
  ∧ settings_file (do_logout os) = settings_file os
  ∧ vault (do_logout os) = (if vault_fails os then vault os else None).
Proof.
  unfold do_logout, remove_if_exists, delete_voice_cache, delete_api_key.
  repeat case_match; done.
Qed.

Lemma do_logout_fs os q :
  fs (do_logout os) !! q = None ∨ fs (do_logout os) !! q = fs os !! q.
Proof.
  unfold do_logout.
  destruct (remove_if_exists_fs
    (fallback_file (remove_if_exists (settings_file (delete_voice_cache (delete_api_key os)))
                      (delete_voice_cache (delete_api_key os))))
    (remove_if_exists (settings_file (delete_voice_cache (delete_api_key os)))
                      (delete_voice_cache (delete_api_key os))) q) as [?| ->]; [by left|].
  destruct (remove_if_exists_fs (settings_file (delete_voice_cache (delete_api_key os)))
              (delete_voice_cache (delete_api_key os)) q) as [?| ->]; [by left|].
  destruct (delete_voice_cache_fs (delete_api_key os) q) as [?| ->]; [by left|].
  right. unfold delete_api_key. by case_match.
Qed.

Lemma do_logout_no_cache os :
  remove_fails os (voices_cache_path os) = false →
  truthy (voices_cache_path os) = true →
  fs (do_logout os) !! voices_cache_path os = None.
Proof.
  intros Hrm Hp. unfold do_logout.
  set (os1 := delete_api_key os).
  assert (H1 : fs (delete_voice_cache os1) !! voices_cache_path os = None).
  { assert (voices_cache_path os1 = voices_cache_path os ∧ remove_fails os1 = remove_fails os
            ∧ fs os1 = fs os) as (Hv & Hr & Hf).
    { unfold os1, delete_api_key. by case_match. }
    unfold delete_voice_cache. rewrite Hv, Hr, Hrm, Hp, Hf. cbn [andb].
    case_bool_decide as E; [apply lookup_delete_eq|]. rewrite Hf.
    destruct (fs os !! voices_cache_path os) eqn:E'; [|done]. destruct E. by eexists. }
  set (os2 := delete_voice_cache os1) in *.
  destruct (remove_if_exists_fs (fallback_file (remove_if_exists (settings_file os2) os2))
              (remove_if_exists (settings_file os2) os2) (voices_cache_path os)) as [?| ->]; [done|].
  destruct (remove_if_exists_fs (settings_file os2) os2 (voices_cache_path os)) as [?| ->]; done.
Qed.

Lemma do_logout_no_settings os :
  remove_fails os (settings_file os) = false →
  fs (do_logout os) !! settings_file os = None.
Proof.
  intros Hrm. unfold do_logout.
  set (os2 := delete_voice_cache (delete_api_key os)).
  assert (settings_file os2 = settings_file os ∧ remove_fails os2 = remove_fails os) as (Hs & Hr).
  { unfold os2, delete_voice_cache, delete_api_key. repeat case_match; done. }
  destruct (remove_if_exists_fs (fallback_file (remove_if_exists (settings_file os2) os2))
              (remove_if_exists (settings_file os2) os2) (settings_file os)) as [?| ->]; [done|].
  rewrite <- Hs. apply remove_if_exists_gone. by rewrite Hr, Hs.
Qed.

Lemma do_logout_other os p :
  p ≠ voices_cache_path os → p ≠ settings_file os → p ≠ fallback_file os →
  fs (do_logout os) !! p = fs os !! p.
Proof.
  intros H1 H2 H3. unfold do_logout.
  set (os1 := delete_api_key os).
  assert (voices_cache_path os1 = voices_cache_path os ∧ fs os1 = fs os
          ∧ settings_file os1 = settings_file os ∧ fallback_file os1 = fallback_file os)
    as (Hv & Hf & Hs & Hb).
  { unfold os1, delete_api_key. by case_match. }
  set (os2 := delete_voice_cache os1).
  assert (settings_file os2 = settings_file os ∧ fallback_file os2 = fallback_file os
          ∧ fs os2 !! p = fs os !! p) as (Hs2 & Hb2 & Hf2).
  { unfold os2, delete_voice_cache. rewrite <- Hf. repeat case_match; try done.
    cbn. rewrite lookup_delete_ne by congruence. done. }
  set (os3 := remove_if_exists (settings_file os2) os2).
  assert (fallback_file os3 = fallback_file os) as Hb3.
  { unfold os3, remove_if_exists. repeat case_match; done. }
  rewrite remove_if_exists_other by congruence.
  unfold os3. rewrite remove_if_exists_other by congruence. done.
Qed.

(** X27.  Logging out leaves no key in the vault, no cache of voices that loads
    and no settings, where the removals succeed; the key of the environment
    stays in use, and no other file changes. *)
Lemma do_logout_clears now os :
  (vault_fails os = false →
     vault (do_logout os) = None ∧ get_api_key (do_logout os) = strip (env_api_key os))
  ∧ (remove_fails os (voices_cache_path os) = false
     ∨ (vault_fails os = false ∧ truthy (strip (env_api_key os)) = false) →
     load_voice_cache now (do_logout os) = None)
  ∧ (remove_fails os (settings_file os) = false → load_settings (do_logout os) = JObj ∅)
  ∧ (∀ p, p ≠ voices_cache_path os → p ≠ settings_file os → p ≠ fallback_file os →
          fs (do_logout os) !! p = fs os !! p).
Proof.
  destruct (do_logout_fields os) as (Henv & Hvf & Hpath & Hset & Hvault).
  assert (Hkey : vault_fails os = false → get_api_key (do_logout os) = strip (env_api_key os)).
  { intros Hok. unfold get_api_key. rewrite Henv, Hvf, Hvault, Hok. cbn [default].
    destruct (truthy (strip (env_api_key os))) eqn:E; [done|].
    by apply not_truthy_empty in E as ->. }
  split; [|split; [|split]].
  - intros Hok. split; [by rewrite Hvault, Hok|by apply Hkey].
  - intros Hcase. unfold load_voice_cache. rewrite Hpath.
    destruct (truthy (voices_cache_path os)) eqn:Hp; [|done]. cbn [negb].
    destruct Hcase as [Hrm|[Hok Hblank]].
    + by rewrite do_logout_no_cache.
    + rewrite Hkey by done. apply not_truthy_empty in Hblank as ->.
      repeat case_match; done.
  - intros Hrm. unfold load_settings. by rewrite Hset, do_logout_no_settings.
  - apply do_logout_other.
Qed.

Import Preview Samples.

(** ** The preview *)

Ltac preview_cases :=
  unfold worker, attempt, _cleanup_temp, remove;
  repeat (case_match; simplify_eq/=; try done).

(** X28.  Whatever happens in a preview, its worker leaves the preview button
    enabled, the stop button disabled and no temporary path behind; it
    posts once at most, and with a blank key or a blank voice it posts
    nothing, creates no file and shows one dialog. *)
Lemma preview_always_cleans_up h api_key voice_id st :
  let st' := worker h api_key voice_id st in
  preview_btn st' = Normal
  ∧ stop_btn st' = (λ _, Disabled) <$> stop_btn st
  ∧ _temp_path st' = None
  ∧ (length (posts st') ≤ S (length (posts st)))%nat
  ∧ (truthy (strip api_key) && truthy (strip voice_id) = false →
     posts st' = posts st ∧ files st' ⊆ files st
     ∧ length (boxes st') = S (length (boxes st))).
Proof.
  cbv zeta. split; [|split; [|split; [|split]]].
  - preview_cases.
  - preview_cases; by destruct (stop_btn st).
  - preview_cases.
  - preview_cases; rewrite ?length_app; cbn; lia.
  - intros Hblank. unfold worker, attempt.
    destruct (truthy (strip api_key)); [destruct (truthy (strip voice_id)); [done|]|];
      cbn [negb]; unfold _cleanup_temp, remove;
      repeat (case_match; simplify_eq/=; try done); rewrite ?length_app; cbn;
      (split; [done|split; [set_solver|lia]]).
Qed.

(** X29.  After an answer 200 whose source file could be created, the source
    file stays behind exactly when a later step raised or its removal
    failed, and the converted file exactly when the conversion raised, so
    that its path was never recorded, or its removal failed; no other file
    changes. *)
Lemma preview_temp_files h api_key voice_id st resp ct :
  truthy (strip api_key) = true → truthy (strip voice_id) = true →
  post h = Answered resp ct → code resp = 200%Z → src_fails h = None →
  _temp_path st = None →
  src_name h (suffix_of ct) ∉ files st → dst_name h ∉ files st →
  src_name h (suffix_of ct) ≠ dst_name h → truthy (dst_name h) = true →
  let st' := worker h api_key voice_id st in
  (src_name h (suffix_of ct) ∈ files st'
   ↔ is_Some (write_fails h) ∨ is_Some (dst_fails h) ∨ is_Some (ffmpeg_fails h)
     ∨ remove_fails h (src_name h (suffix_of ct)) = true)
  ∧ (dst_name h ∈ files st'
     ↔ write_fails h = None ∧ dst_fails h = None
       ∧ (is_Some (ffmpeg_fails h) ∨ remove_fails h (dst_name h) = true))
  ∧ (∀ p, p ≠ src_name h (suffix_of ct) → p ≠ dst_name h →
          p ∈ files st' ↔ p ∈ files st).
Proof.
  intros Hkey Hvoice Hpost Hcode Hsrc Htmp Hs Hd Hne Hname. cbv zeta.
  unfold worker, attempt. rewrite Hkey, Hvoice, Hpost, Hcode, Hsrc. cbn [negb Z.eqb Pos.eqb].
  fold (suffix_of ct). set (src := src_name h (suffix_of ct)) in *.
  set (dst := dst_name h) in *.
  destruct (write_fails h) as [e|] eqn:Hw.
  { unfold _cleanup_temp. cbn. rewrite Htmp. cbn.
    split; [|split].
    - split; [intros _; left; by eexists|intros _; set_solver].
    - split; [intros ?; set_solver|by intros (? & _)].
    - intros p ? ?. set_solver. }
  destruct (dst_fails h) as [e|] eqn:Hdf.
  { unfold _cleanup_temp. cbn. rewrite Htmp. cbn.
    split; [|split].
    - split; [intros _; right; left; by eexists|intros _; set_solver].
    - split; [intros ?; set_solver|by intros (? & ? & _)].
    - intros p ? ?. set_solver. }
  destruct (ffmpeg_fails h) as [e|] eqn:Hf.
  { unfold _cleanup_temp. cbn. rewrite Htmp. cbn.
    split; [|split].
    - split; [intros _; right; right; left; by eexists|intros _; set_solver].
    - split; [intros _; split; [done|split; [done|left; by eexists]]|intros _; set_solver].
    - intros p ? ?. set_solver. }
  unfold _cleanup_temp, remove. cbn.
  destruct (remove_fails h src) eqn:Hrs; cbn; rewrite Hname; cbn [andb];
    (case_bool_decide as Hin; [|exfalso; apply Hin; set_solver]);
    destruct (remove_fails h dst) eqn:Hrd; cbn.
  all: split; [|split].
  all: try (intros p ? ?; set_solver).
  all: try (split; [intros ?|intros ?]).
  all: try set_solver.
  all: try (by repeat right).
  all: try (split; [done|split; [done|by right]]).
  all: try (destruct_or!; try (by destruct H as [? [=]]); set_solver).
  all: try (destruct H as (_ & _ & [[? [=]]|?]); done).
Qed.

Lemma preview_temp_files_witness :
  ("tmp/a.mp3" ∈ files (worker host_no_ffmpeg "key" "voice" player0)
   ↔ is_Some (write_fails host_no_ffmpeg) ∨ is_Some (dst_fails host_no_ffmpeg)
     ∨ is_Some (ffmpeg_fails host_no_ffmpeg)
     ∨ Preview.remove_fails host_no_ffmpeg "tmp/a.mp3" = true)
  ∧ ("tmp/b.wav" ∈ files (worker host_no_ffmpeg "key" "voice" player0)
     ↔ write_fails host_no_ffmpeg = None ∧ dst_fails host_no_ffmpeg = None
       ∧ (is_Some (ffmpeg_fails host_no_ffmpeg)
          ∨ Preview.remove_fails host_no_ffmpeg "tmp/b.wav" = true))
  ∧ (∀ p, p ≠ "tmp/a.mp3" → p ≠ "tmp/b.wav" →
          p ∈ files (worker host_no_ffmpeg "key" "voice" player0) ↔ p ∈ files player0).
Proof.
  apply (preview_temp_files host_no_ffmpeg "key" "voice" player0 audio_reply
           (Some "audio/MPEG")); try reflexivity; try apply not_elem_of_empty.
  discriminate.
Defined.

Import Refresh.

(** ** Refreshing the voices *)

Lemma item_assign k k' v d :
  item k (assign k' v d) = if String.eqb k k' then Some v else item k d.
Proof.
  unfold item. induction d as [|[k0 v0] d IH]; cbn.
  - by destruct (String.eqb k k').
  - destruct (String.eqb k' k0) eqn:E; cbn.
    + apply String.eqb_eq in E as ->. by destruct (String.eqb k k0).
    + destruct (String.eqb k k0) eqn:E'; cbn.
      * apply String.eqb_eq in E' as ->. rewrite String.eqb_sym in E. by rewrite E.
      * apply IH.
Qed.

Lemma item_build nm items :
  item nm (foldl (λ d x, assign x.1 x.2 d) [] items) = last_of nm items.
Proof.
  unfold last_of. induction items as [|x items IH] using rev_ind; [done|].
  rewrite foldl_app, reverse_app. cbn [foldl]. rewrite item_assign.
  change (reverse [x] ++ reverse items) with (x :: reverse items). cbn [find].
  destruct (String.eqb nm x.1); [done|apply IH].
Qed.

Lemma last_of_is_Some nm items : is_Some (last_of nm items) ↔ nm ∈ items.*1.
Proof.
  unfold last_of. induction items as [|x items IH] using rev_ind.
  - cbn. split; [by intros [? ?]|by intros ?%elem_of_nil].
  - rewrite reverse_app, fmap_app. cbn. rewrite elem_of_app, list_elem_of_singleton.
    destruct (String.eqb nm x.1) eqn:E; cbn.
    + apply String.eqb_eq in E. split; [by right|by eexists].
    + apply String.eqb_neq in E. rewrite IH. naive_solver.
Qed.

Lemma find_key_in {A} (P : string * A → bool) d kv :
  find P d = Some kv → kv.1 ∈ d.*1.
Proof.
  induction d as [|x d IH]; cbn; [done|]. destruct (P x).
  - intros [= ->]. left.
  - intros ?. right. auto.
Qed.

Lemma item_is_Some k d : is_Some (item k d) ↔ k ∈ d.*1.
Proof.
  unfold item. induction d as [|x d IH]; cbn.
  - split; [by intros [? ?]|by intros ?%elem_of_nil].
  - destruct (String.eqb k x.1) eqn:E; cbn.
    + apply String.eqb_eq in E as ->. split; [left|by eexists].
    + apply String.eqb_neq in E. rewrite IH, elem_of_cons. naive_solver.
Qed.

Lemma select_spec sel names ui :
  (∀ s, sel = Some s → s ∈ (voices_map ui).*1) →
  (∀ n, n ∈ names → n ∈ (voices_map ui).*1) →
  ∃ ui', select sel names ui = Some ui'
    ∧ voices_map ui' = voices_map ui ∧ values ui' = values ui
    ∧ (∀ s, sel = Some s → s ≠ "" → combo ui' = s)
    ∧ (names ≠ [] → combo ui' ∈ (voices_map ui).*1
                     ∧ item (combo ui') (voices_map ui) = Some (voice_id_var ui')).
Proof.
  intros Hsel Hnames.
  assert (Hfirst : ∀ n rest, names = n :: rest →
            ∃ ui', (vid ← item n (voices_map ui); Some (choose n vid ui)) = Some ui'
              ∧ voices_map ui' = voices_map ui ∧ values ui' = values ui
              ∧ combo ui' = n ∧ item (combo ui') (voices_map ui) = Some (voice_id_var ui')).
  { intros n rest ->. destruct (proj2 (item_is_Some n (voices_map ui))) as [vid Hvid].
    { apply Hnames. left. }
    rewrite Hvid. cbn. eauto 10. }
  unfold select. destruct sel as [s|].
  - destruct (truthy s) eqn:Hs.
    + destruct (proj2 (item_is_Some s (voices_map ui))) as [vid Hvid]; [by apply Hsel|].
      rewrite Hvid. cbn. eexists. split; [done|]. cbn.
      split; [done|]. split; [done|]. split; [by intros ? [= ->]|].
      intros _. split; [by apply Hsel|done].
    + destruct s; [|done]. destruct names as [|n rest].
      * eexists. split; [done|]. repeat split; try done. by intros ? [= <-].
      * destruct (Hfirst n rest eq_refl) as (ui' & -> & ? & ? & Hc & ?).
        exists ui'. repeat split; try done.
        -- by intros ? [= <-].
        -- rewrite Hc. apply Hnames. left.
  - destruct names as [|n rest].
    + eexists. split; [done|]. repeat split; done.
    + destruct (Hfirst n rest eq_refl) as (ui' & -> & ? & ? & Hc & ?).
      exists ui'. repeat split; try done. rewrite Hc. apply Hnames. left.
Qed.

Lemma saved_voice_in py_eq d saved s :
  saved_voice py_eq d saved = Some (Some s) → s ∈ d.*1.
Proof.
  unfold saved_voice. intros H.
  assert (Hid : ∀ j, fst <$> find (λ kv, py_eq kv.2 j) d = Some s → s ∈ d.*1).
  { intros j Hj. destruct (find _ d) as [kv|] eqn:E; [|done]. cbn in Hj.
    injection Hj as <-. by eapply find_key_in. }
  repeat case_match; simplify_eq; eauto.
  apply item_is_Some.
  match goal with H : bool_decide _ = true |- _ => by apply bool_decide_eq_true in H end.
Qed.

(** X30.  After a fetch that succeeds the callback saves the fetched voices and
    lists their names.  It ends by an exception exactly when the settings
    are no dictionary or the saved name cannot be hashed; otherwise, the
    list not being empty, the name it selects is a fetched name, the voice
    id is that of the last fetched voice of this name, and the saved name
    is selected when it is among the fetched names. *)
Lemma refresh_selects_a_fetched_voice py_eq other_error now sv os ui items :
  (fetch_voices sv (strip (get_api_key os))).1 = Fetched items →
  let r := on_refresh_voices py_eq other_error now sv os ui in
  r.1.1 = save_voice_cache now (JArr (cache_entry <$> items)) os
  ∧ values r.1.2 = items.*1
  ∧ (∀ nm, item nm (voices_map r.1.2) = last_of nm items)
  ∧ (r.2 = false ↔
       ∃ saved, load_settings r.1.1 = JObj saved
         ∧ ∀ j, saved !! "voice_name" = Some j → truthy_json j = true →
                (∀ l, j ≠ JArr l) ∧ (∀ m, j ≠ JObj m))
  ∧ (r.2 = false → items ≠ [] →
       combo r.1.2 ∈ items.*1 ∧ last_of (combo r.1.2) items = Some (voice_id_var r.1.2))
  ∧ (r.2 = false → ∀ saved s, load_settings r.1.1 = JObj saved →
       saved !! "voice_name" = Some (JStr s) → s ≠ "" → s ∈ items.*1 → combo r.1.2 = s).
Proof.
  intros Hfetch. cbv zeta. unfold on_refresh_voices.
  destruct (truthy (strip (get_api_key os))) eqn:Hk; cbn [negb].
  2: { unfold fetch_voices in Hfetch. rewrite strip_strip, Hk in Hfetch. done. }
  rewrite Hfetch.
  set (d := foldl (λ d x, assign x.1 x.2 d) [] items).
  set (os' := save_voice_cache now (JArr (cache_entry <$> items)) os).
  set (ui1 := with_voices d items.*1 ui).
  assert (Hd : ∀ nm, item nm d = last_of nm items) by (intros; apply item_build).
  assert (Hkeys : ∀ n, n ∈ d.*1 ↔ n ∈ items.*1).
  { intros n. by rewrite <- item_is_Some, Hd, last_of_is_Some. }
  destruct (saved_voice py_eq d (load_settings os')) as [sel|] eqn:Hsaved.
  - destruct (select_spec sel items.*1 ui1) as (ui' & -> & Hmap & Hval & Hsel & Hne).
    { intros s ->. by eapply saved_voice_in. }
    { intros n. apply Hkeys. }
    cbn [fst snd]. rewrite Hmap, Hval. cbn [voices_map values ui1 with_voices].
    split; [done|]. split; [done|]. split; [done|]. split; [|split].
    + split; [intros _|done]. unfold saved_voice in Hsaved.
      destruct (load_settings os') as [| | | | |saved] eqn:Hload; try done.
      exists saved. split; [done|]. intros j Hj Ht. rewrite Hj in Hsaved. cbn in Hsaved.
      rewrite Ht in Hsaved. by destruct j.
    + intros _ Hitems. destruct Hne as [Hin Hitem].
      { by destruct items. }
      split; [by apply Hkeys|]. by rewrite <- Hd.
    + intros _ saved s Hload Hname Hs Hin. apply Hsel; [|done].
      unfold saved_voice in Hsaved. rewrite Hload, Hname in Hsaved. cbn in Hsaved.
      destruct s; [done|]. cbn in Hsaved.
      rewrite bool_decide_eq_true_2 in Hsaved by (by apply item_is_Some, Hkeys).
      by injection Hsaved as <-.
  - cbn [fst snd]. cbn [voices_map values ui1 with_voices].
    split; [done|]. split; [done|]. split; [done|]. split; [|split]; try done.
    split; [done|]. intros (saved & Hload & Hj). exfalso.
    unfold saved_voice in Hsaved. rewrite Hload in Hsaved.
    destruct (saved !! "voice_name") as [j|] eqn:E; cbn in Hsaved.
    + destruct (truthy_json j) eqn:Ht; [|done].
      destruct (Hj j eq_refl Ht) as [H1 H2]. destruct j; try done; [by eapply H1|by eapply H2].
    + done.
Qed.

Lemma refresh_selects_a_fetched_voice_witness :
  let items := [("adam", JStr "pNInz"); ("Rachel", JStr "21m00")] in
  let r := on_refresh_voices str_eq "?" 0 service0 os0 ui0 in
  r.1.1 = save_voice_cache 0 (JArr (cache_entry <$> items)) os0
  ∧ values r.1.2 = items.*1
  ∧ (∀ nm, item nm (voices_map r.1.2) = last_of nm items)
  ∧ (r.2 = false ↔
       ∃ saved, load_settings r.1.1 = JObj saved
         ∧ ∀ j, saved !! "voice_name" = Some j → truthy_json j = true →
                (∀ l, j ≠ JArr l) ∧ (∀ m, j ≠ JObj m))
  ∧ (r.2 = false → items ≠ [] →
       combo r.1.2 ∈ items.*1 ∧ last_of (combo r.1.2) items = Some (voice_id_var r.1.2))
  ∧ (r.2 = false → ∀ saved s, load_settings r.1.1 = JObj saved →
       saved !! "voice_name" = Some (JStr s) → s ≠ "" → s ∈ items.*1 → combo r.1.2 = s).
Proof.
  apply (refresh_selects_a_fetched_voice str_eq "?" 0 service0 os0 ui0). reflexivity.
Defined.

